(** * Whale habitat and migration analysis: the analysis engine, embedded

    A shallow embedding of [src/analysis/habitat_analysis.py]
    (class [WhaleHabitatAnalyzer]) and of [WhaleDataCleaner._get_season]
    from [src/data_acquisition/clean_data.py].

    Numbers.  The coordinate columns of a data frame hold float64 values;
    a finite float64 is a binary rational, so the columns are modelled as
    [Q], with exact rational arithmetic and comparison.  The haversine
    formula goes through sin, cos, sqrt and arcsin: in [Module Geometry]
    and [Module Analyzer] its result is modelled as a real number [R],
    and rounding, infinities and NaN are outside that model; every
    statement about distances made there is a statement about exact real
    arithmetic.  [Module Float64] has the same distance computation on
    binary64 values, over numpy's elementary functions, for what depends
    on the order of the additions.

    Library routines.  [pandas.DataFrame.groupby] is modelled with its
    documented default [sort=True] (group keys ascending, rows of a group
    in frame order).  [scipy.stats.gaussian_kde] and
    [sklearn.cluster.DBSCAN] are not part of the repository: the analyzer
    is written in a section over them, and [Module Library] gives the
    models used to instantiate it.

    Beyond the analyzer: [Module Construction] has its column check,
    [Module Cleaning] the cleaning pipeline of [WhaleDataCleaner]
    ([clean_data] and its four steps, over a calendar given by its year
    and month accessors) on numeric coordinate columns,
    [Module ObjectColumns] the same pipeline on coordinate columns that
    may hold text, and [Module Dashboard] the lookups by which
    [update_visualizations] in [src/visualization/dashboard.py] reads the
    habitat analysis. *)

From Stdlib Require Import ZArith QArith Qreals Reals Lra Lia List Sorted Permutation.
From Stdlib Require Import String Ascii.
From stdpp Require Import base list gmap.
From Stdlib Require Lqa.
From Stdlib Require PrimFloat.

Import ListNotations.
Local Open Scope Z_scope.

(** ** Exceptions and results *)

(** The exceptions a call can end with.  [ValueError] is the only class
    the sources raise themselves; [InsufficientDataError] is the failure
    of the density estimator as the design document names it. *)
Inductive exn : Type :=
  | ValueError (msg : string)
  | InsufficientDataError.

Inductive result (A : Type) : Type :=
  | Ok (a : A)
  | Raise (e : exn).
Arguments Ok {A} a.
Arguments Raise {A} e.

Definition bind {A B : Type} (m : result A) (k : A -> result B) : result B :=
  match m with
  | Ok a => k a
  | Raise e => Raise e
  end.

Notation "'try!' x ':=' m 'in' k" := (bind m (fun x => k))
  (at level 10, x name, m at level 100, k at level 200).

(** ** Data cleaning: the season of a month *)

Module Cleaner.

(** [WhaleDataCleaner._get_season]: three membership tests on literal
    lists, and a final [else]. *)
Definition _get_season (month : Z) : string :=
  if existsb (Z.eqb month) [12; 1; 2] then "Winter"%string
  else if existsb (Z.eqb month) [3; 4; 5] then "Spring"%string
  else if existsb (Z.eqb month) [6; 7; 8] then "Summer"%string
  else "Autumn"%string.

End Cleaner.

(** ** Geometry *)

Module Geometry.

Local Open Scope R_scope.

(** [np.radians] *)
Definition radians (deg : Q) : R := Q2R deg * PI / 180.

(** The quantity [a] of the haversine formula, on angles in radians. *)
Definition hav_a (lat1 lon1 lat2 lon2 : R) : R :=
  let dlat := lat2 - lat1 in
  let dlon := lon2 - lon1 in
  (sin (dlat / 2)) ^ 2 + cos lat1 * cos lat2 * (sin (dlon / 2)) ^ 2.

(** [WhaleHabitatAnalyzer._haversine_distance]: no validation, no
    [raise]; Earth radius 6371 km. *)
Definition _haversine_distance (lat1 lon1 lat2 lon2 : Q) : R :=
  let R_earth := 6371 in
  let a := hav_a (radians lat1) (radians lon1) (radians lat2) (radians lon2) in
  let c := 2 * asin (sqrt a) in
  R_earth * c.

(** The operation as a caller sees it: the body above always reaches its
    [return]. *)
Definition haversine_distance (lat1 lon1 lat2 lon2 : Q) : result R :=
  Ok (_haversine_distance lat1 lon1 lat2 lon2).

(** Coordinate validity as the design document states it. *)
Definition valid_lat (lat : Q) : Prop := (-90 <= lat <= 90)%Q.
Definition valid_lon (lon : Q) : Prop := (-180 <= lon <= 180)%Q.

End Geometry.

(** ** Data frames *)

Module Frame.

(** One sighting, with the derived columns the cleaning step adds.
    Every row has the four columns [_validate_data] asks for, so the
    constructor of the analyzer accepts every frame of this type. *)
Record Row : Type := mkRow {
  scientificname : string;
  latitude : Q;
  longitude : Q;
  eventdate : Z;
  year : Z;
  month : Z;
  season : string
}.

(** A frame is its rows in index order. *)
Abbreviation DataFrame := (list Row).

(** [df[mask]] for a boolean mask aligned with the rows. *)
Definition mask_select {A : Type} (df : list A) (mask : list bool) : list A :=
  map fst (List.filter (fun p => snd p) (combine df mask)).

(** [df[['longitude', 'latitude']].values] *)
Definition lonlat (r : Row) : Q * Q := (longitude r, latitude r).
(** [df[['latitude', 'longitude']]] *)
Definition latlon (r : Row) : Q * Q := (latitude r, longitude r).

Definition pair_eqb (p q : Q * Q) : bool :=
  Qeq_bool (fst p) (fst q) && Qeq_bool (snd p) (snd q).

(** [drop_duplicates]: keep the first occurrence of each value. *)
Fixpoint drop_duplicates (ps : list (Q * Q)) : list (Q * Q) :=
  match ps with
  | [] => []
  | p :: rest => p :: List.filter (fun q => negb (pair_eqb p q)) (drop_duplicates rest)
  end.

(** Series reductions.  [min] and [max] ([series_reduce] with the
    binary minimum or maximum) of an empty series are missing values
    ([None]). *)
Definition series_sum (xs : list Q) : Q := fold_left Qplus xs 0%Q.
Definition series_mean (xs : list Q) : Q :=
  (series_sum xs / inject_Z (Z.of_nat (length xs)))%Q.

Definition Qmin' (a b : Q) : Q := if Qle_bool a b then a else b.
Definition Qmax' (a b : Q) : Q := if Qle_bool a b then b else a.

Definition series_reduce {A : Type} (op : A -> A -> A) (xs : list A) : option A :=
  match xs with
  | [] => None
  | x :: rest => Some (fold_left op rest x)
  end.

(** *** groupby *)

Section GroupBy.
Context {K : Type} (ltb eqb : K -> K -> bool).

(** Sorted insertion of a key, dropping a key already present. *)
Fixpoint insert_key (k : K) (ks : list K) : list K :=
  match ks with
  | [] => [k]
  | k' :: rest =>
      if ltb k k' then k :: ks
      else if eqb k k' then ks
      else k' :: insert_key k rest
  end.

Definition group_keys (ks : list K) : list K :=
  fold_right insert_key [] ks.

(** [df.groupby(col)]: one group per distinct key, keys ascending,
    each group holding its rows in frame order. *)
Definition groupby (key : Row -> K) (df : DataFrame) : list (K * DataFrame) :=
  map (fun k => (k, List.filter (fun r => eqb (key r) k) df))
      (group_keys (map key df)).
End GroupBy.

(** The value of a grouping column: an integer ([year], [month]) or a
    string ([season]). *)
Inductive key : Type :=
  | KInt (z : Z)
  | KStr (s : string).

End Frame.

(** ** The analyzer *)

Module Analyzer.
Import Frame Geometry.

(** The three columns the analyzer groups by; [group_col] in the source
    is always one of these literals. *)
Inductive column : Type := ColYear | ColMonth | ColSeason.

Definition tag_groups {K : Type} (tag : K -> key) (gs : list (K * DataFrame))
  : list (key * DataFrame) :=
  map (fun kg => (tag (fst kg), snd kg)) gs.

Definition groupby_col (group_col : column) (df : DataFrame) : list (key * DataFrame) :=
  match group_col with
  | ColYear => tag_groups KInt (groupby Z.ltb Z.eqb year df)
  | ColMonth => tag_groups KInt (groupby Z.ltb Z.eqb month df)
  | ColSeason => tag_groups KStr (groupby String.ltb String.eqb season df)
  end.

(** A row of the centroid frame:
    columns [group_col, centroid_lat, centroid_lon, sighting_count]. *)
Record Centroid : Type := mkCentroid {
  period : key;
  centroid_lat : Q;
  centroid_lon : Q;
  sighting_count : nat
}.

(** A corridor descriptor; [corridor_count] is its ['sighting_count']
    entry, and a missing bound of [time_span] is pandas' NaT. *)
Record Corridor : Type := mkCorridor {
  points : list (Q * Q);
  corridor_count : nat;
  time_span : option Z * option Z
}.

Record SeasonRange : Type := mkSeasonRange {
  latitude_range : option Q * option Q;
  longitude_range : option Q * option Q
}.

(** Python truthiness of an optional string argument ([None] and the
    empty string are falsy). *)
Definition truthy (s : option string) : bool :=
  match s with
  | Some s => negb (String.eqb s "")
  | None => false
  end.

(** [_calculate_centroids]: anything but ['month'] groups by season. *)
Definition _calculate_centroids (df : DataFrame) (time_window : string) : list Centroid :=
  let group_col := if String.eqb time_window "month" then ColMonth else ColSeason in
  map (fun kg =>
         {| period := fst kg;
            centroid_lat := series_mean (map latitude (snd kg));
            centroid_lon := series_mean (map longitude (snd kg));
            sighting_count := length (snd kg) |})
      (groupby_col group_col df).

Definition origin : Centroid := mkCentroid (KInt 0) 0 0 0.

(** Python's [sum]: left to right, starting from 0. *)
Definition py_sum (xs : list R) : R := fold_left Rplus xs 0%R.

(** The list [distances] that the index loop over
    [range(len(centroids) - 1)] builds. *)
Definition loop_distances (centroids : list Centroid) : list R :=
  map (fun i =>
         let c1 := nth i centroids origin in
         let c2 := nth (i + 1) centroids origin in
         _haversine_distance (centroid_lat c1) (centroid_lon c1)
                             (centroid_lat c2) (centroid_lon c2))
      (seq 0 (length centroids - 1)).

(** [_calculate_total_distance] *)
Definition _calculate_total_distance (centroids : list Centroid) : R :=
  if (length centroids <? 2)%nat then 0%R
  else py_sum (loop_distances centroids).

(** [_calculate_seasonal_ranges] *)
Definition _calculate_seasonal_ranges (df : DataFrame) : list (key * SeasonRange) :=
  map (fun kg =>
         let lats := map latitude (snd kg) in
         let lons := map longitude (snd kg) in
         (fst kg,
          {| latitude_range := (series_reduce Qmin' lats, series_reduce Qmax' lats);
             longitude_range := (series_reduce Qmin' lons, series_reduce Qmax' lons) |}))
      (groupby_col ColSeason df).

Section Engine.
(** The two library routines: the density estimator, returning a
    handle or failing, and the label vector of
    [DBSCAN(eps, min_samples).fit(X)]. *)
Context {KDE : Type}.
Variable gaussian_kde : list (Q * Q) -> result KDE.
Variable DBSCAN : Q -> nat -> list (Q * Q) -> list Z.

Record HabitatMetrics : Type := mkHabitatMetrics {
  total_sightings : nat;
  unique_locations : nat;
  hotspot_count : nat;
  density_estimate : KDE;
  hotspots : DataFrame
}.

(** What [_calculate_habitat_metrics] returns: [{}] or the five-entry
    dictionary. *)
Inductive Bundle : Type :=
  | EmptyDict
  | Metrics (m : HabitatMetrics).

(** What [analyze_habitat_preferences] returns: one bundle, or a
    dictionary from period to bundle. *)
Inductive HabitatResult : Type :=
  | Single (b : Bundle)
  | ByPeriod (rs : list (key * Bundle)).

(** The Python value is the empty dictionary. *)
Definition is_empty_dict (r : HabitatResult) : bool :=
  match r with
  | Single EmptyDict => true
  | ByPeriod [] => true
  | _ => false
  end.

Definition _calculate_habitat_metrics (df : DataFrame) : result Bundle :=
  match df with
  | [] => Ok EmptyDict
  | _ =>
      let coordinates := map lonlat df in
      try! kde := gaussian_kde coordinates in
      let labels_ := DBSCAN 1 5 coordinates in
      let hotspots := mask_select df (map (fun l => negb (l =? -1)) labels_) in
      Ok (Metrics
            {| total_sightings := length df;
               unique_locations := length (drop_duplicates (map latlon df));
               hotspot_count := length hotspots;
               density_estimate := kde;
               hotspots := hotspots |})
  end.

(** The loop [for period, group in ...: results[period] = ...]; the
    first failing group ends the call. *)
Fixpoint metrics_per_group (gs : list (key * DataFrame)) : result (list (key * Bundle)) :=
  match gs with
  | [] => Ok []
  | (k, g) :: rest =>
      try! b := _calculate_habitat_metrics g in
      try! bs := metrics_per_group rest in
      Ok ((k, b) :: bs)
  end.

Definition filter_species (s : string) (df : DataFrame) : DataFrame :=
  List.filter (fun r => String.eqb (scientificname r) s) df.

Definition analyze_habitat_preferences (df : DataFrame)
    (species time_period : option string) : result HabitatResult :=
  let df_filtered :=
    match species with
    | Some s => if truthy species then filter_species s df else df
    | None => df
    end in
  match time_period with
  | Some tp =>
      if truthy time_period then
        if String.eqb tp "year" then
          try! rs := metrics_per_group (groupby_col ColYear df_filtered) in
          Ok (ByPeriod rs)
        else if String.eqb tp "season" then
          try! rs := metrics_per_group (groupby_col ColSeason df_filtered) in
          Ok (ByPeriod rs)
        else Raise (ValueError "time_period must be 'year' or 'season'")
      else
        try! b := _calculate_habitat_metrics df_filtered in Ok (Single b)
  | None =>
      try! b := _calculate_habitat_metrics df_filtered in Ok (Single b)
  end.

(** [_identify_migration_corridors]: one pass over [set(labels_)],
    skipping the noise label. *)
Definition corridor_of (df : DataFrame) (labels_ : list Z) (label : Z) : Corridor :=
  let cluster_points := mask_select df (map (Z.eqb label) labels_) in
  {| points := map latlon cluster_points;
     corridor_count := length cluster_points;
     time_span := (series_reduce Z.min (map eventdate cluster_points),
                   series_reduce Z.max (map eventdate cluster_points)) |}.

Definition corridors_from (df : DataFrame) (labels_ : list Z) : list Corridor :=
  map (corridor_of df labels_)
      (List.filter (fun label => negb (label =? -1))
                   (elements (list_to_set labels_ : gset Z))).

Definition _identify_migration_corridors (df : DataFrame) : list Corridor :=
  let coordinates := map lonlat df in
  corridors_from df (DBSCAN 1 5 coordinates).

Record MigrationMetrics : Type := mkMigrationMetrics {
  centroids : list Centroid;
  total_distance : R;
  seasonal_ranges : list (key * SeasonRange);
  migration_corridors : list Corridor
}.

(** What [analyze_migration_patterns] returns: [{}] or the metrics. *)
Inductive MigrationResult : Type :=
  | NoData
  | Migration (m : MigrationMetrics).

Definition analyze_migration_patterns (df : DataFrame)
    (species time_window : string) : result MigrationResult :=
  let df_species := filter_species species df in
  match df_species with
  | [] => Ok NoData
  | _ =>
      let centroids := _calculate_centroids df_species time_window in
      Ok (Migration
            {| centroids := centroids;
               total_distance := _calculate_total_distance centroids;
               seasonal_ranges := _calculate_seasonal_ranges df_species;
               migration_corridors := _identify_migration_corridors df_species |})
  end.
End Engine.

End Analyzer.

(** ** The library routines *)

Module Library.
Import Frame.

(** *** Density estimator *)

Definition all_coincide (pts : list (Q * Q)) : bool :=
  match pts with
  | [] => true
  | p :: rest => forallb (pair_eqb p) rest
  end.

(** Modelled from the spec: [scipy.stats.gaussian_kde] is not in the
    sources.  The density estimator (design section 4.2) takes at least
    two distinct points and fails with [InsufficientDataError] on fewer
    than 2 points or when all points coincide; the fitted handle is kept
    abstract as the data set it was fitted on. *)
Definition gaussian_kde (dataset : list (Q * Q)) : result (list (Q * Q)) :=
  if (length dataset <? 2)%nat || all_coincide dataset
  then Raise InsufficientDataError
  else Ok dataset.

(** *** Cluster detector *)

(** Euclidean distance at most [eps], compared on squares. *)
Definition within (eps : Q) (p q : Q * Q) : bool :=
  Qle_bool ((fst p - fst q) ^ 2 + (snd p - snd q) ^ 2) (eps ^ 2).

(** The indices of the points within [eps] of point [i], ascending;
    a point is in its own neighbourhood. *)
Definition neighborhood (eps : Q) (X : list (Q * Q)) (i : nat) : list nat :=
  match X !! i with
  | Some p =>
      List.filter (fun j => match X !! j with
                            | Some q => within eps p q
                            | None => false
                            end)
                  (seq 0 (length X))
  | None => []
  end.

Section Inner.
(** The labelling pass, over any neighbourhood structure. *)
Variable n : nat.
Variable is_core : nat -> bool.
Variable neighborhoods : nat -> list nat.

Definition unlabelled (labels : list Z) (i : nat) : bool :=
  bool_decide (labels !! i = Some (-1)).

(** One depth-first expansion from [i] under label [label_num]; the
    head of [stack] is its top.  Each round labels [i] if it has no
    label yet, pushes the unlabelled neighbours of a core point, and
    continues from the popped point until the stack is empty. *)
Fixpoint expand (fuel : nat) (label_num : Z) (i : nat)
    (labels : list Z) (stack : list nat) : list Z :=
  match fuel with
  | O => labels
  | S fuel' =>
      let labels' :=
        if unlabelled labels i then <[i := label_num]> labels else labels in
      let stack' :=
        if unlabelled labels i && is_core i
        then rev (List.filter (unlabelled labels') (neighborhoods i)) ++ stack
        else stack in
      match stack' with
      | [] => labels'
      | top :: rest => expand fuel' label_num top labels' rest
      end
  end.

(** Every round either labels a point or pops one. *)
Definition expand_fuel : nat := S (n * S n).

Definition inner_step (st : Z * list Z) (i : nat) : Z * list Z :=
  let (label_num, labels) := st in
  if unlabelled labels i && is_core i
  then (label_num + 1, expand expand_fuel label_num i labels [])
  else st.

Definition dbscan_inner : list Z :=
  snd (fold_left inner_step (seq 0 n) (0, replicate n (-1))).
End Inner.

(** Modelled from the spec: [sklearn.cluster.DBSCAN] is not in the
    sources.  The cluster detector (design section 4.3): a point is a
    core point if at least [min_samples] points, itself included, lie
    within [eps] of it; clusters grow from core points through their
    neighbourhoods and absorb non-core neighbours; a point reached from no
    core point keeps the noise label -1.  Points are visited in input
    order and clusters are numbered 0, 1, ... in the order they are
    started.  The result is the label vector. *)
Definition DBSCAN (eps : Q) (min_samples : nat) (X : list (Q * Q)) : list Z :=
  let neighborhoods := neighborhood eps X in
  let is_core := fun i => (min_samples <=? length (neighborhoods i))%nat in
  dbscan_inner (length X) is_core neighborhoods.

End Library.

(** ** Reference definitions, in the words of the design document *)

Module Spec.
Import Frame Geometry Analyzer.

Local Open Scope R_scope.

(** Great-circle distance between two centroids. *)
Definition segment (c1 c2 : Centroid) : R :=
  _haversine_distance (centroid_lat c1) (centroid_lon c1)
                      (centroid_lat c2) (centroid_lon c2).

(** The sum of the distances between each consecutive pair. *)
Fixpoint consecutive_distance_sum (cs : list Centroid) : R :=
  match cs with
  | c1 :: rest =>
      match rest with
      | c2 :: _ => segment c1 c2 + consecutive_distance_sum rest
      | [] => 0
      end
  | [] => 0
  end.

(** The fixed season cycle. *)
Definition season_cycle : list string :=
  ["Winter"; "Spring"; "Summer"; "Autumn"]%string.

Fixpoint index_of (s : string) (l : list string) : nat :=
  match l with
  | [] => O
  | x :: rest => if String.eqb s x then O else S (index_of s rest)
  end.

Definition season_rank (k : key) : nat :=
  match k with
  | KStr s => index_of s season_cycle
  | KInt _ => length season_cycle
  end.

(** Centroids listed in the order of the season cycle. *)
Definition in_season_cycle_order (cs : list Centroid) : Prop :=
  StronglySorted (fun k1 k2 => (season_rank k1 < season_rank k2)%nat) (map period cs).

(** Ascending order of the group keys: integers by value, strings by
    code point, as pandas sorts them. *)
Definition key_lt (k1 k2 : key) : Prop :=
  match k1, k2 with
  | KInt a, KInt b => (a < b)%Z
  | KStr a, KStr b => String.ltb a b = true
  | _, _ => False
  end.

(** The rows of a frame that carry a given cluster label. *)
Definition cluster_rows (df : DataFrame) (labels : list Z) (l : Z) : DataFrame :=
  map fst (List.filter (fun rl => snd rl =? l) (combine df labels)).

(** The failure contract of the density estimator (design section 4.2). *)
Definition kde_contract {KDE : Type} (kde : list (Q * Q) -> result KDE) : Prop :=
  forall pts : list (Q * Q),
    (length pts < 2)%nat \/ Library.all_coincide pts = true ->
    kde pts = Raise InsufficientDataError.

End Spec.

(** ** The cluster detector: membership and invariants *)

Module ClusterSpec.

(** A point labelled noise, and two points under one cluster label. *)
Definition is_noise (X : list (Q * Q)) (labels : list Z) (p : Q * Q) : Prop :=
  exists i, X !! i = Some p /\ labels !! i = Some (-1).

Definition same_cluster (X : list (Q * Q)) (labels : list Z) (p q : Q * Q) : Prop :=
  exists i j l,
    X !! i = Some p /\ X !! j = Some q
    /\ labels !! i = Some l /\ labels !! j = Some l /\ l <> -1.

Section ClusterSpec.
Variables (eps : Q) (min_samples : nat) (X : list (Q * Q)).

(** At least [min_samples] points of the set, the point itself
    included, lie within [eps]. *)
Definition core_point (p : Q * Q) : Prop :=
  (min_samples <= length (List.filter (Library.within eps p) X))%nat.

(** Connected through a chain of core points of the set, each within
    [eps] of the next. *)
Inductive density_connected : Q * Q -> Q * Q -> Prop :=
  | dc_refl p : In p X -> core_point p -> density_connected p p
  | dc_step p q r :
      density_connected p q -> In r X -> core_point r ->
      Library.within eps q r = true -> density_connected p r.
End ClusterSpec.

(** *** Invariants of the labelling pass *)

Section InnerSpec.
Variables (n : nat) (is_core : nat -> bool) (nbrs : nat -> list nat).

(** The same chain, on indices. *)
Inductive core_conn : nat -> nat -> Prop :=
  | cc_refl i : (i < n)%nat -> is_core i = true -> core_conn i i
  | cc_step i j k :
      core_conn i j -> is_core k = true -> In k (nbrs j) -> core_conn i k.

Definition labelled (labels : list Z) (i : nat) : Prop :=
  exists l, labels !! i = Some l /\ l <> -1.

(** Between two expansions, with the points before [k] visited and
    [next] the next free cluster number. *)
Record outer_inv (k : nat) (next : Z) (labels : list Z) : Prop := {
  oi_len : length labels = n;
  oi_next : 0 <= next;
  oi_range : forall i l, labels !! i = Some l -> -1 <= l < next;
  oi_sound : forall i l, labels !! i = Some l -> l <> -1 ->
    exists c, is_core c = true /\ In i (nbrs c) /\ labels !! c = Some l;
  oi_conn : forall i j l, is_core i = true -> is_core j = true ->
    labels !! i = Some l -> labels !! j = Some l -> l <> -1 -> core_conn i j;
  oi_closed : forall c j lc, is_core c = true -> labels !! c = Some lc -> lc <> -1 ->
    In j (nbrs c) -> labelled labels j;
  oi_core_closed : forall c j lc, is_core c = true -> is_core j = true ->
    labels !! c = Some lc -> lc <> -1 -> In j (nbrs c) -> labels !! j = Some lc;
  oi_done : forall i, (i < k)%nat -> is_core i = true -> labelled labels i
}.

(** During the expansion from [seed] under label [cur], started on
    [labels0]; [pending] is the current point followed by the stack. *)
Record dfs_inv (labels0 : list Z) (seed : nat) (cur : Z)
    (pending : list nat) (labels : list Z) : Prop := {
  di_len : length labels = n;
  di_cur : 0 <= cur;
  di_range : forall i l, labels !! i = Some l -> -1 <= l <= cur;
  di_keep : forall i l, labels0 !! i = Some l -> l <> -1 -> labels !! i = Some l;
  di_seed : labelled labels seed \/ In seed pending;
  di_sound : forall i l, labels !! i = Some l -> l <> -1 ->
    exists c, is_core c = true /\ In i (nbrs c) /\ labels !! c = Some l;
  di_pending : forall s, In s pending ->
    (s < n)%nat /\
    exists c, is_core c = true /\ In s (nbrs c) /\ core_conn seed c
              /\ (labels !! c = Some cur \/ c = s);
  di_conn_cur : forall c, is_core c = true -> labels !! c = Some cur -> core_conn seed c;
  di_conn_old : forall i j l, is_core i = true -> is_core j = true ->
    labels !! i = Some l -> labels !! j = Some l -> l <> -1 -> l <> cur -> core_conn i j;
  di_closed : forall c j lc, is_core c = true -> labels !! c = Some lc -> lc <> -1 ->
    In j (nbrs c) -> labelled labels j \/ In j pending;
  di_core_closed : forall c j lc, is_core c = true -> is_core j = true ->
    labels !! c = Some lc -> lc <> -1 -> In j (nbrs c) ->
    labels !! j = Some lc \/ (labels !! j = Some (-1) /\ In j pending /\ lc = cur)
}.

(** The measure that bounds the rounds of an expansion. *)
Definition rounds_left (labels : list Z) (stack : list nat) : nat :=
  (length (List.filter (Z.eqb (-1)) labels) * S n + length stack)%nat.

(** A labelled point in the neighbourhood of a labelled core point has a
    cluster number no higher than the core point's. *)
Definition lowest_first (labels : list Z) : Prop :=
  forall c j lc lj, is_core c = true -> labels !! c = Some lc -> lc <> -1 ->
    In j (nbrs c) -> labels !! j = Some lj -> lj <> -1 -> lj <= lc.

(** Every cluster numbered below that of a core point has a core point
    earlier in the input. *)
Definition numbered_in_order (labels : list Z) : Prop :=
  forall j lj l, is_core j = true -> labels !! j = Some lj -> 0 <= l < lj ->
    exists i, (i < j)%nat /\ is_core i = true /\ labels !! i = Some l.

(** With the points before [k] visited, every cluster number in use has
    a core point among them. *)
Definition seeds_before (k : nat) (next : Z) (labels : list Z) : Prop :=
  forall l, 0 <= l < next ->
    exists i, (i < k)%nat /\ is_core i = true /\ labels !! i = Some l.

(** An expansion under [cur] writes no other number. *)
Definition only_cur (labels0 : list Z) (cur : Z) (labels : list Z) : Prop :=
  forall i l, labels !! i = Some l -> l <> -1 -> l <> cur -> labels0 !! i = Some l.

(** What an expansion under [cur], started on [labels0], keeps of the
    numbering. *)
Record order_inv (labels0 : list Z) (cur : Z) (labels : list Z) : Prop := {
  or_only : only_cur labels0 cur labels;
  or_low : lowest_first labels;
  or_ordered : numbered_in_order labels
}.
End InnerSpec.

End ClusterSpec.

(** ** Small frames for the worked examples *)

Module Examples.
Import Frame.

Definition sighting (lat lon : Q) (date m : Z) (s : string) : Row :=
  {| scientificname := "Megaptera novaeangliae"; latitude := lat; longitude := lon;
     eventdate := date; year := 2010; month := m; season := s |}.

(** One winter sighting and one autumn sighting, in that order. *)
Definition winter_then_autumn : DataFrame :=
  [ sighting 10 20 5 1 "Winter"; sighting 40 20 280 10 "Autumn" ].

(** Five sightings within one degree of each other and a distant one. *)
Definition one_corridor : DataFrame :=
  [ sighting 10 20 7 1 "Winter"; sighting (21 # 2) 20 3 1 "Winter";
    sighting 10 (41 # 2) 9 1 "Winter"; sighting (19 # 2) 20 4 1 "Winter";
    sighting 10 (39 # 2) 6 1 "Winter"; sighting 60 (-30) 1 7 "Summer" ].

(** Nine points on a line: two groups of four, and the point (3/4, 0)
    between them, less than [eps = 1] away from one point of each group.
    No two points are exactly 1 apart. *)
Definition bridge : list (Q * Q) :=
  [ (-7 # 8, 0); (-3 # 4, 0); (-1 # 2, 0); (0, 0); (3 # 4, 0);
    (3 # 2, 0); (2, 0); (9 # 4, 0); (19 # 8, 0) ]%Q.

End Examples.

(** ** The constructor's column check *)

Module Construction.

Definition required_columns : list string :=
  ["scientificname"; "latitude"; "longitude"; "eventdate"]%string.

(** Python's [repr] of a list of strings without quote characters, as
    the f-string of the error message prints it. *)
Definition py_repr_list (l : list string) : string :=
  ("[" ++ String.concat ", " (map (fun s => "'" ++ s ++ "'") l) ++ "]")%string.

(** [WhaleHabitatAnalyzer._validate_data], on the column labels of the
    frame. *)
Definition _validate_data (columns : list string) : result unit :=
  let missing_cols :=
    List.filter (fun col => negb (existsb (String.eqb col) columns)) required_columns in
  match missing_cols with
  | [] => Ok tt
  | _ => Raise (ValueError ("Missing required columns: " ++ py_repr_list missing_cols))
  end.

End Construction.

(** ** The cleaning pipeline *)

Module Cleaning.
Import Cleaner.

(** A record as it enters [clean_data]; [None] is a missing value (NaN,
    None, NaT).  The coordinate columns are numeric and [raw_eventdate] is
    the value after [pd.to_datetime(errors='coerce')], a timestamp or NaT;
    a column the frame lacks is a column of missing values. *)
Record RawRow : Type := mkRawRow {
  raw_scientificname : option string;
  raw_latitude : option Q;
  raw_longitude : option Q;
  raw_eventdate : option Z;
  raw_individualcount : option Z
}.

(** A record with coordinates and date present. *)
Record Sighting : Type := mkSighting {
  scientificname : option string;
  latitude : Q;
  longitude : Q;
  eventdate : Z;
  individualcount : Z
}.

(** A cleaned record: the sighting and its derived columns. *)
Record CleanRow : Type := mkCleanRow {
  base : Sighting;
  year : Z;
  month : Z;
  season : string;
  hemisphere : string
}.

(** [dropna(subset=['latitude', 'longitude', 'eventdate'])] on one row,
    with [individualcount] filled by 1. *)
Definition present (r : RawRow) : option Sighting :=
  match raw_latitude r, raw_longitude r, raw_eventdate r with
  | Some lat, Some lon, Some date =>
      Some {| scientificname := raw_scientificname r;
              latitude := lat; longitude := lon; eventdate := date;
              individualcount := match raw_individualcount r with
                                 | Some c => c
                                 | None => 1
                                 end |}
  | _, _, _ => None
  end.

(** [_handle_missing_values] *)
Fixpoint _handle_missing_values (df : list RawRow) : list Sighting :=
  match df with
  | [] => []
  | r :: rest =>
      match present r with
      | Some s => s :: _handle_missing_values rest
      | None => _handle_missing_values rest
      end
  end.

Definition name_eqb (a b : option string) : bool :=
  match a, b with
  | Some x, Some y => String.eqb x y
  | None, None => true
  | _, _ => false
  end.

(** Equal on [scientificname, latitude, longitude, eventdate]; missing
    names count as equal. *)
Definition same_sighting (a b : Sighting) : bool :=
  name_eqb (scientificname a) (scientificname b)
  && Qeq_bool (latitude a) (latitude b)
  && Qeq_bool (longitude a) (longitude b)
  && (eventdate a =? eventdate b).

(** [drop_duplicates(subset=...)]: the first row of each key stays. *)
Fixpoint drop_duplicates_by {A : Type} (eqb : A -> A -> bool) (l : list A) : list A :=
  match l with
  | [] => []
  | x :: rest => x :: List.filter (fun y => negb (eqb x y)) (drop_duplicates_by eqb rest)
  end.

(** [_remove_duplicates] *)
Definition _remove_duplicates (df : list Sighting) : list Sighting :=
  drop_duplicates_by same_sighting df.

(** [Series.between(lo, hi)], both ends included. *)
Definition between (lo hi x : Q) : bool := Qle_bool lo x && Qle_bool x hi.

(** [_clean_coordinates] *)
Definition _clean_coordinates (df : list Sighting) : list Sighting :=
  List.filter (fun s => between (-90) 90 (latitude s) && between (-180) 180 (longitude s)) df.

Section Calendar.
(** The calendar year and month of a timestamp ([.dt.year], [.dt.month]). *)
Variables dt_year dt_month : Z -> Z.

(** [_add_derived_features] *)
Definition _add_derived_features (df : list Sighting) : list CleanRow :=
  map (fun s =>
         {| base := s;
            year := dt_year (eventdate s);
            month := dt_month (eventdate s);
            season := _get_season (dt_month (eventdate s));
            hemisphere := if Qle_bool 0 (latitude s)
                          then "Northern"%string else "Southern"%string |})
      df.

(** [clean_data]: an empty frame is returned as it is. *)
Definition clean_data (df : list RawRow) : list CleanRow :=
  match df with
  | [] => []
  | _ =>
      _add_derived_features
        (_clean_coordinates (_remove_duplicates (_handle_missing_values df)))
  end.
End Calendar.

(** A cleaned record read back as an input record. *)
Definition to_raw (c : CleanRow) : RawRow :=
  {| raw_scientificname := scientificname (base c);
     raw_latitude := Some (latitude (base c));
     raw_longitude := Some (longitude (base c));
     raw_eventdate := Some (eventdate (base c));
     raw_individualcount := Some (individualcount (base c)) |}.

(** Pairwise different under [eqb], earlier against later. *)
Definition distinct_by {A : Type} (eqb : A -> A -> bool) (l : list A) : Prop :=
  ForallOrdPairs (fun x y => eqb x y = false) l.

(** A calendar at month resolution: timestamps count months. *)
Definition months_year (t : Z) : Z := t / 12.
Definition months_month (t : Z) : Z := t mod 12 + 1.

End Cleaning.

(** ** The cleaning pipeline before the coordinates are numbers *)

Module ObjectColumns.
Import Cleaner Cleaning.

(** A coordinate cell of the frame as it comes in: a number, or text
    that [pd.to_numeric] has yet to read. *)
Inductive Cell : Type :=
  | Num (q : Q)
  | Text (s : string).

(** A record as it enters [clean_data], coordinates not yet converted;
    [None] is a missing value, and [obj_eventdate] is the value after
    [pd.to_datetime(errors='coerce')]. *)
Record ObjRow : Type := mkObjRow {
  obj_scientificname : option string;
  obj_latitude : option Cell;
  obj_longitude : option Cell;
  obj_eventdate : option Z;
  obj_individualcount : option Z
}.

(** A record with coordinate cells and date present. *)
Record ObjSighting : Type := mkObjSighting {
  cell_scientificname : option string;
  cell_latitude : Cell;
  cell_longitude : Cell;
  cell_eventdate : Z;
  cell_individualcount : Z
}.

(** [dropna(subset=['latitude', 'longitude', 'eventdate'])] on one row,
    with [individualcount] filled by 1; text is not a missing value. *)
Definition present (r : ObjRow) : option ObjSighting :=
  match obj_latitude r, obj_longitude r, obj_eventdate r with
  | Some lat, Some lon, Some date =>
      Some {| cell_scientificname := obj_scientificname r;
              cell_latitude := lat; cell_longitude := lon; cell_eventdate := date;
              cell_individualcount := match obj_individualcount r with
                                      | Some c => c
                                      | None => 1
                                      end |}
  | _, _, _ => None
  end.

(** [_handle_missing_values] *)
Fixpoint _handle_missing_values (df : list ObjRow) : list ObjSighting :=
  match df with
  | [] => []
  | r :: rest =>
      match present r with
      | Some s => s :: _handle_missing_values rest
      | None => _handle_missing_values rest
      end
  end.

(** Equality of two cells as [drop_duplicates] sees them: numbers by
    value, text by its characters, a number never equal to text. *)
Definition cell_eqb (a b : Cell) : bool :=
  match a, b with
  | Num x, Num y => Qeq_bool x y
  | Text s, Text t => String.eqb s t
  | _, _ => false
  end.

Definition same_record (a b : ObjSighting) : bool :=
  name_eqb (cell_scientificname a) (cell_scientificname b)
  && cell_eqb (cell_latitude a) (cell_latitude b)
  && cell_eqb (cell_longitude a) (cell_longitude b)
  && (cell_eventdate a =? cell_eventdate b).

(** [_remove_duplicates]: it runs before the coordinates are converted. *)
Definition _remove_duplicates (df : list ObjSighting) : list ObjSighting :=
  drop_duplicates_by same_record df.

Section Parser.
(** [pd.to_numeric(errors='coerce')] on one text value; [None] is NaN. *)
Variable to_numeric : string -> option Q.

Definition coerce (c : Cell) : option Q :=
  match c with
  | Num q => Some q
  | Text s => to_numeric s
  end.

(** [_clean_coordinates]: convert both columns, then keep the rows in
    range; NaN is in no range. *)
Fixpoint _clean_coordinates (df : list ObjSighting) : list Sighting :=
  match df with
  | [] => []
  | r :: rest =>
      match coerce (cell_latitude r), coerce (cell_longitude r) with
      | Some lat, Some lon =>
          if between (-90) 90 lat && between (-180) 180 lon
          then {| scientificname := cell_scientificname r;
                  latitude := lat; longitude := lon;
                  eventdate := cell_eventdate r;
                  individualcount := cell_individualcount r |}
               :: _clean_coordinates rest
          else _clean_coordinates rest
      | _, _ => _clean_coordinates rest
      end
  end.

Section Calendar.
Variables dt_year dt_month : Z -> Z.

(** [clean_data] *)
Definition clean_data (df : list ObjRow) : list CleanRow :=
  match df with
  | [] => []
  | _ =>
      _add_derived_features dt_year dt_month
        (_clean_coordinates (_remove_duplicates (_handle_missing_values df)))
  end.
End Calendar.
End Parser.

(** A cell that is not text. *)
Definition not_text (c : option Cell) : Prop :=
  match c with
  | Some (Text _) => False
  | _ => True
  end.

(** Both coordinate columns hold numbers (or missing values) only. *)
Definition numeric_coordinates (df : list ObjRow) : Prop :=
  Forall (fun r => not_text (obj_latitude r) /\ not_text (obj_longitude r)) df.

(** A record with numeric coordinates, as an untyped record. *)
Definition of_raw (r : RawRow) : ObjRow :=
  {| obj_scientificname := raw_scientificname r;
     obj_latitude := option_map Num (raw_latitude r);
     obj_longitude := option_map Num (raw_longitude r);
     obj_eventdate := raw_eventdate r;
     obj_individualcount := raw_individualcount r |}.

Definition of_sighting (s : Sighting) : ObjSighting :=
  {| cell_scientificname := scientificname s;
     cell_latitude := Num (latitude s); cell_longitude := Num (longitude s);
     cell_eventdate := eventdate s;
     cell_individualcount := individualcount s |}.

(** The number in a cell that is not text. *)
Definition number_of (c : option Cell) : option Q :=
  match c with
  | Some (Num q) => Some q
  | _ => None
  end.

Definition to_numeric_row (r : ObjRow) : RawRow :=
  {| raw_scientificname := obj_scientificname r;
     raw_latitude := number_of (obj_latitude r);
     raw_longitude := number_of (obj_longitude r);
     raw_eventdate := obj_eventdate r;
     raw_individualcount := obj_individualcount r |}.

(** A cleaned record read back as an input record. *)
Definition to_obj (c : CleanRow) : ObjRow := of_raw (to_raw c).

(** A reader that knows two spellings of the number ten. *)
Definition reads_ten (s : string) : option Q :=
  if String.eqb s "10" || String.eqb s "10.0" then Some 10%Q else None.

(** Two records that differ in the spelling of their latitude only. *)
Definition ten_twice : list ObjRow :=
  [ mkObjRow (Some "Orcinus orca"%string) (Some (Text "10")) (Some (Num 20)) (Some 24121) None;
    mkObjRow (Some "Orcinus orca"%string) (Some (Text "10.0")) (Some (Num 20)) (Some 24121) None ].

(** The four input records of [raw_four], two of them duplicates. *)
Definition obj_four : list ObjRow :=
  [ mkObjRow (Some "Orcinus orca"%string) (Some (Num 10)) (Some (Num 20)) (Some 24121) None;
    mkObjRow (Some "Orcinus orca"%string) (Some (Num 10)) (Some (Num 20)) (Some 24121) (Some 3);
    mkObjRow (Some "Orcinus orca"%string) (Some (Num 11)) (Some (Num 20)) None (Some 2);
    mkObjRow (Some "Orcinus orca"%string) (Some (Num 95)) (Some (Num 20)) (Some 24130) (Some 1) ].

End ObjectColumns.

(** ** The dashboard's habitat summary *)

Module Dashboard.
Import Frame Analyzer.

Section Summary.
Context {KDE : Type}.

(** What a lookup in the analysis result can give. *)
Inductive Value : Type :=
  | VInt (n : nat)
  | VKde (k : KDE)
  | VFrame (df : DataFrame)
  | VBundle (b : @Bundle KDE).

Definition key_is (k : key) (name : string) : bool :=
  match k with
  | KStr s => String.eqb s name
  | KInt _ => false
  end.

(** [metrics.get(name, default)] *)
Definition dict_get (metrics : @HabitatResult KDE) (name : string) (default : Value) : Value :=
  match metrics with
  | Single EmptyDict => default
  | Single (Metrics m) =>
      if String.eqb name "total_sightings" then VInt (total_sightings m)
      else if String.eqb name "unique_locations" then VInt (unique_locations m)
      else if String.eqb name "hotspot_count" then VInt (hotspot_count m)
      else if String.eqb name "density_estimate" then VKde (density_estimate m)
      else if String.eqb name "hotspots" then VFrame (hotspots m)
      else default
  | ByPeriod rs =>
      match List.find (fun kb => key_is (fst kb) name) rs with
      | Some kb => VBundle (snd kb)
      | None => default
      end
  end.

(** The three figures [update_visualizations] prints for the habitat
    analysis, read from the result of
    [analyze_habitat_preferences(species, time_period='season')]. *)
Definition habitat_figures (metrics : @HabitatResult KDE) : list Value :=
  [ dict_get metrics "total_sightings" (VInt 0);
    dict_get metrics "unique_locations" (VInt 0);
    dict_get metrics "hotspot_count" (VInt 0) ].
End Summary.

End Dashboard.

(** ** Reading a bundle *)

Module HabitatSpec.
Import Analyzer.

(** The ['total_sightings'] entry of a bundle, 0 for the empty one. *)
Definition bundle_total {KDE : Type} (b : @Bundle KDE) : nat :=
  match b with
  | EmptyDict => 0%nat
  | Metrics m => total_sightings m
  end.

(** The value a row has in a grouping column. *)
Definition column_value (col : column) (r : Frame.Row) : Frame.key :=
  match col with
  | ColYear => Frame.KInt (Frame.year r)
  | ColMonth => Frame.KInt (Frame.month r)
  | ColSeason => Frame.KStr (Frame.season r)
  end.

End HabitatSpec.

(** ** More frames for the worked examples *)

Module MoreExamples.
Import Cleaning.

(** Four input records: a valid one, its duplicate, one without a date
    and one with latitude 95. *)
Definition raw_four : list RawRow :=
  [ mkRawRow (Some "Orcinus orca"%string) (Some 10%Q) (Some 20%Q) (Some 24121) None;
    mkRawRow (Some "Orcinus orca"%string) (Some 10%Q) (Some 20%Q) (Some 24121) (Some 3);
    mkRawRow (Some "Orcinus orca"%string) (Some 11%Q) (Some 20%Q) None (Some 2);
    mkRawRow (Some "Orcinus orca"%string) (Some 95%Q) (Some 20%Q) (Some 24130) (Some 1) ].

(** The five January sightings of [one_corridor]. *)
Definition january_only : Frame.DataFrame :=
  List.filter (fun r => Frame.month r =? 1) Examples.one_corridor.

End MoreExamples.

(** ** The distance total in float64 *)

Module Float64.
Import PrimFloat.
Local Open Scope float_scope.

Section Numpy.
(** The distance computation on IEEE 754 binary64 values, as numpy runs
    it.  [np.radians], [np.sin], [np.cos] and [np.arcsin] are numpy's own
    routines, outside the sources: the formula is written over them.
    Sums, differences, products, quotients and [np.sqrt] are the
    correctly rounded operations of the standard. *)
Variables np_radians np_sin np_cos np_arcsin : float -> float.

(** [x ** 2] *)
Definition square (x : float) : float := x * x.

(** [WhaleHabitatAnalyzer._haversine_distance] *)
Definition _haversine_distance (lat1 lon1 lat2 lon2 : float) : float :=
  let R := 6371 in
  let lat1 := np_radians lat1 in
  let lon1 := np_radians lon1 in
  let lat2 := np_radians lat2 in
  let lon2 := np_radians lon2 in
  let dlat := lat2 - lat1 in
  let dlon := lon2 - lon1 in
  let a := square (np_sin (dlat / 2))
           + np_cos lat1 * np_cos lat2 * square (np_sin (dlon / 2)) in
  let c := 2 * np_arcsin (sqrt a) in
  R * c.

(** Python's [sum] over numpy floats: one addition per element, left to
    right, starting from 0. *)
Definition py_sum (xs : list float) : float := fold_left add xs 0.

(** The distance between two rows of the centroid frame, each read as
    its pair [(centroid_lat, centroid_lon)]. *)
Definition leg (c1 c2 : float * float) : float :=
  _haversine_distance (fst c1) (snd c1) (fst c2) (snd c2).

(** The list [distances] that the index loop builds. *)
Definition loop_distances (centroids : list (float * float)) : list float :=
  map (fun i => leg (nth i centroids (0, 0)) (nth (i + 1) centroids (0, 0)))
      (seq 0 (length centroids - 1)).

(** [_calculate_total_distance] *)
Definition _calculate_total_distance (centroids : list (float * float)) : float :=
  if (length centroids <? 2)%nat then 0
  else py_sum (loop_distances centroids).
End Numpy.

(** A routine known at finitely many arguments; [nan] stands for an
    argument that is not tabulated. *)
Definition tabulated (entries : list (float * float)) (x : float) : float :=
  match find (fun e => eqb (fst e) x) entries with
  | Some e => snd e
  | None => nan
  end.

(** The binary64 values of the four routines at the arguments that the
    route below and its reverse reach, written exactly (hexadecimal).  In
    decimal: radians 1 = 0.017453292519943295 and
    radians 10 = 0.17453292519943295;
    sin 0.008726646259971648 = 0.008726535498373935 and
    sin 0.08726646259971647 = 0.08715574274765817, with the opposite
    values at the opposite arguments;
    cos 0.017453292519943295 = 0.9998476951563913 and
    cos 0.17453292519943295 = 0.984807753012208;
    arcsin 0.008726535498373935 = 0.008726646259971648 and
    arcsin 0.08715574274765817 = 0.08726646259971647. *)
Definition radians_at : float -> float :=
  tabulated [ (0, 0); (1, 0x1.1df46a2529d39p-6); (10, 0x1.657184ae74487p-3) ].
Definition sin_at : float -> float :=
  tabulated [ (0, 0);
              (0x1.1df46a2529d39p-7, 0x1.1df37c4954c21p-7);
              (-0x1.1df46a2529d39p-7, -0x1.1df37c4954c21p-7);
              (0x1.657184ae74487p-4, 0x1.64fd6b8c28102p-4);
              (-0x1.657184ae74487p-4, -0x1.64fd6b8c28102p-4) ].
Definition cos_at : float -> float :=
  tabulated [ (0, 1);
              (0x1.1df46a2529d39p-6, 0x1.ffec097f5af8ap-1);
              (0x1.657184ae74487p-3, 0x1.f838b8c811c17p-1) ].
Definition arcsin_at : float -> float :=
  tabulated [ (0x1.1df37c4954c21p-7, 0x1.1df46a2529d39p-7);
              (0x1.64fd6b8c28102p-4, 0x1.657184ae74487p-4) ].

(** Four centroids on the meridian of longitude 0, at latitudes 0, 1, 0
    and 10 degrees. *)
Definition route : list (float * float) := [ (0, 0); (1, 0); (0, 0); (10, 0) ].
End Float64.

(** * Properties *)

(** ** Seasons *)

Section SeasonFacts.
Import Cleaner.

(** C10. [_get_season] is a total function on the integers: every month
    gets one of the four season names, and every month outside
    12, 1, ..., 8 (0, 13 and negative values included) gets Autumn. *)
Theorem get_season_autumn_fallback (month : Z) :
  In (_get_season month) ["Winter"; "Spring"; "Summer"; "Autumn"]%string
  /\ (~ In month [12; 1; 2; 3; 4; 5; 6; 7; 8] ->
      _get_season month = "Autumn"%string).
Proof.
  unfold _get_season. split.
  - destruct (existsb (Z.eqb month) [12; 1; 2]); [simpl; tauto |].
    destruct (existsb (Z.eqb month) [3; 4; 5]); [simpl; tauto |].
    destruct (existsb (Z.eqb month) [6; 7; 8]); simpl; tauto.
  - intros Hout. simpl in *.
    repeat match goal with
           | |- context [Z.eqb month ?k] =>
               destruct (Z.eqb_spec month k); [exfalso; apply Hout; lia |]
           end.
    reflexivity.
Qed.

Lemma get_season_autumn_fallback_witness :
  ~ In 13 [12; 1; 2; 3; 4; 5; 6; 7; 8] /\ ~ In (-4) [12; 1; 2; 3; 4; 5; 6; 7; 8] /\
  _get_season 13 = "Autumn"%string /\ _get_season (-4) = "Autumn"%string.
Proof.
  assert (H13 : ~ In 13 [12; 1; 2; 3; 4; 5; 6; 7; 8]) by (simpl; lia).
  assert (Hneg : ~ In (-4) [12; 1; 2; 3; 4; 5; 6; 7; 8]) by (simpl; lia).
  split; [exact H13 |].
  split; [exact Hneg |].
  split.
  - exact (proj2 (get_season_autumn_fallback 13) H13).
  - exact (proj2 (get_season_autumn_fallback (-4)) Hneg).
Defined.
End SeasonFacts.

(** ** Great-circle distance *)

Section DistanceFacts.
Import Frame Geometry Analyzer Spec.
Local Open Scope R_scope.

Lemma asin_nonneg (x : R) : 0 <= x -> 0 <= asin x.
Proof.
  intros Hx. unfold asin.
  destruct (Rle_dec x (-1)) as [Hlo | Hlo]; [lra |].
  destruct (Rle_dec 1 x) as [Hhi | Hhi].
  - pose proof PI_RGT_0. lra.
  - assert (Hden : 0 < sqrt (1 - x²)).
    { apply sqrt_lt_R0. unfold Rsqr. nra. }
    assert (Harg : 0 <= x / sqrt (1 - x²)).
    { apply Rmult_le_pos; [exact Hx |]. left. now apply Rinv_0_lt_compat. }
    destruct Harg as [Hpos | Hzero].
    + left. rewrite <- atan_0. now apply atan_increasing.
    + rewrite <- Hzero, atan_0. lra.
Qed.

Lemma haversine_nonneg (lat1 lon1 lat2 lon2 : Q) :
  0 <= _haversine_distance lat1 lon1 lat2 lon2.
Proof.
  unfold _haversine_distance. cbv zeta.
  pose proof (asin_nonneg _ (sqrt_pos
    (hav_a (radians lat1) (radians lon1) (radians lat2) (radians lon2)))).
  lra.
Qed.

Lemma hav_a_sym (lat1 lon1 lat2 lon2 : R) :
  hav_a lat1 lon1 lat2 lon2 = hav_a lat2 lon2 lat1 lon1.
Proof.
  unfold hav_a. cbv zeta.
  replace ((lat1 - lat2) / 2) with (- ((lat2 - lat1) / 2)) by lra.
  replace ((lon1 - lon2) / 2) with (- ((lon2 - lon1) / 2)) by lra.
  rewrite !sin_neg. ring.
Qed.

Lemma haversine_sym (lat1 lon1 lat2 lon2 : Q) :
  _haversine_distance lat1 lon1 lat2 lon2 = _haversine_distance lat2 lon2 lat1 lon1.
Proof. unfold _haversine_distance. cbv zeta. now rewrite hav_a_sym. Qed.

Lemma segment_sym (c1 c2 : Centroid) : segment c1 c2 = segment c2 c1.
Proof. apply haversine_sym. Qed.

Lemma segment_nonneg (c1 c2 : Centroid) : 0 <= segment c1 c2.
Proof. apply haversine_nonneg. Qed.

(** Python's left-to-right sum against the right-nested one. *)
Lemma fold_left_Rplus_acc (xs : list R) (acc : R) :
  fold_left Rplus xs acc = acc + fold_right Rplus 0 xs.
Proof.
  revert acc. induction xs as [| x xs IH]; intros acc; simpl.
  - ring.
  - rewrite IH. ring.
Qed.

Lemma py_sum_fold_right (xs : list R) : py_sum xs = fold_right Rplus 0 xs.
Proof. unfold py_sum. rewrite fold_left_Rplus_acc. ring. Qed.

Lemma loop_distances_cons2 (c1 c2 : Centroid) (rest : list Centroid) :
  loop_distances (c1 :: c2 :: rest) = segment c1 c2 :: loop_distances (c2 :: rest).
Proof.
  unfold loop_distances, segment. simpl length.
  replace (S (S (length rest)) - 1)%nat with (S (length rest)) by lia.
  replace (S (length rest) - 1)%nat with (length rest) by lia.
  rewrite <- cons_seq. simpl map. f_equal.
  rewrite <- seq_shift, map_map. reflexivity.
Qed.

Lemma loop_sum_is_consecutive_sum (cs : list Centroid) :
  fold_right Rplus 0 (loop_distances cs) = consecutive_distance_sum cs.
Proof.
  induction cs as [| c1 rest IH]; [reflexivity |].
  destruct rest as [| c2 rest]; [reflexivity |].
  rewrite loop_distances_cons2. simpl fold_right. rewrite IH. reflexivity.
Qed.

Lemma total_distance_unfold (cs : list Centroid) :
  _calculate_total_distance cs = consecutive_distance_sum cs.
Proof.
  unfold _calculate_total_distance.
  destruct (Nat.ltb_spec (length cs) 2) as [Hshort | Hlong].
  - destruct cs as [| c1 [| c2 rest]]; simpl in *; try reflexivity; lia.
  - rewrite py_sum_fold_right. apply loop_sum_is_consecutive_sum.
Qed.

Lemma consecutive_distance_sum_nonneg (cs : list Centroid) :
  0 <= consecutive_distance_sum cs.
Proof.
  induction cs as [| c1 rest IH]; simpl; [lra |].
  destruct rest as [| c2 rest]; [lra |].
  pose proof (segment_nonneg c1 c2). lra.
Qed.

(** C1. The total distance is the sum of the haversine distances between
    each consecutive pair of centroids; it is 0 for the empty sequence and
    for a single centroid, and it is never negative. *)
Theorem total_distance_is_consecutive_sum (cs : list Centroid) :
  _calculate_total_distance cs = consecutive_distance_sum cs
  /\ _calculate_total_distance [] = 0
  /\ (forall c, _calculate_total_distance [c] = 0)
  /\ 0 <= _calculate_total_distance cs.
Proof.
  split; [apply total_distance_unfold |].
  split; [reflexivity |].
  split; [reflexivity |].
  rewrite total_distance_unfold. apply consecutive_distance_sum_nonneg.
Qed.

Lemma consecutive_distance_sum_snoc (cs : list Centroid) (a b : Centroid) :
  consecutive_distance_sum (cs ++ [a; b])
  = consecutive_distance_sum (cs ++ [a]) + segment a b.
Proof.
  induction cs as [| c1 rest IH]; simpl; [ring |].
  destruct rest as [| c2 rest]; simpl in *; [ring |].
  rewrite IH. ring.
Qed.

Lemma consecutive_distance_sum_rev (cs : list Centroid) :
  consecutive_distance_sum (rev cs) = consecutive_distance_sum cs.
Proof.
  induction cs as [| c1 rest IH]; [reflexivity |].
  destruct rest as [| c2 rest]; [reflexivity |].
  change (rev (c1 :: c2 :: rest)) with ((rev rest ++ [c2]) ++ [c1]).
  rewrite <- app_assoc. simpl app.
  rewrite consecutive_distance_sum_snoc.
  change (rev rest ++ [c2]) with (rev (c2 :: rest)).
  rewrite IH, (segment_sym c2 c1).
  change (consecutive_distance_sum (c1 :: c2 :: rest))
    with (segment c1 c2 + consecutive_distance_sum (c2 :: rest)).
  ring.
Qed.

(** In exact real arithmetic, where addition is associative and
    commutative, reversing the centroid sequence leaves the total
    unchanged. *)
Lemma exact_total_distance_rev (cs : list Centroid) :
  _calculate_total_distance (rev cs) = _calculate_total_distance cs.
Proof. rewrite !total_distance_unfold. apply consecutive_distance_sum_rev. Qed.

End DistanceFacts.

(** ** The distance total in float64 *)

Section Float64Facts.
Import PrimFloat Float64.

Variables np_radians np_sin np_cos np_arcsin : float -> float.

Abbreviation leg64 := (leg np_radians np_sin np_cos np_arcsin).
Abbreviation legs64 := (loop_distances np_radians np_sin np_cos np_arcsin).
Abbreviation total64 := (_calculate_total_distance np_radians np_sin np_cos np_arcsin).

Lemma legs64_cons2 (c1 c2 : float * float) (rest : list (float * float)) :
  legs64 (c1 :: c2 :: rest) = leg64 c1 c2 :: legs64 (c2 :: rest).
Proof.
  unfold loop_distances. simpl length.
  replace (S (S (length rest)) - 1)%nat with (S (length rest)) by lia.
  replace (S (length rest) - 1)%nat with (length rest) by lia.
  rewrite <- cons_seq. simpl map. f_equal.
  rewrite <- seq_shift, map_map. reflexivity.
Qed.

Lemma legs64_snoc (cs : list (float * float)) (a b : float * float) :
  legs64 (cs ++ [a; b]) = legs64 (cs ++ [a]) ++ [leg64 a b].
Proof.
  induction cs as [| c1 rest IH]; [reflexivity |].
  destruct rest as [| c2 rest]; [reflexivity |].
  change ((c1 :: c2 :: rest) ++ [a; b]) with (c1 :: c2 :: (rest ++ [a; b])).
  change ((c1 :: c2 :: rest) ++ [a]) with (c1 :: c2 :: (rest ++ [a])).
  rewrite !legs64_cons2.
  change (c2 :: rest ++ [a; b]) with ((c2 :: rest) ++ [a; b]).
  rewrite IH. reflexivity.
Qed.

Lemma legs64_rev (cs : list (float * float)) :
  (forall p q, In p cs -> In q cs -> leg64 p q = leg64 q p) ->
  legs64 (rev cs) = rev (legs64 cs).
Proof.
  induction cs as [| c1 rest IH]; intros Hsym; [reflexivity |].
  destruct rest as [| c2 rest]; [reflexivity |].
  change (rev (c1 :: c2 :: rest)) with ((rev rest ++ [c2]) ++ [c1]).
  rewrite <- app_assoc. simpl app.
  rewrite legs64_snoc.
  change (rev rest ++ [c2]) with (rev (c2 :: rest)).
  rewrite IH by (intros p q Hp Hq; apply Hsym; now right).
  rewrite legs64_cons2, (Hsym c2 c1) by (simpl; auto).
  reflexivity.
Qed.

(** C9, as float64 has it: reversing the centroid sequence reverses the
    list of leg distances (every leg being the same in both directions),
    so the reversed total adds the same distances from left to right in
    the opposite order. *)
Theorem reversed_route_same_legs (cs : list (float * float)) :
  (forall p q, In p cs -> In q cs -> leg64 p q = leg64 q p) ->
  legs64 (rev cs) = rev (legs64 cs)
  /\ total64 cs = py_sum (legs64 cs)
  /\ total64 (rev cs) = py_sum (rev (legs64 cs)).
Proof.
  intros Hsym.
  assert (Htotal : forall l, total64 l = py_sum (legs64 l)).
  { intros l. unfold _calculate_total_distance.
    destruct l as [| c1 [| c2 rest]]; reflexivity. }
  split; [now apply legs64_rev |]. split; [apply Htotal |].
  rewrite Htotal. f_equal. now apply legs64_rev.
Qed.

End Float64Facts.

Section Float64Examples.
Import PrimFloat Float64.
Local Open Scope float_scope.

Lemma reversed_route_same_legs_witness :
  (forall p q, In p route -> In q route ->
     leg radians_at sin_at cos_at arcsin_at p q
     = leg radians_at sin_at cos_at arcsin_at q p)
  /\ loop_distances radians_at sin_at cos_at arcsin_at (rev route)
     = rev (loop_distances radians_at sin_at cos_at arcsin_at route).
Proof.
  assert (H : forall p q, In p route -> In q route ->
                leg radians_at sin_at cos_at arcsin_at p q
                = leg radians_at sin_at cos_at arcsin_at q p).
  { intros p q Hp Hq. unfold route in Hp, Hq.
    repeat (destruct Hp as [<- | Hp]);
      repeat (destruct Hq as [<- | Hq]);
      try reflexivity; try (vm_compute; reflexivity); contradiction. }
  split; [exact H |].
  exact (proj1 (reversed_route_same_legs radians_at sin_at cos_at arcsin_at route H)).
Defined.

(** The route (0,0), (1,0), (0,0), (10,0): its legs are 111.19492664455873,
    111.19492664455873 and 1111.9492664455872 km; added in this order
    they give 1334.3391197347046, in the reverse order 1334.3391197347048. *)
Lemma reversed_route_total_differs :
  _calculate_total_distance radians_at sin_at cos_at arcsin_at route
  = 0x1.4d95b423427f0p+10
  /\ _calculate_total_distance radians_at sin_at cos_at arcsin_at (rev route)
     = 0x1.4d95b423427f1p+10
  /\ _calculate_total_distance radians_at sin_at cos_at arcsin_at (rev route)
     <> _calculate_total_distance radians_at sin_at cos_at arcsin_at route.
Proof.
  assert (Hfwd : _calculate_total_distance radians_at sin_at cos_at arcsin_at route
                 = 0x1.4d95b423427f0p+10) by (vm_compute; reflexivity).
  assert (Hbwd : _calculate_total_distance radians_at sin_at cos_at arcsin_at (rev route)
                 = 0x1.4d95b423427f1p+10) by (vm_compute; reflexivity).
  split; [exact Hfwd |]. split; [exact Hbwd |].
  rewrite Hfwd, Hbwd. intros Heq.
  apply (f_equal (fun x => ltb 0x1.4d95b423427f0p+10 x)) in Heq.
  vm_compute in Heq. discriminate Heq.
Qed.

End Float64Examples.

Section ValidationFacts.
Import Frame Geometry Analyzer Spec.
Local Open Scope R_scope.

Lemma haversine_same_point (lat lon : Q) : _haversine_distance lat lon lat lon = 0.
Proof.
  unfold _haversine_distance, hav_a. cbv zeta.
  replace ((radians lat - radians lat) / 2) with 0 by lra.
  replace ((radians lon - radians lon) / 2) with 0 by lra.
  rewrite sin_0.
  replace (0 ^ 2 + cos (radians lat) * cos (radians lat) * 0 ^ 2) with 0 by ring.
  rewrite sqrt_0, asin_0. ring.
Qed.

(** C4, as the code has it: the distance function checks nothing and
    has no failing path; on every input, in range or not, the call
    returns. *)
Theorem haversine_total_unchecked (lat1 lon1 lat2 lon2 : Q) :
  exists d : R, haversine_distance lat1 lon1 lat2 lon2 = Ok d.
Proof. exists (_haversine_distance lat1 lon1 lat2 lon2). reflexivity. Qed.

(** Latitude 100 and longitude 200 are out of range, and the call
    returns 0 instead of failing. *)
Lemma haversine_out_of_range_returns :
  ~ valid_lat 100 /\ ~ valid_lon 200 /\
  haversine_distance 100 200 100 200 = Ok 0.
Proof.
  split; [| split].
  - unfold valid_lat. intros [_ H]. revert H. unfold Qle. simpl. lia.
  - unfold valid_lon. intros [_ H]. revert H. unfold Qle. simpl. lia.
  - unfold haversine_distance. now rewrite haversine_same_point.
Qed.

End ValidationFacts.

(** ** The two public analyses *)

Section EngineFacts.
Import Frame Geometry Analyzer Spec.

Context {KDE : Type}.
Variable gaussian_kde : list (Q * Q) -> result KDE.
Variable DBSCAN : Q -> nat -> list (Q * Q) -> list Z.

Lemma centroids_fallback (df : DataFrame) (time_window : string) :
  time_window <> "month"%string ->
  _calculate_centroids df time_window = _calculate_centroids df "season".
Proof.
  intros Hne. unfold _calculate_centroids.
  destruct (String.eqb_spec time_window "month") as [Heq | _]; [contradiction |].
  reflexivity.
Qed.

(** C3, as the code has it: a time window other than ['month'] is not
    rejected; the call returns, and returns what it returns for
    ['season']. *)
Theorem time_window_falls_back_to_season
    (df : DataFrame) (species time_window : string) :
  time_window <> "month"%string ->
  analyze_migration_patterns DBSCAN df species time_window
  = analyze_migration_patterns DBSCAN df species "season"
  /\ exists r, analyze_migration_patterns DBSCAN df species time_window = Ok r.
Proof.
  intros Hne. unfold analyze_migration_patterns.
  rewrite (centroids_fallback _ _ Hne).
  split; [reflexivity |].
  destruct (filter_species species df); eexists; reflexivity.
Qed.

Lemma metrics_of_empty_frame :
  _calculate_habitat_metrics gaussian_kde DBSCAN [] = Ok EmptyDict.
Proof. reflexivity. Qed.

(** C5. With no record of the requested species, the habitat analysis
    (ungrouped, by year or by season) returns the empty dictionary and the
    migration analysis returns the empty dictionary, whatever the time
    window; neither raises. *)
Theorem empty_selection_returns_empty
    (df : DataFrame) (species : string) (time_period : option string) :
  species <> ""%string ->
  filter_species species df = [] ->
  In time_period [None; Some "year"; Some "season"]%string ->
  (exists r, analyze_habitat_preferences gaussian_kde DBSCAN df (Some species) time_period
             = Ok r /\ is_empty_dict r = true)
  /\ (forall time_window,
        analyze_migration_patterns DBSCAN df species time_window = Ok NoData).
Proof.
  intros Hsp Hnone Htp. split.
  - unfold analyze_habitat_preferences, truthy.
    destruct (String.eqb_spec species "") as [Heq | _]; [contradiction |].
    cbn [negb]. rewrite Hnone.
    destruct Htp as [<- | [<- | [<- | []]]]; cbn.
    + exists (Single EmptyDict). split; reflexivity.
    + exists (ByPeriod []). split; reflexivity.
    + exists (ByPeriod []). split; reflexivity.
  - intros time_window. unfold analyze_migration_patterns. now rewrite Hnone.
Qed.

(** C6. Given a density estimator that fails with
    [InsufficientDataError] on fewer than 2 points and on coinciding
    points, the metrics of a non-empty group with fewer than 2 points, or
    with all points at one place, fail with that error; so do the metrics
    of every single-row group. *)
Theorem degenerate_group_fails (df : DataFrame) :
  kde_contract gaussian_kde ->
  df <> [] ->
  (length df < 2)%nat \/ Library.all_coincide (map lonlat df) = true ->
  _calculate_habitat_metrics gaussian_kde DBSCAN df = Raise InsufficientDataError
  /\ forall r : Row,
       _calculate_habitat_metrics gaussian_kde DBSCAN [r] = Raise InsufficientDataError.
Proof.
  intros Hkde Hne Hdeg. split.
  - destruct df as [| r0 rest]; [contradiction |].
    unfold _calculate_habitat_metrics.
    rewrite Hkde; [reflexivity |].
    rewrite length_map. exact Hdeg.
  - intros r. unfold _calculate_habitat_metrics.
    rewrite Hkde; [reflexivity |]. left. simpl. lia.
Qed.

End EngineFacts.

Section EngineExamples.
Import Frame Analyzer Spec Examples.

Lemma time_window_falls_back_to_season_witness :
  "week"%string <> "month"%string /\
  (analyze_migration_patterns Library.DBSCAN winter_then_autumn
     "Megaptera novaeangliae" "week"
   = analyze_migration_patterns Library.DBSCAN winter_then_autumn
       "Megaptera novaeangliae" "season"
   /\ exists r, analyze_migration_patterns Library.DBSCAN winter_then_autumn
                  "Megaptera novaeangliae" "week" = Ok r).
Proof.
  assert (Hne : "week"%string <> "month"%string) by discriminate.
  split; [exact Hne |].
  exact (time_window_falls_back_to_season Library.DBSCAN winter_then_autumn
           "Megaptera novaeangliae" "week" Hne).
Defined.

(** The species has two records, ['week'] is neither ['month'] nor
    ['season'], and the call returns metrics instead of failing. *)
Lemma unknown_time_window_returns :
  length (filter_species "Megaptera novaeangliae" winter_then_autumn) = 2%nat
  /\ "week"%string <> "month"%string /\ "week"%string <> "season"%string
  /\ exists m, analyze_migration_patterns Library.DBSCAN winter_then_autumn
                 "Megaptera novaeangliae" "week" = Ok (Migration m).
Proof.
  split; [reflexivity |].
  split; [discriminate |].
  split; [discriminate |].
  eexists. reflexivity.
Qed.

Lemma empty_selection_returns_empty_witness :
  "Unknown"%string <> ""%string /\
  filter_species "Unknown" winter_then_autumn = [] /\
  In (Some "season"%string) [None; Some "year"; Some "season"]%string /\
  ((exists r, analyze_habitat_preferences Library.gaussian_kde Library.DBSCAN
                winter_then_autumn (Some "Unknown"%string) (Some "season"%string)
              = Ok r /\ is_empty_dict r = true)
   /\ (forall time_window,
         analyze_migration_patterns Library.DBSCAN winter_then_autumn
           "Unknown" time_window = Ok NoData)).
Proof.
  assert (H1 : "Unknown"%string <> ""%string) by discriminate.
  assert (H2 : filter_species "Unknown" winter_then_autumn = []) by reflexivity.
  assert (H3 : In (Some "season"%string) [None; Some "year"; Some "season"]%string)
    by (simpl; tauto).
  split; [exact H1 |]. split; [exact H2 |]. split; [exact H3 |].
  exact (empty_selection_returns_empty Library.gaussian_kde Library.DBSCAN
           winter_then_autumn "Unknown" (Some "season"%string) H1 H2 H3).
Defined.

Lemma library_kde_contract : kde_contract Library.gaussian_kde.
Proof.
  intros pts Hdeg. unfold Library.gaussian_kde.
  destruct Hdeg as [Hshort | Hsame].
  - apply Nat.ltb_lt in Hshort. now rewrite Hshort.
  - rewrite Hsame. now rewrite orb_true_r.
Qed.

Lemma degenerate_group_fails_witness :
  kde_contract Library.gaussian_kde /\
  [sighting 10 20 5 1 "Winter"] <> [] /\
  ((length [sighting 10 20 5 1 "Winter"] < 2)%nat
   \/ Library.all_coincide (map lonlat [sighting 10 20 5 1 "Winter"]) = true) /\
  (_calculate_habitat_metrics Library.gaussian_kde Library.DBSCAN
     [sighting 10 20 5 1 "Winter"] = Raise InsufficientDataError
   /\ forall r : Row,
        _calculate_habitat_metrics Library.gaussian_kde Library.DBSCAN [r]
        = Raise InsufficientDataError).
Proof.
  assert (H1 : [sighting 10 20 5 1 "Winter"] <> []) by discriminate.
  assert (H2 : (length [sighting 10 20 5 1 "Winter"] < 2)%nat
               \/ Library.all_coincide (map lonlat [sighting 10 20 5 1 "Winter"]) = true)
    by (left; simpl; lia).
  split; [exact library_kde_contract |]. split; [exact H1 |]. split; [exact H2 |].
  exact (degenerate_group_fails Library.gaussian_kde Library.DBSCAN
           [sighting 10 20 5 1 "Winter"] library_kde_contract H1 H2).
Defined.

End EngineExamples.

(** ** Grouping and the order of the centroids *)

Section GroupKeyFacts.
Import Frame.

Context {K : Type} (ltb eqb : K -> K -> bool).
Hypothesis eqb_eq : forall a b, eqb a b = true <-> a = b.
Hypothesis ltb_total : forall a b, ltb a b = false -> eqb a b = false -> ltb b a = true.

Let lt (a b : K) : Prop := ltb a b = true.

Lemma insert_key_head (k : K) (ks : list K) (a : K) :
  lt a k -> HdRel lt a ks -> HdRel lt a (insert_key ltb eqb k ks).
Proof using Type.
  intros Hak Hhd. destruct ks as [| k' rest]; simpl.
  - now constructor.
  - destruct (ltb k k'); [now constructor |].
    destruct (eqb k k'); [exact Hhd |].
    constructor. now inversion Hhd.
Qed.

Lemma insert_key_sorted (k : K) (ks : list K) :
  Sorted lt ks -> Sorted lt (insert_key ltb eqb k ks).
Proof using ltb_total.
  induction ks as [| k' rest IH]; intros Hs; simpl.
  - repeat constructor.
  - destruct (ltb k k') eqn:Hlt.
    + constructor; [exact Hs | now constructor].
    + destruct (eqb k k') eqn:Heq; [exact Hs |].
      inversion Hs as [| ? ? Hrest Hhd]; subst.
      constructor; [now apply IH |].
      apply insert_key_head; [| exact Hhd].
      now apply ltb_total.
Qed.

Lemma group_keys_sorted (ks : list K) : Sorted lt (group_keys ltb eqb ks).
Proof using ltb_total.
  induction ks as [| k rest IH]; simpl; [constructor |].
  now apply insert_key_sorted.
Qed.

Lemma in_insert_key (x k : K) (ks : list K) :
  In x (insert_key ltb eqb k ks) <-> x = k \/ In x ks.
Proof using eqb_eq.
  induction ks as [| k' rest IH]; simpl; [intuition congruence |].
  destruct (ltb k k'); simpl; [intuition congruence |].
  destruct (eqb k k') eqn:Heq; simpl.
  - apply eqb_eq in Heq. subst k'. intuition congruence.
  - rewrite IH. intuition congruence.
Qed.

Lemma in_group_keys (x : K) (ks : list K) :
  In x (group_keys ltb eqb ks) <-> In x ks.
Proof using eqb_eq.
  induction ks as [| k rest IH]; simpl; [tauto |].
  rewrite in_insert_key, IH. intuition congruence.
Qed.

End GroupKeyFacts.

Section StringOrder.

Lemma ascii_compare_lt_trans (a b c : ascii) :
  Ascii.compare a b = Lt -> Ascii.compare b c = Lt -> Ascii.compare a c = Lt.
Proof.
  unfold Ascii.compare. rewrite !N.compare_lt_iff. apply N.lt_trans.
Qed.

Lemma string_compare_lt_trans (s1 : string) :
  forall s2 s3,
    String.compare s1 s2 = Lt -> String.compare s2 s3 = Lt -> String.compare s1 s3 = Lt.
Proof.
  induction s1 as [| a s1 IH]; intros [| b s2] [| c s3]; simpl; try congruence.
  destruct (Ascii.compare a b) eqn:Hab; try discriminate;
    destruct (Ascii.compare b c) eqn:Hbc; try discriminate; intros H12 H23.
  - apply Ascii.compare_eq_iff in Hab, Hbc. subst.
    assert (Hcc : Ascii.compare c c = Eq).
    { unfold Ascii.compare. apply N.compare_refl. }
    rewrite Hcc. now apply (IH s2).
  - apply Ascii.compare_eq_iff in Hab. subst. now rewrite Hbc.
  - apply Ascii.compare_eq_iff in Hbc. subst. now rewrite Hab.
  - now rewrite (ascii_compare_lt_trans _ _ _ Hab Hbc).
Qed.

Lemma string_ltb_trans (s1 s2 s3 : string) :
  String.ltb s1 s2 = true -> String.ltb s2 s3 = true -> String.ltb s1 s3 = true.
Proof.
  unfold String.ltb.
  destruct (String.compare s1 s2) eqn:H12; try discriminate.
  destruct (String.compare s2 s3) eqn:H23; try discriminate.
  now rewrite (string_compare_lt_trans _ _ _ H12 H23).
Qed.

Lemma string_ltb_total (s1 s2 : string) :
  String.ltb s1 s2 = false -> String.eqb s1 s2 = false -> String.ltb s2 s1 = true.
Proof.
  unfold String.ltb. rewrite (String.compare_antisym s2 s1). intros Hlt Hneq.
  destruct (String.compare s1 s2) eqn:Hc; try discriminate; [| reflexivity].
  apply String.compare_eq_iff in Hc. apply String.eqb_neq in Hneq. contradiction.
Qed.

End StringOrder.

Section CentroidOrder.
Import Frame Analyzer Spec Examples.

Lemma season_centroid_periods (df : DataFrame) :
  map period (_calculate_centroids df "season")
  = map KStr (group_keys String.ltb String.eqb (map season df)).
Proof.
  unfold _calculate_centroids. cbn [String.eqb Ascii.eqb Bool.eqb].
  unfold groupby_col, tag_groups, groupby.
  rewrite !map_map. reflexivity.
Qed.

Lemma strongly_sorted_KStr (ks : list string) :
  StronglySorted (fun a b => String.ltb a b = true) ks ->
  StronglySorted key_lt (map KStr ks).
Proof.
  induction 1 as [| k rest Hrest IH Hall]; simpl; constructor; [exact IH |].
  rewrite List.Forall_forall in *. intros k' Hin.
  apply in_map_iff in Hin as [s [<- Hs]]. now apply Hall.
Qed.

(** C2, as the code has it: the season centroids come in ascending order
    of the season's name, one per season present in the records; for the
    four season names that is Autumn, Spring, Summer, Winter. *)
Theorem season_centroids_sorted_by_name (df : DataFrame) :
  let ks := map period (_calculate_centroids df "season") in
  StronglySorted key_lt ks
  /\ (forall s, In (KStr s) ks <-> In s (map season df))
  /\ (key_lt (KStr "Autumn") (KStr "Spring")
      /\ key_lt (KStr "Spring") (KStr "Summer")
      /\ key_lt (KStr "Summer") (KStr "Winter")).
Proof.
  cbv zeta. rewrite season_centroid_periods. split; [| split].
  - apply strongly_sorted_KStr.
    apply Sorted_StronglySorted.
    + intros a b c. apply string_ltb_trans.
    + apply group_keys_sorted. apply string_ltb_total.
  - intros s. rewrite in_map_iff. split.
    + intros [s' [Heq Hin]]. injection Heq as Heq. subst s'.
      apply (in_group_keys String.ltb String.eqb String.eqb_eq). exact Hin.
    + intros Hin. exists s. split; [reflexivity |].
      apply (in_group_keys String.ltb String.eqb String.eqb_eq). exact Hin.
  - repeat split.
Qed.

(** A winter sighting followed by an autumn one: the Autumn centroid
    comes first, against the season cycle. *)
Lemma autumn_centroid_before_winter :
  map period (_calculate_centroids winter_then_autumn "season")
  = [KStr "Autumn"; KStr "Winter"]
  /\ ~ in_season_cycle_order (_calculate_centroids winter_then_autumn "season").
Proof.
  assert (Hks : map period (_calculate_centroids winter_then_autumn "season")
                = [KStr "Autumn"; KStr "Winter"]) by reflexivity.
  split; [exact Hks |].
  unfold in_season_cycle_order. rewrite Hks. intros Hsorted.
  inversion Hsorted as [| ? ? _ Hall]; subst.
  inversion Hall as [| ? ? Hlt _]; subst.
  simpl in Hlt. lia.
Qed.

End CentroidOrder.

(** ** Migration corridors *)

Section CorridorFacts.
Import Frame Analyzer Spec.

Lemma mask_select_label (df : DataFrame) (labels : list Z) (l : Z) :
  mask_select df (map (Z.eqb l) labels) = cluster_rows df labels l.
Proof.
  unfold mask_select, cluster_rows.
  revert labels. induction df as [| r df IH]; intros [| x labels]; simpl; try reflexivity.
  rewrite (Z.eqb_sym l x). destruct (x =? l); simpl; now rewrite IH.
Qed.

Lemma cluster_rows_count (df : DataFrame) (labels : list Z) (l : Z) :
  length labels = length df ->
  length (cluster_rows df labels l) = length (List.filter (fun x => x =? l) labels).
Proof.
  unfold cluster_rows.
  revert labels. induction df as [| r df IH]; intros [| x labels] Hlen;
    simpl in *; try reflexivity; try discriminate.
  injection Hlen as Hlen. destruct (x =? l); simpl; now rewrite IH.
Qed.

Lemma cluster_rows_nonempty (df : DataFrame) (labels : list Z) (l : Z) :
  length labels = length df -> In l labels -> cluster_rows df labels l <> [].
Proof.
  intros Hlen Hin Hnil.
  apply (f_equal (@length Row)) in Hnil.
  rewrite (cluster_rows_count _ _ _ Hlen) in Hnil. simpl in Hnil.
  induction labels as [| x labels IH] in Hin, Hnil |- *; simpl in *; [contradiction |].
  destruct Hin as [-> | Hin].
  - rewrite Z.eqb_refl in Hnil. discriminate.
  - destruct (x =? l); [discriminate |]. now apply IH.
Qed.

Lemma fold_min_spec (xs : list Z) (x : Z) :
  In (fold_left Z.min xs x) (x :: xs)
  /\ Forall (fun d => fold_left Z.min xs x <= d) (x :: xs).
Proof.
  revert x. induction xs as [| y xs IH]; intros x; simpl.
  - split; [now left | repeat constructor; lia].
  - destruct (IH (Z.min x y)) as [Hin Hall]. split.
    + destruct Hin as [Heq | Hin]; [| now right; right].
      rewrite <- Heq. destruct (Z.min_spec x y) as [[_ ->] | [_ ->]]; tauto.
    + inversion Hall as [| ? ? Hhd Htl]; subst.
      repeat constructor; try lia. exact Htl.
Qed.

Lemma fold_max_spec (xs : list Z) (x : Z) :
  In (fold_left Z.max xs x) (x :: xs)
  /\ Forall (fun d => d <= fold_left Z.max xs x) (x :: xs).
Proof.
  revert x. induction xs as [| y xs IH]; intros x; simpl.
  - split; [now left | repeat constructor; lia].
  - destruct (IH (Z.max x y)) as [Hin Hall]. split.
    + destruct Hin as [Heq | Hin]; [| now right; right].
      rewrite <- Heq. destruct (Z.max_spec x y) as [[_ ->] | [_ ->]]; tauto.
    + inversion Hall as [| ? ? Hhd Htl]; subst.
      repeat constructor; try lia. exact Htl.
Qed.

(** The earliest and the latest date of a non-empty series. *)
Lemma series_reduce_max_spec (ds : list Z) :
  ds <> [] ->
  exists lo hi,
    series_reduce Z.min ds = Some lo /\ series_reduce Z.max ds = Some hi
    /\ In lo ds /\ In hi ds /\ Forall (fun d => lo <= d <= hi) ds.
Proof.
  destruct ds as [| d ds]; [congruence |]. intros _.
  destruct (fold_min_spec ds d) as [Hmin_in Hmin].
  destruct (fold_max_spec ds d) as [Hmax_in Hmax].
  exists (fold_left Z.min ds d), (fold_left Z.max ds d).
  repeat split; try assumption.
  rewrite List.Forall_forall in *. intros x Hx.
  split; [now apply Hmin | now apply Hmax].
Qed.

Lemma indicator_sum (ls : list Z) (x : Z) :
  List.NoDup ls ->
  list_sum (map (fun l => if x =? l then 1%nat else 0%nat) ls)
  = if existsb (Z.eqb x) ls then 1%nat else 0%nat.
Proof.
  induction 1 as [| l ls Hnotin Hnd IH]; simpl; [reflexivity |].
  rewrite IH. destruct (Z.eqb_spec x l) as [-> | Hne]; simpl; [| reflexivity].
  destruct (existsb (Z.eqb l) ls) eqn:Hex; [| reflexivity].
  apply existsb_exists in Hex as [y [Hy Heq]].
  apply Z.eqb_eq in Heq. subst y. contradiction.
Qed.

Lemma label_counts_sum (ls xs : list Z) :
  List.NoDup ls ->
  list_sum (map (fun l => length (List.filter (fun x => x =? l) xs)) ls)
  = length (List.filter (fun x => existsb (Z.eqb x) ls) xs).
Proof.
  intros Hnd. induction xs as [| x xs IH]; simpl.
  - induction ls; simpl; [reflexivity | now apply IHls; inversion Hnd].
  - transitivity
      (list_sum (map (fun l => if Z.eqb x l then 1%nat else 0%nat) ls)
       + list_sum (map (fun l => length (List.filter (fun y => Z.eqb y l) xs)) ls))%nat.
    + clear. induction ls as [| l ls IHl]; simpl; [reflexivity |].
      rewrite IHl. destruct (x =? l); simpl; lia.
    + rewrite IH, (indicator_sum _ _ Hnd).
      destruct (existsb (Z.eqb x) ls); simpl; lia.
Qed.

Variable DBSCAN : Q -> nat -> list (Q * Q) -> list Z.

(** C7. Given one label per row, the corridors correspond one to one to
    the distinct labels other than -1; the corridor of a label lists the
    (lat, lon) of exactly the rows with that label, counts them, and spans
    their earliest and latest event date.  The counts add up to the number
    of rows not labelled noise. *)
Theorem corridors_one_per_cluster (df : DataFrame) :
  let labels := DBSCAN 1 5 (map lonlat df) in
  length labels = length df ->
  exists ls : list Z,
    List.NoDup ls
    /\ (forall l, In l ls <-> In l labels /\ l <> -1)
    /\ Forall2
         (fun l c =>
            points c = map latlon (cluster_rows df labels l)
            /\ corridor_count c = length (cluster_rows df labels l)
            /\ exists lo hi,
                 time_span c = (Some lo, Some hi)
                 /\ In lo (map eventdate (cluster_rows df labels l))
                 /\ In hi (map eventdate (cluster_rows df labels l))
                 /\ Forall (fun d => lo <= d <= hi)
                           (map eventdate (cluster_rows df labels l)))
         ls (_identify_migration_corridors DBSCAN df)
    /\ list_sum (map corridor_count (_identify_migration_corridors DBSCAN df))
       = length (List.filter (fun l => negb (l =? -1)) labels).
Proof.
  intros labels Hlen.
  unfold _identify_migration_corridors, corridors_from. fold labels.
  set (ls := List.filter (fun label => negb (label =? -1))
                         (elements (list_to_set labels : gset Z))).
  assert (Hnd : List.NoDup ls).
  { apply List.NoDup_filter. apply NoDup_ListNoDup, NoDup_elements. }
  assert (Hin : forall l, In l ls <-> In l labels /\ l <> -1).
  { intros l. unfold ls. rewrite filter_In, <- list_elem_of_In.
    rewrite elem_of_elements, elem_of_list_to_set, list_elem_of_In.
    rewrite negb_true_iff, Z.eqb_neq. tauto. }
  exists ls. split; [exact Hnd |]. split; [exact Hin |]. split.
  - clear Hnd. assert (Hsub : forall l, In l ls -> In l labels)
      by (intros l Hl; now apply Hin).
    clear Hin. induction ls as [| l ls IH]; simpl; constructor.
    + unfold corridor_of. cbn [points corridor_count time_span].
      rewrite mask_select_label.
      split; [reflexivity |]. split; [reflexivity |].
      assert (Hne : map eventdate (cluster_rows df labels l) <> []).
      { intros Hnil. apply map_eq_nil in Hnil. revert Hnil.
        apply cluster_rows_nonempty; [exact Hlen | apply Hsub; now left]. }
      destruct (series_reduce_max_spec _ Hne) as (lo & hi & -> & -> & Hlo & Hhi & Hall).
      exists lo, hi. tauto.
    + apply IH. intros l' Hl'. apply Hsub. now right.
  - rewrite map_map.
    rewrite (map_ext _ (fun l => length (List.filter (fun x => x =? l) labels))).
    + rewrite (label_counts_sum _ _ Hnd). f_equal.
      apply filter_ext_in. intros x Hx.
      destruct (existsb (Z.eqb x) ls) eqn:Hex.
      * apply existsb_exists in Hex as [y [Hy Heq]].
        apply Z.eqb_eq in Heq. subst y. apply Hin in Hy as [_ Hy].
        symmetry. now rewrite negb_true_iff, Z.eqb_neq.
      * symmetry. rewrite negb_false_iff, Z.eqb_eq.
        destruct (Z.eq_dec x (-1)) as [Heq | Hne]; [exact Heq |].
        assert (Hxl : In x ls) by (apply Hin; tauto).
        assert (Hex' : existsb (Z.eqb x) ls = true).
        { apply existsb_exists. exists x. split; [exact Hxl | apply Z.eqb_refl]. }
        congruence.
    + intros l. unfold corridor_of. cbn [corridor_count].
      rewrite mask_select_label. now apply cluster_rows_count.
Qed.

End CorridorFacts.

Section CorridorExample.
Import Frame Analyzer Spec Examples.

Lemma corridors_one_per_cluster_witness :
  length (Library.DBSCAN 1 5 (map lonlat one_corridor)) = length one_corridor
  /\ Library.DBSCAN 1 5 (map lonlat one_corridor) = [0; 0; 0; 0; 0; -1]
  /\ list_sum (map corridor_count
                 (_identify_migration_corridors Library.DBSCAN one_corridor)) = 5%nat.
Proof.
  assert (Hlen : length (Library.DBSCAN 1 5 (map lonlat one_corridor))
                 = length one_corridor) by (vm_compute; reflexivity).
  split; [exact Hlen |].
  split; [vm_compute; reflexivity |].
  destruct (corridors_one_per_cluster Library.DBSCAN one_corridor Hlen)
    as (ls & _ & _ & _ & Hsum).
  rewrite Hsum. vm_compute. reflexivity.
Defined.

End CorridorExample.

(** ** The cluster detector *)

Section InnerFacts.
Import Library ClusterSpec.

Variables (n : nat) (is_core : nat -> bool) (nbrs : nat -> list nat).
Hypothesis nb_bound : forall i j, In j (nbrs i) -> (j < n)%nat.
Hypothesis nb_refl : forall i, (i < n)%nat -> In i (nbrs i).
Hypothesis nb_sym : forall i j, In j (nbrs i) -> In i (nbrs j).
Hypothesis nb_len : forall i, (length (nbrs i) <= n)%nat.

Abbreviation conn := (core_conn n is_core nbrs).

Lemma conn_core_r (i j : nat) : conn i j -> is_core j = true /\ (j < n)%nat.
Proof using nb_bound.
  destruct 1 as [i Hi Hc | i j k _ Hk Hin]; [tauto |].
  split; [exact Hk | eauto].
Qed.

Lemma conn_trans (i j k : nat) : conn i j -> conn j k -> conn i k.
Proof.
  intros Hij Hjk. induction Hjk as [j Hj Hc | j m k Hjm IH Hk Hin].
  - exact Hij.
  - apply cc_step with m; [now apply IH | exact Hk | exact Hin].
Qed.

Lemma conn_sym (i j : nat) : conn i j -> conn j i.
Proof using nb_bound nb_sym.
  induction 1 as [i Hi Hc | i j k Hij IH Hk Hin]; [now constructor |].
  destruct (conn_core_r _ _ Hij) as [Hj _].
  apply conn_trans with j; [| exact IH].
  eapply cc_step; [apply cc_refl | exact Hj | now apply nb_sym]; eauto.
Qed.

Lemma unlabelled_true (labels : list Z) (i : nat) :
  unlabelled labels i = true <-> labels !! i = Some (-1).
Proof. unfold unlabelled. apply bool_decide_eq_true. Qed.

Lemma unlabelled_false (labels : list Z) (i : nat) :
  unlabelled labels i = false <-> labels !! i <> Some (-1).
Proof. unfold unlabelled. apply bool_decide_eq_false. Qed.

Lemma lookup_label_insert (labels : list Z) (x j : nat) (cur l : Z) :
  labels !! x = Some (-1) ->
  <[x := cur]> labels !! j = Some l ->
  (j = x /\ l = cur) \/ (j <> x /\ labels !! j = Some l).
Proof.
  intros Hx Hj. destruct (Nat.eq_dec j x) as [-> | Hne].
  - left. rewrite list_lookup_insert_eq in Hj.
    + split; congruence.
    + now apply lookup_lt_Some in Hx.
  - right. rewrite list_lookup_insert_ne in Hj by congruence. tauto.
Qed.

Lemma lookup_insert_kept (labels : list Z) (x j : nat) (cur l : Z) :
  labels !! x = Some (-1) -> labels !! j = Some l -> l <> -1 ->
  <[x := cur]> labels !! j = Some l.
Proof.
  intros Hx Hj Hl. rewrite list_lookup_insert_ne; [exact Hj |].
  intros ->. congruence.
Qed.

Lemma lookup_insert_here (labels : list Z) (x : nat) (cur : Z) :
  labels !! x = Some (-1) -> <[x := cur]> labels !! x = Some cur.
Proof.
  intros Hx. apply list_lookup_insert_eq. now apply lookup_lt_Some in Hx.
Qed.

Lemma labelled_insert (labels : list Z) (x j : nat) (cur : Z) :
  labels !! x = Some (-1) -> cur <> -1 ->
  labelled labels j -> labelled (<[x := cur]> labels) j.
Proof.
  intros Hx Hcur [l [Hj Hl]]. exists l. split; [| exact Hl].
  now apply lookup_insert_kept.
Qed.

Lemma unlabelled_count_insert (labels : list Z) (x : nat) (cur : Z) :
  labels !! x = Some (-1) -> cur <> -1 ->
  S (length (List.filter (Z.eqb (-1)) (<[x := cur]> labels)))
  = length (List.filter (Z.eqb (-1)) labels).
Proof.
  intros Hx Hcur. revert x Hx.
  induction labels as [| l labels IH]; intros [| x] Hx; try discriminate.
  - change ((l :: labels) !! 0%nat) with (Some l) in Hx. injection Hx as ->.
    change (<[0%nat := cur]> (-1 :: labels)) with (cur :: labels).
    cbn [List.filter]. rewrite Z.eqb_refl.
    destruct (Z.eqb_spec (-1) cur); [congruence | reflexivity].
  - change ((l :: labels) !! S x) with (labels !! x) in Hx.
    change (<[S x := cur]> (l :: labels)) with (l :: <[x := cur]> labels).
    cbn [List.filter]. destruct (-1 =? l); cbn [length]; rewrite <- (IH _ Hx); reflexivity.
Qed.


Abbreviation dinv := (dfs_inv n is_core nbrs).
Abbreviation oinv := (outer_inv n is_core nbrs).

Lemma dfs_current (labels0 : list Z) (seed : nat) (cur : Z) (x : nat)
    (stack : list nat) (labels : list Z) :
  dinv labels0 seed cur (x :: stack) labels ->
  (x < n)%nat /\ cur <> -1 /\ (is_core x = true -> conn seed x).
Proof using Type.
  intros H. destruct (di_pending _ _ _ _ _ _ _ _ H x (or_introl eq_refl))
    as [Hxn (c & Hc & Hin & Hconn & _)].
  pose proof (di_cur _ _ _ _ _ _ _ _ H).
  repeat split; [exact Hxn | lia |].
  intros Hx. now apply cc_step with c.
Qed.

(** Labelling the current point and replacing the stack. *)
Lemma dfs_label (labels0 : list Z) (seed : nat) (cur : Z) (x : nat)
    (stack stack' : list nat) (labels : list Z) :
  dinv labels0 seed cur (x :: stack) labels ->
  labels !! x = Some (-1) ->
  (forall s, In s stack -> In s stack') ->
  (forall s, In s stack' -> In s stack \/ (is_core x = true /\ In s (nbrs x))) ->
  (is_core x = true -> forall j, In j (nbrs x) ->
     <[x := cur]> labels !! j = Some (-1) -> In j stack') ->
  dinv labels0 seed cur stack' (<[x := cur]> labels).
Proof using nb_bound nb_sym.
  intros H Hx Hsub Hnew Hpush.
  destruct (dfs_current _ _ _ _ _ _ H) as (Hxn & Hcur & Hconn_x).
  destruct H as [Hlen Hc0 Hrange Hkeep Hseed Hsound Hpend Hccur Hcold Hclosed Hcore].
  assert (Hhere : <[x := cur]> labels !! x = Some cur) by now apply lookup_insert_here.
  assert (Hkept : forall j l, labels !! j = Some l -> l <> -1 ->
                              <[x := cur]> labels !! j = Some l)
    by (intros; now apply lookup_insert_kept).
  assert (Hsplit : forall j l, <[x := cur]> labels !! j = Some l ->
                               (j = x /\ l = cur) \/ (j <> x /\ labels !! j = Some l))
    by (intros; now apply lookup_label_insert).
  assert (Htotal : forall j, (j < n)%nat -> exists l, labels !! j = Some l).
  { intros j Hj. apply lookup_lt_is_Some_2. now rewrite Hlen. }
  constructor.
  - now rewrite length_insert.
  - exact Hc0.
  - intros j l Hj. destruct (Hsplit _ _ Hj) as [[-> ->] | [_ Hj']]; [lia | eauto].
  - intros j l Hj Hl. eauto.
  - destruct Hseed as [[l [Hl Hne]] | [<- | Hin]].
    + left. exists l. eauto.
    + left. exists cur. eauto.
    + right. eauto.
  - intros j l Hj Hl. destruct (Hsplit _ _ Hj) as [[-> ->] | [_ Hj']].
    + destruct (Hpend x (or_introl eq_refl)) as [_ (c & Hc & Hin & _ & [Hlc | Heq])];
        exists c; [eauto | subst c; eauto].
    + destruct (Hsound _ _ Hj' Hl) as (c & Hc & Hin & Hlc). exists c; eauto.
  - intros s Hs. destruct (Hnew s Hs) as [Hold | [Hcx Hsx]].
    + destruct (Hpend s (or_intror Hold)) as [Hsn (c & Hc & Hin & Hconn & Hlc)].
      split; [exact Hsn |]. exists c. repeat split; try assumption.
      destruct Hlc as [Hlc | ->]; [left; eauto | now right].
    + split; [eauto |]. exists x. repeat split; auto.
  - intros c Hc Hlc. destruct (Hsplit _ _ Hlc) as [[-> _] | [_ Hlc']]; eauto.
  - intros i j l Hi Hj Hli Hlj Hl Hlcur.
    destruct (Hsplit _ _ Hli) as [[_ ->] | [_ Hli']]; [congruence |].
    destruct (Hsplit _ _ Hlj) as [[_ ->] | [_ Hlj']]; [congruence |].
    eauto.
  - intros c j lc Hc Hlc Hl Hin.
    destruct (Nat.eq_dec j x) as [-> | Hjx]; [left; exists cur; eauto |].
    destruct (Hsplit _ _ Hlc) as [[-> ->] | [_ Hlc']].
    + destruct (Htotal j (nb_bound _ _ Hin)) as [lj Hlj].
      destruct (Z.eq_dec lj (-1)) as [-> | Hne].
      * right. apply Hpush; auto. now rewrite list_lookup_insert_ne by congruence.
      * left. exists lj. eauto.
    + destruct (Hclosed _ _ _ Hc Hlc' Hl Hin) as [[l [Hlj Hne]] | [Heq | Hin']].
      * left. exists l. eauto.
      * congruence.
      * right. eauto.
  - intros c j lc Hc Hj Hlc Hl Hin.
    destruct (Hsplit _ _ Hlc) as [[-> ->] | [Hcx Hlc']].
    + destruct (Nat.eq_dec j x) as [-> | Hjx]; [now left |].
      destruct (Htotal j (nb_bound _ _ Hin)) as [lj Hlj].
      destruct (Z.eq_dec lj (-1)) as [-> | Hne].
      * right. assert (Hj' : <[x := cur]> labels !! j = Some (-1))
          by now rewrite list_lookup_insert_ne by congruence.
        auto.
      * left. destruct (Hcore j x lj Hj Hc Hlj Hne (nb_sym _ _ Hin))
          as [Hbad | (_ & _ & ->)]; [congruence | eauto].
    + destruct (Nat.eq_dec j x) as [-> | Hjx].
      * destruct (Hcore c x lc Hc Hj Hlc' Hl Hin) as [Hbad | (_ & _ & ->)];
          [congruence | now left].
      * destruct (Hcore c j lc Hc Hj Hlc' Hl Hin) as [Hl1 | (Hl1 & [Heq | Hin'] & ->)].
        -- left. eauto.
        -- congruence.
        -- right. rewrite list_lookup_insert_ne by congruence. auto.
Qed.

(** Passing over a current point that already has a label. *)
Lemma dfs_skip (labels0 : list Z) (seed : nat) (cur : Z) (x : nat)
    (stack : list nat) (labels : list Z) :
  dinv labels0 seed cur (x :: stack) labels ->
  labels !! x <> Some (-1) ->
  dinv labels0 seed cur stack labels.
Proof using Type.
  intros H Hx.
  destruct (dfs_current _ _ _ _ _ _ H) as (Hxn & Hcur & _).
  destruct H as [Hlen Hc0 Hrange Hkeep Hseed Hsound Hpend Hccur Hcold Hclosed Hcore].
  assert (Hlab : labelled labels x).
  { destruct (lookup_lt_is_Some_2 labels x) as [l Hl]; [now rewrite Hlen |].
    exists l. split; [exact Hl | congruence]. }
  constructor; try assumption.
  - destruct Hseed as [Hs | [<- | Hin]]; auto.
  - intros s Hs. apply Hpend. now right.
  - intros c j lc Hc Hlc Hl Hin.
    destruct (Hclosed _ _ _ Hc Hlc Hl Hin) as [Hj | [<- | Hin']]; auto.
  - intros c j lc Hc Hj Hlc Hl Hin.
    destruct (Hcore _ _ _ Hc Hj Hlc Hl Hin) as [Hl1 | (Hl1 & [<- | Hin'] & Heq)]; auto.
    congruence.
Qed.


(** An expansion with enough fuel runs until its stack is empty. *)
Lemma expand_inv (labels0 : list Z) (seed : nat) (cur : Z) (fuel : nat) :
  forall (x : nat) (stack : list nat) (labels : list Z),
    dinv labels0 seed cur (x :: stack) labels ->
    (rounds_left n labels stack < fuel)%nat ->
    dinv labels0 seed cur [] (expand is_core nbrs fuel cur x labels stack).
Proof using nb_bound nb_sym nb_len.
  induction fuel as [| fuel IH]; intros x stack labels H Hfuel; [lia |].
  destruct (dfs_current _ _ _ _ _ _ H) as (Hxn & Hcur & _).
  cbn [expand]. unfold rounds_left in *.
  destruct (unlabelled labels x) eqn:Hun.
  - apply unlabelled_true in Hun.
    pose proof (unlabelled_count_insert labels x cur Hun Hcur) as Hcount.
    set (labels' := <[x := cur]> labels) in *.
    destruct (is_core x) eqn:Hcx; cbn [andb].
    + set (pushed := List.filter (unlabelled labels') (nbrs x)).
      assert (Hpushed : (length pushed <= n)%nat).
      { etransitivity; [apply List.filter_length_le | apply nb_len]. }
      assert (H' : dinv labels0 seed cur (rev pushed ++ stack) labels').
      { apply (dfs_label _ _ _ _ stack); [exact H | exact Hun | | |].
        - intros s Hs. apply in_or_app. now right.
        - intros s Hs. apply in_app_or in Hs as [Hs | Hs]; [| now left].
          right. apply in_rev, filter_In in Hs. tauto.
        - intros _ j Hj Hlj. apply in_or_app. left. apply -> in_rev.
          apply filter_In. split; [exact Hj | now apply unlabelled_true]. }
      assert (Hlen' : (length (rev pushed ++ stack) <= n + length stack)%nat)
        by (rewrite length_app, length_rev; lia).
      destruct (rev pushed ++ stack) as [| top rest]; [exact H' |].
      apply IH; [exact H' |]. cbn [length] in Hlen'. lia.
    + assert (H' : dinv labels0 seed cur stack labels').
      { apply (dfs_label _ _ _ _ stack); [exact H | exact Hun | | |].
        - intros s Hs. exact Hs.
        - intros s Hs. now left.
        - intros Hbad. congruence. }
      destruct stack as [| top rest]; [exact H' |].
      apply IH; [exact H' |]. cbn [length] in Hfuel. lia.
  - apply unlabelled_false in Hun. cbn [andb].
    pose proof (dfs_skip _ _ _ _ _ _ H Hun) as H'.
    destruct stack as [| top rest]; [exact H' |].
    apply IH; [exact H' |]. cbn [length] in Hfuel. lia.
Qed.

Lemma outer_start (k : nat) (next : Z) (labels : list Z) :
  oinv k next labels -> (k < n)%nat -> is_core k = true ->
  dinv labels k next [k] labels.
Proof using nb_bound nb_refl.
  intros [Hlen Hnext Hrange Hsound Hconn Hclosed Hcore Hdone] Hk Hck.
  constructor; try assumption.
  - intros i l Hi. apply Hrange in Hi. lia.
  - auto.
  - right. now left.
  - intros s [<- | []]. split; [exact Hk |].
    exists k. repeat split; auto. now constructor.
  - intros c _ Hc. apply Hrange in Hc. lia.
  - intros i j l Hi Hj Hli Hlj Hl _. eauto.
  - intros c j lc Hc Hlc Hl Hin. left. eauto.
  - intros c j lc Hc Hj Hlc Hl Hin. left. eauto.
Qed.

Lemma outer_finish (k : nat) (next : Z) (labels0 labels : list Z) :
  oinv k next labels0 ->
  dinv labels0 k next [] labels ->
  oinv (S k) (next + 1) labels.
Proof using nb_bound nb_sym.
  intros H0 [Hlen Hnext Hrange Hkeep Hseed Hsound _ Hccur Hcold Hclosed Hcore].
  constructor; try assumption.
  - lia.
  - intros i l Hi. apply Hrange in Hi. lia.
  - intros i j l Hi Hj Hli Hlj Hl.
    destruct (Z.eq_dec l next) as [-> | Hne]; [| eauto].
    apply conn_trans with k; [apply conn_sym |]; auto.
  - intros c j lc Hc Hlc Hl Hin.
    destruct (Hclosed _ _ _ Hc Hlc Hl Hin) as [Hj | []]. exact Hj.
  - intros c j lc Hc Hj Hlc Hl Hin.
    destruct (Hcore _ _ _ Hc Hj Hlc Hl Hin) as [Hl1 | (_ & [] & _)]. exact Hl1.
  - intros i Hi Hci. destruct (Nat.eq_dec i k) as [-> | Hne].
    + destruct Hseed as [Hs | []]. exact Hs.
    + destruct (oi_done _ _ _ _ _ _ H0 i) as [l [Hl Hlne]]; [lia | exact Hci |].
      exists l. eauto.
Qed.

Lemma outer_skip (k : nat) (next : Z) (labels : list Z) :
  oinv k next labels -> (k < n)%nat ->
  unlabelled labels k && is_core k = false ->
  oinv (S k) next labels.
Proof using Type.
  intros [Hlen Hnext Hrange Hsound Hconn Hclosed Hcore Hdone] Hk Hskip.
  constructor; try assumption.
  intros i Hi Hci. destruct (Nat.eq_dec i k) as [-> | Hne]; [| apply Hdone; [lia | exact Hci]].
  rewrite Hci, andb_true_r in Hskip. apply unlabelled_false in Hskip.
  destruct (lookup_lt_is_Some_2 labels k) as [l Hl]; [now rewrite Hlen |].
  exists l. split; [exact Hl | congruence].
Qed.

Lemma inner_step_inv (k : nat) (next : Z) (labels : list Z) :
  oinv k next labels -> (k < n)%nat ->
  oinv (S k) (fst (inner_step n is_core nbrs (next, labels) k))
             (snd (inner_step n is_core nbrs (next, labels) k)).
Proof using nb_bound nb_refl nb_sym nb_len.
  intros H Hk. unfold inner_step.
  destruct (unlabelled labels k && is_core k) eqn:Hgo; cbn [fst snd].
  - apply andb_true_iff in Hgo as [_ Hck].
    apply (outer_finish _ _ labels); [exact H |].
    apply expand_inv; [now apply outer_start |].
    unfold rounds_left, expand_fuel. cbn [length].
    pose proof (List.filter_length_le (Z.eqb (-1)) labels) as Hle.
    rewrite (oi_len _ _ _ _ _ _ H) in Hle. nia.
  - now apply outer_skip.
Qed.

Lemma fold_inner_inv (m : nat) :
  forall (k : nat) (st : Z * list Z),
    (k + m = n)%nat -> oinv k (fst st) (snd st) ->
    oinv n (fst (fold_left (inner_step n is_core nbrs) (seq k m) st))
           (snd (fold_left (inner_step n is_core nbrs) (seq k m) st)).
Proof using nb_bound nb_refl nb_sym nb_len.
  induction m as [| m IH]; intros k [next labels] Hkm H; cbn [seq fold_left fst snd] in *.
  - assert (Hk : k = n) by lia. subst k. exact H.
  - apply IH; [lia |]. apply inner_step_inv; [exact H | lia].
Qed.

Lemma outer_init : oinv 0 0 (replicate n (-1)).
Proof using Type.
  assert (Hrep : forall i l, replicate n (-1) !! i = Some l -> l = -1).
  { intros i l Hi. now apply lookup_replicate in Hi as [-> _]. }
  constructor.
  - apply length_replicate.
  - lia.
  - intros i l Hi. apply Hrep in Hi. lia.
  - intros i l Hi Hl. apply Hrep in Hi. contradiction.
  - intros i j l _ _ Hi _ Hl. apply Hrep in Hi. contradiction.
  - intros c j lc _ Hc Hl. apply Hrep in Hc. contradiction.
  - intros c j lc _ _ Hc Hl. apply Hrep in Hc. contradiction.
  - intros i Hi. lia.
Qed.

Lemma dbscan_inner_inv :
  exists next, oinv n next (dbscan_inner n is_core nbrs).
Proof using nb_bound nb_refl nb_sym nb_len.
  eexists. unfold dbscan_inner.
  apply (fold_inner_inv n 0%nat (0, replicate n (-1))); [lia | apply outer_init].
Qed.

Lemma dbscan_inner_length : length (dbscan_inner n is_core nbrs) = n.
Proof using nb_bound nb_refl nb_sym nb_len.
  destruct dbscan_inner_inv as [next H]. apply (oi_len _ _ _ _ _ _ H).
Qed.

(** Noise: neither a core point nor within reach of one. *)
Lemma dbscan_inner_noise (i : nat) :
  (i < n)%nat ->
  dbscan_inner n is_core nbrs !! i = Some (-1)
  <-> is_core i = false /\ forall c, is_core c = true -> ~ In i (nbrs c).
Proof using nb_bound nb_refl nb_sym nb_len.
  intros Hi. destruct dbscan_inner_inv as [next H].
  set (labels := dbscan_inner n is_core nbrs) in *.
  split.
  - intros Hnoise. split.
    + destruct (is_core i) eqn:Hci; [| reflexivity].
      destruct (oi_done _ _ _ _ _ _ H i Hi Hci) as [l [Hl Hne]]. congruence.
    + intros c Hc Hin.
      assert (Hcn : (c < n)%nat) by (apply nb_sym in Hin; eauto).
      destruct (oi_done _ _ _ _ _ _ H c Hcn Hc) as [lc [Hlc Hne]].
      destruct (oi_closed _ _ _ _ _ _ H c i lc Hc Hlc Hne Hin) as [l [Hl Hne']].
      congruence.
  - intros [Hci Hfar].
    destruct (lookup_lt_is_Some_2 labels i) as [l Hl];
      [now rewrite (oi_len _ _ _ _ _ _ H) |].
    destruct (Z.eq_dec l (-1)) as [-> | Hne]; [exact Hl |].
    destruct (oi_sound _ _ _ _ _ _ H i l Hl Hne) as (c & Hc & Hin & _).
    now destruct (Hfar c Hc).
Qed.

(** Every labelled point carries the label of a core point that has it
    in its neighbourhood. *)
Lemma dbscan_inner_attached (i : nat) (l : Z) :
  dbscan_inner n is_core nbrs !! i = Some l -> l <> -1 ->
  exists c, is_core c = true /\ In i (nbrs c)
            /\ dbscan_inner n is_core nbrs !! c = Some l.
Proof using nb_bound nb_refl nb_sym nb_len.
  destruct dbscan_inner_inv as [next H]. apply (oi_sound _ _ _ _ _ _ H).
Qed.

(** Core points: one label exactly when connected through core points. *)
Lemma dbscan_inner_core (i j : nat) :
  (i < n)%nat -> (j < n)%nat -> is_core i = true -> is_core j = true ->
  (exists l, dbscan_inner n is_core nbrs !! i = Some l
             /\ dbscan_inner n is_core nbrs !! j = Some l /\ l <> -1)
  <-> conn i j.
Proof using nb_bound nb_refl nb_sym nb_len.
  intros Hi Hj Hci Hcj. destruct dbscan_inner_inv as [next H].
  set (labels := dbscan_inner n is_core nbrs) in *.
  split.
  - intros (l & Hli & Hlj & Hl). eapply oi_conn; eauto.
  - intros Hconn. clear Hj Hcj.
    induction Hconn as [i _ _ | i j k Hij IH Hk Hin].
    + destruct (oi_done _ _ _ _ _ _ H i Hi Hci) as [l [Hl Hne]]. eauto.
    + destruct (IH Hi Hci) as (l & Hli & Hlj & Hl).
      destruct (conn_core_r _ _ Hij) as [Hcj _].
      exists l. repeat split; auto.
      eapply oi_core_closed; eauto.
Qed.

(** *** The order in which clusters take their points *)

Abbreviation low := (lowest_first is_core nbrs).
Abbreviation ordered := (numbered_in_order is_core).
Abbreviation seeded := (seeds_before is_core).

Abbreviation order := (order_inv is_core nbrs).

Lemma order_label (labels0 : list Z) (seed : nat) (cur : Z) (x : nat)
    (stack : list nat) (labels : list Z) :
  oinv seed cur labels0 -> seeded seed cur labels0 ->
  dinv labels0 seed cur (x :: stack) labels ->
  order labels0 cur labels ->
  labels !! x = Some (-1) ->
  order labels0 cur (<[x := cur]> labels).
Proof using nb_bound.
  intros H0 Hseeds H [Honly Hlow Hord] Hx.
  assert (Hsplit : forall j l, <[x := cur]> labels !! j = Some l ->
                               (j = x /\ l = cur) \/ (j <> x /\ labels !! j = Some l))
    by (intros; now apply lookup_label_insert).
  assert (Hkept : forall j l, labels !! j = Some l -> l <> -1 ->
                              <[x := cur]> labels !! j = Some l)
    by (intros; now apply lookup_insert_kept).
  assert (Hfresh : forall l, labels0 !! x = Some l -> l = -1).
  { intros l Hl. destruct (Z.eq_dec l (-1)) as [| Hne]; [assumption |].
    pose proof (di_keep _ _ _ _ _ _ _ _ H x l Hl Hne). congruence. }
  constructor.
  - intros i l Hi Hl Hlc. destruct (Hsplit _ _ Hi) as [[_ ->] | [_ Hi']]; [congruence |].
    now apply Honly.
  - intros c j lc lj Hc Hlc Hne Hin Hlj Hnej.
    destruct (Hsplit _ _ Hlc) as [[-> ->] | [Hcx Hlc']].
    + destruct (Hsplit _ _ Hlj) as [[_ ->] | [_ Hlj']]; [lia |].
      apply (di_range _ _ _ _ _ _ _ _ H) in Hlj'. lia.
    + destruct (Hsplit _ _ Hlj) as [[-> ->] | [_ Hlj']]; [| eauto].
      destruct (Z.eq_dec lc cur) as [-> | Hold]; [lia |].
      pose proof (Honly _ _ Hlc' Hne Hold) as Hc0.
      destruct (oi_closed _ _ _ _ _ _ H0 c x lc Hc Hc0 Hne Hin) as [l [Hl Hlne]].
      apply Hfresh in Hl. contradiction.
  - intros j lj l Hj Hlj Hl.
    destruct (Hsplit _ _ Hlj) as [[-> ->] | [_ Hlj']].
    + destruct (Hseeds l Hl) as (i & Hi & Hci & Hli).
      exists i. split; [| split; [exact Hci |]].
      * destruct (Nat.lt_ge_cases x seed) as [Hlt | Hge]; [| lia].
        destruct (is_core x) eqn:Hcx; [| congruence].
        destruct (oi_done _ _ _ _ _ _ H0 x Hlt Hcx) as [l0 [Hl0 Hne0]].
        apply Hfresh in Hl0. contradiction.
      * apply Hkept; [| lia]. apply (di_keep _ _ _ _ _ _ _ _ H); [exact Hli | lia].
    + destruct (Hord _ _ _ Hj Hlj' Hl) as (i & Hi & Hci & Hli).
      exists i. split; [exact Hi |]. split; [exact Hci |]. apply Hkept; [exact Hli | lia].
Qed.

Lemma expand_order (labels0 : list Z) (seed : nat) (cur : Z) (fuel : nat) :
  oinv seed cur labels0 -> seeded seed cur labels0 ->
  forall (x : nat) (stack : list nat) (labels : list Z),
    dinv labels0 seed cur (x :: stack) labels ->
    order labels0 cur labels ->
    (rounds_left n labels stack < fuel)%nat ->
    order labels0 cur (expand is_core nbrs fuel cur x labels stack).
Proof using nb_bound nb_sym nb_len.
  intros H0 Hseeds.
  induction fuel as [| fuel IH]; intros x stack labels H Hord Hfuel; [lia |].
  destruct (dfs_current _ _ _ _ _ _ H) as (Hxn & Hcur & _).
  cbn [expand]. unfold rounds_left in *.
  destruct (unlabelled labels x) eqn:Hun.
  - apply unlabelled_true in Hun.
    pose proof (unlabelled_count_insert labels x cur Hun Hcur) as Hcount.
    pose proof (order_label _ _ _ _ _ _ H0 Hseeds H Hord Hun) as Hord'.
    set (labels' := <[x := cur]> labels) in *.
    destruct (is_core x) eqn:Hcx; cbn [andb].
    + set (pushed := List.filter (unlabelled labels') (nbrs x)).
      assert (Hpushed : (length pushed <= n)%nat).
      { etransitivity; [apply List.filter_length_le | apply nb_len]. }
      assert (H' : dinv labels0 seed cur (rev pushed ++ stack) labels').
      { apply (dfs_label _ _ _ _ stack); [exact H | exact Hun | | |].
        - intros s Hs. apply in_or_app. now right.
        - intros s Hs. apply in_app_or in Hs as [Hs | Hs]; [| now left].
          right. apply in_rev, filter_In in Hs. tauto.
        - intros _ j Hj Hlj. apply in_or_app. left. apply -> in_rev.
          apply filter_In. split; [exact Hj | now apply unlabelled_true]. }
      assert (Hlen' : (length (rev pushed ++ stack) <= n + length stack)%nat)
        by (rewrite length_app, length_rev; lia).
      destruct (rev pushed ++ stack) as [| top rest]; [exact Hord' |].
      apply IH; [exact H' | exact Hord' |]. cbn [length] in Hlen'. lia.
    + assert (H' : dinv labels0 seed cur stack labels').
      { apply (dfs_label _ _ _ _ stack); [exact H | exact Hun | | |].
        - intros s Hs. exact Hs.
        - intros s Hs. now left.
        - intros Hbad. congruence. }
      destruct stack as [| top rest]; [exact Hord' |].
      apply IH; [exact H' | exact Hord' |]. cbn [length] in Hfuel. lia.
  - apply unlabelled_false in Hun. cbn [andb].
    pose proof (dfs_skip _ _ _ _ _ _ H Hun) as H'.
    destruct stack as [| top rest]; [exact Hord |].
    apply IH; [exact H' | exact Hord |]. cbn [length] in Hfuel. lia.
Qed.

Lemma inner_step_order (k : nat) (next : Z) (labels : list Z) :
  oinv k next labels -> (k < n)%nat ->
  seeded k next labels -> low labels -> ordered labels ->
  seeded (S k) (fst (inner_step n is_core nbrs (next, labels) k))
               (snd (inner_step n is_core nbrs (next, labels) k))
  /\ low (snd (inner_step n is_core nbrs (next, labels) k))
  /\ ordered (snd (inner_step n is_core nbrs (next, labels) k)).
Proof using nb_bound nb_refl nb_sym nb_len.
  intros H Hk Hseeds Hlow Hord. unfold inner_step.
  destruct (unlabelled labels k && is_core k) eqn:Hgo; cbn [fst snd].
  - apply andb_true_iff in Hgo as [Hun Hck]. apply unlabelled_true in Hun.
    assert (Hfuel : (rounds_left n labels [] < expand_fuel n)%nat).
    { unfold rounds_left, expand_fuel. cbn [length].
      pose proof (List.filter_length_le (Z.eqb (-1)) labels) as Hle.
      rewrite (oi_len _ _ _ _ _ _ H) in Hle. nia. }
    pose proof (outer_start _ _ _ H Hk Hck) as Hstart.
    pose proof (expand_inv _ _ _ _ _ _ _ Hstart Hfuel) as Hend.
    assert (Hfirst : order labels next labels).
    { constructor; [intros i l Hi _ _; exact Hi | exact Hlow | exact Hord]. }
    destruct (expand_order _ _ _ _ H Hseeds _ _ _ Hstart Hfirst Hfuel)
      as [Honly Hlow' Hord'].
    split; [| split; [exact Hlow' | exact Hord']].
    intros l Hl. destruct (Z.eq_dec l next) as [-> | Hne].
    + exists k. split; [lia |]. split; [exact Hck |].
      destruct (di_seed _ _ _ _ _ _ _ _ Hend) as [[l [Hl' Hlne]] | []].
      destruct (Z.eq_dec l next) as [-> | Hother]; [exact Hl' |].
      pose proof (Honly _ _ Hl' Hlne Hother). congruence.
    + destruct (Hseeds l) as (i & Hi & Hci & Hli); [lia |].
      exists i. split; [lia |]. split; [exact Hci |].
      apply (di_keep _ _ _ _ _ _ _ _ Hend); [exact Hli | lia].
  - split; [| split; [exact Hlow | exact Hord]].
    intros l Hl. destruct (Hseeds l Hl) as (i & Hi & Hrest). exists i. split; [lia | exact Hrest].
Qed.

Lemma fold_inner_order (m : nat) :
  forall (k : nat) (st : Z * list Z),
    (k + m = n)%nat -> oinv k (fst st) (snd st) ->
    seeded k (fst st) (snd st) -> low (snd st) -> ordered (snd st) ->
    low (snd (fold_left (inner_step n is_core nbrs) (seq k m) st))
    /\ ordered (snd (fold_left (inner_step n is_core nbrs) (seq k m) st)).
Proof using nb_bound nb_refl nb_sym nb_len.
  induction m as [| m IH]; intros k [next labels] Hkm H Hseeds Hlow Hord;
    cbn [seq fold_left fst snd] in *; [now split |].
  assert (Hk : (k < n)%nat) by lia.
  destruct (inner_step_order _ _ _ H Hk Hseeds Hlow Hord) as (Hs & Hl & Ho).
  pose proof (inner_step_inv _ _ _ H Hk) as H'.
  destruct (inner_step n is_core nbrs (next, labels) k) as [next' labels'].
  apply IH; [lia | exact H' | exact Hs | exact Hl | exact Ho].
Qed.

(** A clustered point has the lowest cluster number among the core
    points that have it in their neighbourhood, and the numbers follow
    the input order of the clusters' first core points. *)
Lemma dbscan_inner_order :
  low (dbscan_inner n is_core nbrs) /\ ordered (dbscan_inner n is_core nbrs).
Proof using nb_bound nb_refl nb_sym nb_len.
  assert (Hrep : forall i l, replicate n (-1) !! i = Some l -> l = -1).
  { intros i l Hi. now apply lookup_replicate in Hi as [-> _]. }
  unfold dbscan_inner.
  apply (fold_inner_order n 0%nat (0, replicate n (-1))); cbn [fst snd].
  - lia.
  - apply outer_init.
  - intros l Hl. lia.
  - intros c j lc lj _ Hc Hne. apply Hrep in Hc. contradiction.
  - intros j lj l _ Hj Hl. apply Hrep in Hj. lia.
Qed.

End InnerFacts.

Section Neighbourhoods.
Import Library ClusterSpec.

Lemma within_refl (eps : Q) (p : Q * Q) : within eps p p = true.
Proof.
  unfold within. apply Qle_bool_iff.
  destruct p as [a b]. cbn [fst snd].
  unfold Qpower, Qpower_positive, pow_pos. cbn [Pos.iter].
  Lqa.nra.
Qed.

Lemma within_sym (eps : Q) (p q : Q * Q) : within eps p q = within eps q p.
Proof.
  assert (Hle : forall a b, within eps a b = true -> within eps b a = true).
  { intros a b. unfold within. rewrite !Qle_bool_iff. intros H.
    assert (Heq : ((fst b - fst a) ^ 2 + (snd b - snd a) ^ 2
                   == (fst a - fst b) ^ 2 + (snd a - snd b) ^ 2)%Q).
    { unfold Qpower, Qpower_positive, pow_pos. cbn [Pos.iter]. ring. }
    now rewrite Heq. }
  destruct (within eps p q) eqn:Hpq.
  - symmetry. now apply Hle.
  - destruct (within eps q p) eqn:Hqp; [| reflexivity].
    apply Hle in Hqp. congruence.
Qed.

(** Filtering the indices of a list against filtering the list. *)
Lemma index_filter_length {A : Type} (f : A -> bool) (X : list A) :
  forall (k : nat) (g : nat -> bool),
    (forall j q, X !! j = Some q -> g (k + j)%nat = f q) ->
    length (List.filter g (seq k (length X))) = length (List.filter f X).
Proof.
  induction X as [| q X IH]; intros k g Hg; [reflexivity |].
  cbn [length seq List.filter].
  assert (Hk : g k = f q).
  { rewrite <- (Nat.add_0_r k). now apply Hg. }
  assert (Hrest : length (List.filter g (seq (S k) (length X)))
                  = length (List.filter f X)).
  { apply IH. intros j q' Hj. rewrite Nat.add_succ_comm. now apply Hg. }
  rewrite Hk. destruct (f q); cbn [length]; now rewrite Hrest.
Qed.

Variables (eps : Q) (min_samples : nat) (X : list (Q * Q)).

Let nbrs : nat -> list nat := neighborhood eps X.
Let is_core : nat -> bool := fun i => (min_samples <=? length (nbrs i))%nat.

Lemma in_neighborhood (i j : nat) :
  In j (nbrs i) <->
  exists p q, X !! i = Some p /\ X !! j = Some q /\ within eps p q = true.
Proof.
  unfold nbrs, neighborhood. destruct (X !! i) as [p |] eqn:Hi.
  - rewrite filter_In, in_seq. split.
    + intros [_ Hj]. destruct (X !! j) as [q |] eqn:Hq; [| discriminate].
      exists p, q. tauto.
    + intros (p' & q & Hp & Hq & Hw). injection Hp as <-.
      split; [apply lookup_lt_Some in Hq; lia | now rewrite Hq].
  - split; [intros [] |]. intros (p & q & Hp & _). discriminate.
Qed.

Lemma neighborhood_bound (i j : nat) : In j (nbrs i) -> (j < length X)%nat.
Proof.
  rewrite in_neighborhood. intros (p & q & _ & Hq & _). now apply lookup_lt_Some in Hq.
Qed.

Lemma neighborhood_refl (i : nat) : (i < length X)%nat -> In i (nbrs i).
Proof.
  intros Hi. apply in_neighborhood.
  destruct (lookup_lt_is_Some_2 X i Hi) as [p Hp].
  exists p, p. auto using within_refl.
Qed.

Lemma neighborhood_sym (i j : nat) : In j (nbrs i) -> In i (nbrs j).
Proof.
  rewrite !in_neighborhood. intros (p & q & Hp & Hq & Hw).
  exists q, p. rewrite within_sym. auto.
Qed.

Lemma neighborhood_length (i : nat) : (length (nbrs i) <= length X)%nat.
Proof.
  unfold nbrs, neighborhood. destruct (X !! i); [| simpl; lia].
  etransitivity; [apply List.filter_length_le |]. now rewrite length_seq.
Qed.

Lemma neighborhood_count (i : nat) (p : Q * Q) :
  X !! i = Some p ->
  length (nbrs i) = length (List.filter (within eps p) X).
Proof.
  intros Hp. unfold nbrs, neighborhood. rewrite Hp.
  apply index_filter_length. intros j q Hq. cbn [Nat.add]. now rewrite Hq.
Qed.

Lemma is_core_point (i : nat) (p : Q * Q) :
  X !! i = Some p ->
  is_core i = true <-> core_point eps min_samples X p.
Proof.
  intros Hp. unfold is_core, core_point.
  now rewrite (neighborhood_count _ _ Hp), Nat.leb_le.
Qed.

Lemma in_lookup (p : Q * Q) : In p X <-> exists i, X !! i = Some p.
Proof. rewrite <- list_elem_of_In. apply list_elem_of_lookup. Qed.

Lemma density_connected_in (p q : Q * Q) :
  density_connected eps min_samples X p q ->
  In p X /\ In q X /\ core_point eps min_samples X p /\ core_point eps min_samples X q.
Proof. induction 1; tauto. Qed.

Lemma conn_density_connected (i j : nat) :
  core_conn (length X) is_core nbrs i j ->
  forall p q, X !! i = Some p -> X !! j = Some q ->
              density_connected eps min_samples X p q.
Proof.
  induction 1 as [i Hi Hc | i j k Hij IH Hk Hin]; intros p q Hp Hq.
  - assert (q = p) by congruence. subst q.
    apply dc_refl; [apply in_lookup; eauto | now apply (is_core_point i)].
  - apply in_neighborhood in Hin as (r & q' & Hr & Hq' & Hw).
    assert (q' = q) by congruence. subst q'.
    apply dc_step with r; [now apply IH | apply in_lookup; eauto | | exact Hw].
    now apply (is_core_point k).
Qed.

Lemma density_connected_conn (p q : Q * Q) :
  density_connected eps min_samples X p q ->
  forall i j, X !! i = Some p -> X !! j = Some q ->
              core_conn (length X) is_core nbrs i j.
Proof.
  induction 1 as [p Hin Hc | p q r Hpq IH Hin Hc Hw]; intros i j Hi Hj.
  - apply cc_step with i.
    + apply cc_refl; [now apply lookup_lt_Some in Hi | now apply (is_core_point i p)].
    + now apply (is_core_point j p).
    + apply in_neighborhood. exists p, p. auto using within_refl.
  - destruct (density_connected_in _ _ Hpq) as (_ & Hq & _).
    apply in_lookup in Hq as [m Hm].
    apply cc_step with m; [now apply IH | now apply (is_core_point j r) |].
    apply in_neighborhood. exists q, r. auto.
Qed.

Abbreviation labels_ := (DBSCAN eps min_samples X).

Lemma DBSCAN_length : length labels_ = length X.
Proof.
  exact (dbscan_inner_length (length X) is_core nbrs
           neighborhood_bound neighborhood_refl neighborhood_sym neighborhood_length).
Qed.

(** A noise point is a point of the set that is not a core point and
    has no core point within [eps]. *)
Lemma noise_characterised (p : Q * Q) :
  is_noise X labels_ p <->
  In p X /\ ~ core_point eps min_samples X p
  /\ forall q, In q X -> core_point eps min_samples X q -> within eps q p = false.
Proof.
  pose proof (fun i Hi => dbscan_inner_noise (length X) is_core nbrs
    neighborhood_bound neighborhood_refl neighborhood_sym neighborhood_length i Hi)
    as Hnoise.
  fold (DBSCAN eps min_samples X) in Hnoise. split.
  - intros (i & Hp & Hl).
    apply Hnoise in Hl as [Hci Hfar]; [| now apply lookup_lt_Some in Hp].
    split; [apply in_lookup; eauto |]. split.
    + rewrite <- (is_core_point i p Hp). congruence.
    + intros q Hq Hcq. apply in_lookup in Hq as [c Hc].
      destruct (within eps q p) eqn:Hw; [| reflexivity].
      destruct (Hfar c); [now apply (is_core_point c q) |].
      apply in_neighborhood. exists q, p. auto.
  - intros (Hin & Hnc & Hfar). apply in_lookup in Hin as [i Hp].
    exists i. split; [exact Hp |].
    apply Hnoise; [now apply lookup_lt_Some in Hp |]. split.
    + destruct (is_core i) eqn:Hci; [| reflexivity].
      now apply (is_core_point i p Hp) in Hci.
    + intros c Hc Hin. apply in_neighborhood in Hin as (q & p' & Hq & Hp' & Hw).
      assert (p' = p) by congruence. subst p'.
      rewrite (Hfar q) in Hw; [discriminate | apply in_lookup; eauto |].
      now apply (is_core_point c q).
Qed.

(** Two core points are in one cluster exactly when they are
    density-connected. *)
Lemma core_cluster_characterised (p q : Q * Q) :
  core_point eps min_samples X p -> core_point eps min_samples X q ->
  same_cluster X labels_ p q <-> density_connected eps min_samples X p q.
Proof.
  intros Hcp Hcq.
  pose proof (fun i j => dbscan_inner_core (length X) is_core nbrs
    neighborhood_bound neighborhood_refl neighborhood_sym neighborhood_length i j)
    as Hcore.
  fold (DBSCAN eps min_samples X) in Hcore. split.
  - intros (i & j & l & Hi & Hj & Hli & Hlj & Hl).
    apply (conn_density_connected i j); [| exact Hi | exact Hj].
    apply Hcore; eauto using lookup_lt_Some.
    + now apply (is_core_point i p).
    + now apply (is_core_point j q).
  - intros Hdc. destruct (density_connected_in _ _ Hdc) as (Hp & Hq & _).
    apply in_lookup in Hp as [i Hi]. apply in_lookup in Hq as [j Hj].
    destruct (Hcore i j) as [_ Hback]; eauto using lookup_lt_Some.
    + now apply (is_core_point i p).
    + now apply (is_core_point j q).
    + destruct Hback as (l & Hli & Hlj & Hl);
        [now apply (density_connected_conn p q) |].
      exists i, j, l. auto.
Qed.

(** A point that is not noise shares its cluster with a core point
    within [eps] of it. *)
Lemma clustered_point_attached (p : Q * Q) :
  In p X -> ~ is_noise X labels_ p ->
  exists q, core_point eps min_samples X q /\ within eps q p = true
            /\ same_cluster X labels_ q p.
Proof.
  intros Hin Hnn. apply in_lookup in Hin as [i Hi].
  destruct (lookup_lt_is_Some_2 labels_ i) as [l Hl].
  { rewrite DBSCAN_length. now apply lookup_lt_Some in Hi. }
  assert (Hne : l <> -1).
  { intros ->. apply Hnn. exists i. auto. }
  destruct (dbscan_inner_attached (length X) is_core nbrs
              neighborhood_bound neighborhood_refl neighborhood_sym neighborhood_length
              i l Hl Hne) as (c & Hc & Hci & Hlc).
  apply in_neighborhood in Hci as (q & p' & Hq & Hp' & Hw).
  assert (p' = p) by congruence. subst p'.
  exists q. split; [now apply (is_core_point c q) |]. split; [exact Hw |].
  exists c, i, l. auto.
Qed.

(** A clustered point carries the lowest cluster number found among the
    core points within [eps] of it. *)
Lemma clustered_point_lowest (i j : nat) (p q : Q * Q) (li lj : Z) :
  X !! i = Some p -> X !! j = Some q ->
  labels_ !! i = Some li -> labels_ !! j = Some lj -> li <> -1 ->
  core_point eps min_samples X q -> within eps q p = true ->
  li <= lj.
Proof.
  intros Hi Hj Hli Hlj Hne Hcq Hw.
  destruct (dbscan_inner_order (length X) is_core nbrs
              neighborhood_bound neighborhood_refl neighborhood_sym neighborhood_length)
    as [Hlow _].
  fold (DBSCAN eps min_samples X) in Hlow.
  assert (Hcj : is_core j = true) by now apply (is_core_point j q).
  apply (Hlow j i lj li Hcj Hlj); [| | exact Hli | exact Hne].
  - intros ->.
    apply (dbscan_inner_noise (length X) is_core nbrs
             neighborhood_bound neighborhood_refl neighborhood_sym neighborhood_length)
      in Hlj as [Hbad _]; [congruence | now apply lookup_lt_Some in Hj].
  - apply in_neighborhood. exists q, p. auto.
Qed.

(** Cluster numbers follow the input: every cluster numbered below that
    of a core point has a core point earlier in the input. *)
Lemma cluster_numbers_follow_input (j : nat) (q : Q * Q) (lj l : Z) :
  X !! j = Some q -> core_point eps min_samples X q ->
  labels_ !! j = Some lj -> 0 <= l < lj ->
  exists i p, (i < j)%nat /\ X !! i = Some p
              /\ core_point eps min_samples X p /\ labels_ !! i = Some l.
Proof.
  intros Hj Hcq Hlj Hl.
  destruct (dbscan_inner_order (length X) is_core nbrs
              neighborhood_bound neighborhood_refl neighborhood_sym neighborhood_length)
    as [_ Hord].
  fold (DBSCAN eps min_samples X) in Hord.
  assert (Hcj : is_core j = true) by now apply (is_core_point j q).
  destruct (Hord j lj l Hcj Hlj Hl) as (i & Hi & Hci & Hli).
  destruct (lookup_lt_is_Some_2 X i) as [p Hp].
  { apply lookup_lt_Some in Hj. lia. }
  exists i, p. split; [exact Hi |]. split; [exact Hp |].
  split; [now apply (is_core_point i p) | exact Hli].
Qed.

End Neighbourhoods.

Section OrderIndependence.
Import Library ClusterSpec Examples.

Lemma filter_length_permutation {A : Type} (f : A -> bool) (X X' : list A) :
  Permutation X X' -> length (List.filter f X) = length (List.filter f X').
Proof.
  induction 1 as [| x X X' _ IH | x y X | X X' X'' _ IH1 _ IH2]; cbn [List.filter].
  - reflexivity.
  - destruct (f x); cbn [length]; now rewrite IH.
  - destruct (f x), (f y); reflexivity.
  - now rewrite IH1.
Qed.

Lemma core_point_permutation (eps : Q) (min_samples : nat) (X X' : list (Q * Q))
    (p : Q * Q) :
  Permutation X X' ->
  core_point eps min_samples X p -> core_point eps min_samples X' p.
Proof.
  unfold core_point. intros HP. now rewrite (filter_length_permutation _ _ _ HP).
Qed.

Lemma density_connected_permutation (eps : Q) (min_samples : nat)
    (X X' : list (Q * Q)) (p q : Q * Q) :
  Permutation X X' ->
  density_connected eps min_samples X p q -> density_connected eps min_samples X' p q.
Proof.
  intros HP. induction 1 as [p Hin Hc | p q r _ IH Hin Hc Hw].
  - apply dc_refl; [now apply (Permutation_in _ HP) |].
    now apply (core_point_permutation _ _ X).
  - apply dc_step with q; [exact IH | now apply (Permutation_in _ HP) | | exact Hw].
    now apply (core_point_permutation _ _ X).
Qed.

Lemma noise_permutation (eps : Q) (min_samples : nat) (X X' : list (Q * Q))
    (p : Q * Q) :
  Permutation X X' ->
  is_noise X (DBSCAN eps min_samples X) p ->
  is_noise X' (DBSCAN eps min_samples X') p.
Proof.
  intros HP. rewrite !noise_characterised. intros (Hin & Hnc & Hfar).
  assert (HP' : Permutation X' X) by now symmetry.
  split; [now apply (Permutation_in _ HP) |]. split.
  - intros Hc. apply Hnc. now apply (core_point_permutation _ _ X').
  - intros q Hq Hcq. apply Hfar; [now apply (Permutation_in _ HP') |].
    now apply (core_point_permutation _ _ X').
Qed.

Lemma core_cluster_permutation (eps : Q) (min_samples : nat) (X X' : list (Q * Q))
    (p q : Q * Q) :
  Permutation X X' ->
  core_point eps min_samples X p -> core_point eps min_samples X q ->
  same_cluster X (DBSCAN eps min_samples X) p q ->
  same_cluster X' (DBSCAN eps min_samples X') p q.
Proof.
  intros HP Hcp Hcq Hsame.
  apply core_cluster_characterised; try now apply (core_point_permutation _ _ X).
  apply (density_connected_permutation _ _ X); [exact HP |].
  now apply core_cluster_characterised.
Qed.

(** C8, as the cluster detector has it: under a permutation of the
    input, the noise points are the same, and two core points share a
    cluster in one order exactly when they do in the other.  A clustered
    point shares its cluster with a core point within [eps] of it, and its
    cluster number is the lowest among the core points within [eps] of it;
    cluster numbers follow the input order, a lower-numbered cluster
    having a core point earlier in the input than any core point of a
    higher-numbered one.  So a non-core point near core points of several
    clusters joins the one that is started first, which is not fixed by
    the point set. *)
Theorem membership_order_independent_up_to_border
    (eps : Q) (min_samples : nat) (X X' : list (Q * Q)) :
  Permutation X X' ->
  (forall p, is_noise X (DBSCAN eps min_samples X) p
             <-> is_noise X' (DBSCAN eps min_samples X') p)
  /\ (forall p q,
        core_point eps min_samples X p -> core_point eps min_samples X q ->
        (same_cluster X (DBSCAN eps min_samples X) p q
         <-> same_cluster X' (DBSCAN eps min_samples X') p q))
  /\ (forall p,
        In p X -> ~ is_noise X (DBSCAN eps min_samples X) p ->
        exists q, core_point eps min_samples X q /\ within eps q p = true
                  /\ same_cluster X (DBSCAN eps min_samples X) q p)
  /\ (forall i j p q li lj,
        X !! i = Some p -> X !! j = Some q ->
        DBSCAN eps min_samples X !! i = Some li ->
        DBSCAN eps min_samples X !! j = Some lj ->
        li <> -1 -> core_point eps min_samples X q -> within eps q p = true ->
        li <= lj)
  /\ (forall j q lj l,
        X !! j = Some q -> core_point eps min_samples X q ->
        DBSCAN eps min_samples X !! j = Some lj -> 0 <= l < lj ->
        exists i p, (i < j)%nat /\ X !! i = Some p
                    /\ core_point eps min_samples X p
                    /\ DBSCAN eps min_samples X !! i = Some l).
Proof.
  intros HP. assert (HP' : Permutation X' X) by now symmetry.
  split; [| split; [| split; [| split]]].
  - intros p. split; now apply noise_permutation.
  - intros p q Hcp Hcq. split.
    + now apply core_cluster_permutation.
    + apply core_cluster_permutation; try exact HP';
        now apply (core_point_permutation _ _ X).
  - intros p. apply clustered_point_attached.
  - intros i j p q li lj. apply clustered_point_lowest.
  - intros j q lj l. apply cluster_numbers_follow_input.
Qed.

Lemma membership_order_independent_up_to_border_witness :
  Permutation bridge (rev bridge)
  /\ (forall p, is_noise bridge (DBSCAN 1 5 bridge) p
                <-> is_noise (rev bridge) (DBSCAN 1 5 (rev bridge)) p).
Proof.
  assert (HP : Permutation bridge (rev bridge)) by apply Permutation_rev.
  split; [exact HP |].
  exact (proj1 (membership_order_independent_up_to_border 1 5 bridge (rev bridge) HP)).
Defined.

(** The point (3/4, 0) of the bridge is within [eps] of the core points
    (0, 0) and (3/2, 0), which lie in different clusters: in the given
    order it joins the cluster of (0, 0), in the reverse order that of
    (3/2, 0). *)
Lemma border_point_follows_input_order :
  Permutation bridge (rev bridge)
  /\ same_cluster bridge (DBSCAN 1 5 bridge) (3 # 4, 0)%Q (0, 0)%Q
  /\ same_cluster (rev bridge) (DBSCAN 1 5 (rev bridge)) (3 # 4, 0)%Q (3 # 2, 0)%Q
  /\ ~ same_cluster (rev bridge) (DBSCAN 1 5 (rev bridge)) (3 # 4, 0)%Q (0, 0)%Q.
Proof.
  split; [apply Permutation_rev |]. split; [| split].
  - exists 4%nat, 3%nat, 0. repeat split; try reflexivity. discriminate.
  - exists 4%nat, 3%nat, 0. repeat split; try reflexivity. discriminate.
  - intros (i & j & l & Hi & Hj & Hli & Hlj & Hl).
    assert (Hlabels : DBSCAN 1 5 (rev bridge) = [0; 0; 0; 0; 0; 1; 1; 1; 1])
      by (vm_compute; reflexivity).
    rewrite Hlabels in Hli, Hlj. clear Hlabels.
    assert (Hrev : rev bridge
                   = [ (19 # 8, 0); (9 # 4, 0); (2, 0); (3 # 2, 0); (3 # 4, 0);
                       (0, 0); (-1 # 2, 0); (-3 # 4, 0); (-7 # 8, 0) ]%Q) by reflexivity.
    rewrite Hrev in Hi, Hj. clear Hrev.
    assert (Hi4 : i = 4%nat).
    { do 9 (destruct i as [| i]; [try reflexivity; discriminate Hi |]). discriminate Hi. }
    assert (Hj5 : j = 5%nat).
    { do 9 (destruct j as [| j]; [try reflexivity; discriminate Hj |]). discriminate Hj. }
    subst i j. cbn in Hli, Hlj. congruence.
Qed.

End OrderIndependence.

(** * Further properties *)

(** ** Distances *)

Section MoreDistanceFacts.
Import Geometry.
Local Open Scope R_scope.

(** X1. The distance is symmetric in its endpoints and 0 between a point
    and itself, on every input. *)
Theorem haversine_symmetric_and_zero (lat1 lon1 lat2 lon2 : Q) :
  _haversine_distance lat1 lon1 lat2 lon2 = _haversine_distance lat2 lon2 lat1 lon1
  /\ _haversine_distance lat1 lon1 lat1 lon1 = 0.
Proof. split; [apply haversine_sym | apply haversine_same_point]. Qed.

Lemma abs_sin_small (x : R) : Rabs x <= PI -> Rabs (sin x) = sin (Rabs x).
Proof.
  intros Hx. destruct (Rcase_abs x) as [Hneg | Hpos].
  - rewrite (Rabs_left x Hneg) in *.
    assert (Hs : 0 <= sin (- x)) by (apply sin_ge_0; lra).
    rewrite sin_neg in *. rewrite Rabs_left1; lra.
  - rewrite (Rabs_right x Hpos) in *.
    assert (Hs : 0 <= sin x) by (apply sin_ge_0; lra).
    rewrite Rabs_right; lra.
Qed.

(** X2. Along a meridian (equal longitudes, latitudes at most 180
    degrees apart) the distance is the arc length: 6371 * pi / 180 km per
    degree of latitude. *)
Theorem haversine_along_meridian (lat1 lat2 lon : Q) :
  Rabs (Q2R lat2 - Q2R lat1) <= 180 ->
  _haversine_distance lat1 lon lat2 lon
  = 6371 * (PI / 180) * Rabs (Q2R lat2 - Q2R lat1).
Proof.
  intros Hsmall. unfold _haversine_distance, hav_a. cbv zeta.
  pose proof PI_RGT_0 as Hpi.
  set (x := (radians lat2 - radians lat1) / 2).
  assert (Hx : x = (Q2R lat2 - Q2R lat1) * (PI / 360)).
  { unfold x, radians. field. }
  assert (Habs : Rabs x = Rabs (Q2R lat2 - Q2R lat1) * (PI / 360)).
  { rewrite Hx, Rabs_mult. f_equal. apply Rabs_right. lra. }
  assert (Hhalf : Rabs x <= PI / 2).
  { rewrite Habs. nra. }
  replace ((radians lon - radians lon) / 2) with 0 by lra.
  rewrite sin_0.
  replace (sin x ^ 2 + cos (radians lat1) * cos (radians lat2) * 0 ^ 2)
    with (Rsqr (sin x)) by (unfold Rsqr; ring).
  rewrite sqrt_Rsqr_abs, abs_sin_small by lra.
  rewrite asin_sin.
  - rewrite Habs. field.
  - pose proof (Rabs_pos x). lra.
Qed.

Lemma haversine_along_meridian_witness :
  Rabs (Q2R 1 - Q2R 0) <= 180
  /\ _haversine_distance 0 0 1 0 = 6371 * (PI / 180) * Rabs (Q2R 1 - Q2R 0).
Proof.
  assert (H : Rabs (Q2R 1 - Q2R 0) <= 180).
  { unfold Q2R. simpl. rewrite Rabs_right; lra. }
  split; [exact H |].
  exact (haversine_along_meridian 0 1 0 H).
Defined.

End MoreDistanceFacts.

(** ** The constructor *)

Section ConstructionFacts.
Import Construction.

Lemma existsb_eqb_in (c : string) (cols : list string) :
  existsb (String.eqb c) cols = true <-> In c cols.
Proof.
  rewrite existsb_exists. split.
  - intros [x [Hx Heq]]. apply String.eqb_eq in Heq. now subst.
  - intros Hin. exists c. split; [exact Hin | apply String.eqb_refl].
Qed.

(** X3. The column check passes exactly when the frame has all four
    required columns; otherwise it fails, and with a [ValueError]. *)
Theorem validate_data_required_columns (columns : list string) :
  (_validate_data columns = Ok tt
   <-> forall c, In c required_columns -> In c columns)
  /\ ((exists c, In c required_columns /\ ~ In c columns)
      -> exists msg, _validate_data columns = Raise (ValueError msg)).
Proof.
  assert (Hcases : forall c, {In c columns} + {~ In c columns}).
  { intros c. destruct (existsb (String.eqb c) columns) eqn:He.
    - left. now apply existsb_eqb_in.
    - right. intros Hin. apply existsb_eqb_in in Hin. congruence. }
  assert (Hpass : (forall c, In c required_columns -> In c columns) ->
                  _validate_data columns = Ok tt).
  { intros Hall. unfold _validate_data, required_columns in *. cbn [List.filter].
    repeat match goal with
           | |- context [existsb (String.eqb ?c) columns] =>
               replace (existsb (String.eqb c) columns) with true
                 by (symmetry; apply existsb_eqb_in, Hall; simpl; tauto)
           end.
    reflexivity. }
  assert (Hfail : forall c, In c required_columns -> ~ In c columns ->
                  exists msg, _validate_data columns = Raise (ValueError msg)).
  { intros c Hc Hnot. unfold _validate_data.
    destruct (List.filter _ required_columns) as [| m ms] eqn:Hf; [| eauto].
    exfalso. assert (Hin : In c []); [| exact Hin].
    rewrite <- Hf. apply filter_In. split; [exact Hc |].
    apply negb_true_iff. destruct (existsb (String.eqb c) columns) eqn:He; [| reflexivity].
    apply existsb_eqb_in in He. contradiction. }
  split; [split |].
  - intros Hok c Hc. destruct (Hcases c) as [Hin | Hnot]; [exact Hin |].
    destruct (Hfail c Hc Hnot) as [msg Hmsg]. congruence.
  - exact Hpass.
  - intros (c & Hc & Hnot). eauto.
Qed.

End ConstructionFacts.

(** ** Groups *)

Section GroupPartition.
Import Frame.

Context {K : Type} (ltb eqb : K -> K -> bool).
Hypothesis eqb_eq : forall a b, eqb a b = true <-> a = b.
Hypothesis ltb_total : forall a b, ltb a b = false -> eqb a b = false -> ltb b a = true.
Hypothesis ltb_trans : forall a b c, ltb a b = true -> ltb b c = true -> ltb a c = true.
Hypothesis ltb_irrefl : forall a, ltb a a = false.

Lemma group_keys_strongly_sorted (ks : list K) :
  StronglySorted (fun a b => ltb a b = true) (group_keys ltb eqb ks).
Proof using ltb_total ltb_trans.
  apply Sorted_StronglySorted.
  - intros a b c. apply ltb_trans.
  - now apply group_keys_sorted.
Qed.

Lemma group_keys_nodup (ks : list K) : List.NoDup (group_keys ltb eqb ks).
Proof using ltb_total ltb_trans ltb_irrefl.
  pose proof (group_keys_strongly_sorted ks) as Hs.
  induction Hs as [| k rest Hrest IH Hall]; constructor; [| exact IH].
  intros Hin. rewrite List.Forall_forall in Hall.
  specialize (Hall k Hin). rewrite ltb_irrefl in Hall. discriminate.
Qed.

Lemma key_indicator_sum (ks : list K) (x : K) :
  List.NoDup ks ->
  list_sum (map (fun k => if eqb x k then 1%nat else 0%nat) ks)
  = if existsb (eqb x) ks then 1%nat else 0%nat.
Proof using eqb_eq.
  induction 1 as [| k ks Hnotin Hnd IH]; simpl; [reflexivity |].
  rewrite IH. destruct (eqb x k) eqn:Hxk; simpl; [| reflexivity].
  apply eqb_eq in Hxk. subst k.
  destruct (existsb (eqb x) ks) eqn:Hex; [| reflexivity].
  apply existsb_exists in Hex as [y [Hy Heq]].
  apply eqb_eq in Heq. subst y. contradiction.
Qed.

Lemma group_sizes_sum {A : Type} (key : A -> K) (ks : list K) (xs : list A) :
  List.NoDup ks ->
  list_sum (map (fun k => length (List.filter (fun r => eqb (key r) k) xs)) ks)
  = length (List.filter (fun r => existsb (eqb (key r)) ks) xs).
Proof using eqb_eq.
  intros Hnd. induction xs as [| x xs IH]; cbn [List.filter].
  - cbn [length]. induction ks as [| k ks IHk]; simpl; [reflexivity |].
    apply IHk. now inversion Hnd.
  - transitivity
      (list_sum (map (fun k => if eqb (key x) k then 1%nat else 0%nat) ks)
       + list_sum (map (fun k => length (List.filter (fun r => eqb (key r) k) xs)) ks))%nat.
    + clear. induction ks as [| k ks IHk]; simpl; [reflexivity |].
      rewrite IHk. destruct (eqb (key x) k); simpl; lia.
    + rewrite IH, (key_indicator_sum _ _ Hnd).
      destruct (existsb (eqb (key x)) ks); simpl; lia.
Qed.

(** The groups of [groupby] partition the rows. *)
Lemma groupby_sizes (key : Row -> K) (df : DataFrame) :
  list_sum (map (fun kg => length (snd kg)) (groupby ltb eqb key df)) = length df.
Proof using eqb_eq ltb_total ltb_trans ltb_irrefl.
  unfold groupby. rewrite map_map. cbn [snd].
  rewrite (group_sizes_sum key _ df (group_keys_nodup _)).
  f_equal. rewrite <- (List.filter_true df) at 2. apply filter_ext_in.
  intros r Hr. apply existsb_exists. exists (key r). split.
  - apply (in_group_keys ltb eqb eqb_eq). now apply in_map.
  - now apply eqb_eq.
Qed.

Lemma groupby_in (key : Row -> K) (df : DataFrame) (k : K) (g : DataFrame) :
  In (k, g) (groupby ltb eqb key df) ->
  In k (map key df)
  /\ g = List.filter (fun r => eqb (key r) k) df
  /\ g <> [].
Proof using eqb_eq.
  unfold groupby. rewrite in_map_iff. intros (k' & Heq & Hin).
  injection Heq as -> <-.
  apply (proj1 (in_group_keys ltb eqb eqb_eq _ _)) in Hin.
  split; [exact Hin |]. split; [reflexivity |].
  apply in_map_iff in Hin as (r & Hk & Hr). intros Hnil.
  assert (Hrin : In r (List.filter (fun r0 => eqb (key r0) k) df)).
  { apply filter_In. split; [exact Hr | now apply eqb_eq]. }
  rewrite Hnil in Hrin. exact Hrin.
Qed.

Lemma groupby_row (key : Row -> K) (df : DataFrame) (r : Row) :
  In r df ->
  In (key r, List.filter (fun r0 => eqb (key r0) (key r)) df) (groupby ltb eqb key df).
Proof using eqb_eq.
  intros Hr. unfold groupby. apply in_map_iff. exists (key r). split; [reflexivity |].
  apply (in_group_keys ltb eqb eqb_eq). now apply in_map.
Qed.

Lemma group_keys_constant (k : K) (ks : list K) :
  ks <> [] -> (forall x, In x ks -> x = k) -> group_keys ltb eqb ks = [k].
Proof using eqb_eq ltb_irrefl.
  induction ks as [| x ks IH]; [congruence |]. intros _ Hall.
  assert (x = k) by (apply Hall; now left). subst x.
  cbn [group_keys fold_right]. fold (group_keys ltb eqb ks).
  destruct ks as [| y ks]; [reflexivity |].
  rewrite IH; [| discriminate | intros z Hz; apply Hall; now right].
  cbn [insert_key]. rewrite ltb_irrefl.
  replace (eqb k k) with true by (symmetry; now apply eqb_eq). reflexivity.
Qed.

End GroupPartition.

Section KeyOrders.

Lemma Z_ltb_total (a b : Z) : (a <? b) = false -> (a =? b) = false -> (b <? a) = true.
Proof. rewrite Z.ltb_ge, Z.eqb_neq, Z.ltb_lt. lia. Qed.

Lemma Z_ltb_trans (a b c : Z) : (a <? b) = true -> (b <? c) = true -> (a <? c) = true.
Proof. rewrite !Z.ltb_lt. lia. Qed.

Lemma string_ltb_irrefl (s : string) : String.ltb s s = false.
Proof.
  unfold String.ltb. pose proof (String.compare_antisym s s) as H.
  destruct (String.compare s s); try reflexivity; discriminate.
Qed.

End KeyOrders.

(** ** Centroids *)

Section MoreCentroidFacts.
Import Frame Geometry Analyzer Spec Examples.

Lemma groupby_col_sizes (col : column) (df : DataFrame) :
  list_sum (map (fun kg => length (snd kg)) (groupby_col col df)) = length df.
Proof.
  destruct col; unfold groupby_col, tag_groups; rewrite map_map; cbn [snd].
  - apply (groupby_sizes Z.ltb Z.eqb Z.eqb_eq Z_ltb_total Z_ltb_trans Z.ltb_irrefl).
  - apply (groupby_sizes Z.ltb Z.eqb Z.eqb_eq Z_ltb_total Z_ltb_trans Z.ltb_irrefl).
  - apply (groupby_sizes String.ltb String.eqb String.eqb_eq string_ltb_total
             string_ltb_trans string_ltb_irrefl).
Qed.

(** A group is a non-empty selection of the rows. *)
Lemma groupby_col_group (col : column) (df : DataFrame) (k : key) (g : DataFrame) :
  In (k, g) (groupby_col col df) ->
  g <> [] /\ forall r, In r g -> In r df.
Proof.
  assert (Hsel : forall (f : Row -> bool) r, In r (List.filter f df) -> In r df).
  { intros f r Hr. now apply filter_In in Hr. }
  destruct col; unfold groupby_col, tag_groups; rewrite in_map_iff;
    intros ([k' g'] & Heq & Hin); cbn [fst snd] in Heq; injection Heq as _ <-.
  - destruct (groupby_in Z.ltb Z.eqb Z.eqb_eq _ _ _ _ Hin) as (_ & -> & Hne). eauto.
  - destruct (groupby_in Z.ltb Z.eqb Z.eqb_eq _ _ _ _ Hin) as (_ & -> & Hne). eauto.
  - destruct (groupby_in String.ltb String.eqb String.eqb_eq _ _ _ _ Hin)
      as (_ & -> & Hne). eauto.
Qed.

(** X4. Whatever the time window, every centroid stands for at least one
    record, and the sighting counts of the centroids add up to the number
    of records: each record is counted in exactly one period. *)
Theorem centroid_counts_partition (df : DataFrame) (time_window : string) :
  list_sum (map sighting_count (_calculate_centroids df time_window)) = length df
  /\ Forall (fun c => (1 <= sighting_count c)%nat)
            (_calculate_centroids df time_window).
Proof.
  unfold _calculate_centroids. cbv zeta.
  generalize (if String.eqb time_window "month" then ColMonth else ColSeason).
  intros col. split.
  - rewrite map_map. cbn [sighting_count]. apply groupby_col_sizes.
  - apply List.Forall_forall. intros c Hc.
    apply in_map_iff in Hc as ([k g] & <- & Hin). cbn [sighting_count snd].
    destruct (groupby_col_group _ _ _ _ Hin) as [Hne _].
    destruct g; [congruence | simpl; lia].
Qed.

Lemma month_centroid_periods (df : DataFrame) :
  map period (_calculate_centroids df "month")
  = map KInt (group_keys Z.ltb Z.eqb (map month df)).
Proof.
  unfold _calculate_centroids. cbn [String.eqb Ascii.eqb Bool.eqb].
  unfold groupby_col, tag_groups, groupby.
  rewrite !map_map. reflexivity.
Qed.

(** X5. With the month window the centroids come in ascending order of
    the month number, one for each month that has a record. *)
Theorem month_centroids_ascending (df : DataFrame) :
  let ks := map period (_calculate_centroids df "month") in
  StronglySorted key_lt ks
  /\ (forall m, In (KInt m) ks <-> In m (map month df)).
Proof.
  cbv zeta. rewrite month_centroid_periods. split.
  - pose proof (group_keys_strongly_sorted Z.ltb Z.eqb Z_ltb_total Z_ltb_trans
                  (map month df)) as Hs.
    induction Hs as [| k rest Hrest IH Hall]; simpl; constructor; [exact IH |].
    rewrite List.Forall_forall in *. intros k' Hin.
    apply in_map_iff in Hin as [m [<- Hm]]. simpl. apply Z.ltb_lt. now apply Hall.
  - intros m. rewrite in_map_iff. split.
    + intros [m' [Heq Hin]]. injection Heq as Heq. subst m'.
      apply (in_group_keys Z.ltb Z.eqb Z.eqb_eq). exact Hin.
    + intros Hin. exists m. split; [reflexivity |].
      apply (in_group_keys Z.ltb Z.eqb Z.eqb_eq). exact Hin.
Qed.

End MoreCentroidFacts.

Section PeriodCounts.
Import Frame Geometry Analyzer Spec Examples.

Lemma centroids_length (df : DataFrame) (time_window : string) :
  length (_calculate_centroids df time_window)
  = if String.eqb time_window "month"
    then length (group_keys Z.ltb Z.eqb (map month df))
    else length (group_keys String.ltb String.eqb (map season df)).
Proof.
  unfold _calculate_centroids. cbv zeta.
  destruct (String.eqb time_window "month");
    unfold groupby_col, tag_groups, groupby; now rewrite !length_map.
Qed.

(** X7. Records with months 1 to 12 give at most 12 month centroids, and
    records with the four season names give at most 4 centroids under any
    other time window. *)
Theorem centroid_count_bounds (df : DataFrame) (time_window : string) :
  (time_window = "month"%string ->
   (forall r, In r df -> 1 <= month r <= 12) ->
   (length (_calculate_centroids df time_window) <= 12)%nat)
  /\ (time_window <> "month"%string ->
      (forall r, In r df -> In (season r) season_cycle) ->
      (length (_calculate_centroids df time_window) <= 4)%nat).
Proof.
  rewrite centroids_length. split.
  - intros -> Hrange. cbn [String.eqb Ascii.eqb Bool.eqb].
    change 12%nat with (length [1; 2; 3; 4; 5; 6; 7; 8; 9; 10; 11; 12]).
    apply NoDup_incl_length.
    + apply (group_keys_nodup Z.ltb Z.eqb Z_ltb_total Z_ltb_trans Z.ltb_irrefl).
    + intros m Hm. apply (proj1 (in_group_keys Z.ltb Z.eqb Z.eqb_eq _ _)) in Hm.
      apply in_map_iff in Hm as (r & <- & Hr). specialize (Hrange r Hr).
      assert (Hcases : month r = 1 \/ month r = 2 \/ month r = 3 \/ month r = 4
                       \/ month r = 5 \/ month r = 6 \/ month r = 7 \/ month r = 8
                       \/ month r = 9 \/ month r = 10 \/ month r = 11 \/ month r = 12)
        by lia.
      simpl. intuition congruence.
  - intros Hne Hnames.
    destruct (String.eqb_spec time_window "month") as [Heq | _]; [contradiction |].
    change 4%nat with (length season_cycle).
    apply NoDup_incl_length.
    + apply (group_keys_nodup String.ltb String.eqb string_ltb_total
               string_ltb_trans string_ltb_irrefl).
    + intros s Hs. apply (proj1 (in_group_keys String.ltb String.eqb String.eqb_eq _ _)) in Hs.
      apply in_map_iff in Hs as (r & <- & Hr). now apply Hnames.
Qed.

Lemma centroid_count_bounds_witness :
  "month"%string = "month"%string
  /\ (forall r, In r winter_then_autumn -> 1 <= month r <= 12)
  /\ (length (_calculate_centroids winter_then_autumn "month") <= 12)%nat.
Proof.
  assert (H : forall r, In r winter_then_autumn -> 1 <= month r <= 12).
  { intros r [<- | [<- | []]]; simpl; lia. }
  split; [reflexivity |]. split; [exact H |].
  exact (proj1 (centroid_count_bounds winter_then_autumn "month") eq_refl H).
Defined.

Local Open Scope R_scope.

Variable DBSCAN : Q -> nat -> list (Q * Q) -> list Z.

(** X9. A species whose records all fall in one month and one season has
    a single centroid and total distance 0, under every time window. *)
Theorem single_period_no_distance
    (df : DataFrame) (species time_window : string) (m : Z) (s : string) :
  filter_species species df <> [] ->
  (forall r, In r (filter_species species df) -> month r = m /\ season r = s) ->
  exists mm,
    analyze_migration_patterns DBSCAN df species time_window = Ok (Migration mm)
    /\ length (centroids mm) = 1%nat
    /\ total_distance mm = 0.
Proof.
  intros Hne Hsame. unfold analyze_migration_patterns.
  destruct (filter_species species df) as [| r0 rest] eqn:Hf; [congruence |].
  eexists. split; [reflexivity |]. cbn [centroids total_distance].
  assert (Hlen : length (_calculate_centroids (r0 :: rest) time_window) = 1%nat).
  { rewrite centroids_length. destruct (String.eqb time_window "month").
    - rewrite (group_keys_constant Z.ltb Z.eqb Z.eqb_eq Z.ltb_irrefl m); [reflexivity | discriminate |].
      intros x Hx. apply in_map_iff in Hx as (r & <- & Hr). now apply Hsame.
    - rewrite (group_keys_constant String.ltb String.eqb String.eqb_eq
                 string_ltb_irrefl s); [reflexivity | discriminate |].
      intros x Hx. apply in_map_iff in Hx as (r & <- & Hr). now apply Hsame. }
  split; [exact Hlen |].
  unfold _calculate_total_distance. now rewrite Hlen.
Qed.

End PeriodCounts.

Section PeriodExamples.
Import Frame Analyzer Examples MoreExamples.

Lemma single_period_no_distance_witness :
  filter_species "Megaptera novaeangliae" january_only <> []
  /\ (forall r, In r (filter_species "Megaptera novaeangliae" january_only) ->
        month r = 1 /\ season r = "Winter"%string)
  /\ exists mm,
       analyze_migration_patterns Library.DBSCAN january_only
         "Megaptera novaeangliae" "month" = Ok (Migration mm)
       /\ length (centroids mm) = 1%nat
       /\ total_distance mm = 0%R.
Proof.
  assert (H1 : filter_species "Megaptera novaeangliae" january_only <> [])
    by discriminate.
  assert (H2 : forall r, In r (filter_species "Megaptera novaeangliae" january_only) ->
                 month r = 1 /\ season r = "Winter"%string).
  { intros r Hr. vm_compute in Hr.
    repeat (destruct Hr as [<- | Hr]; [split; reflexivity |]). destruct Hr. }
  split; [exact H1 |]. split; [exact H2 |].
  exact (single_period_no_distance Library.DBSCAN january_only
           "Megaptera novaeangliae" "month" 1 "Winter"%string H1 H2).
Defined.

End PeriodExamples.

(** ** Seasonal ranges *)

Section RangeFacts.
Import Frame Analyzer Examples.

Lemma Qmin'_le (a b : Q) : (Qmin' a b <= a)%Q /\ (Qmin' a b <= b)%Q.
Proof.
  unfold Qmin'. destruct (Qle_bool a b) eqn:Hab.
  - apply Qle_bool_iff in Hab. split; [apply Qle_refl | exact Hab].
  - split; [| apply Qle_refl]. apply Qlt_le_weak, Qnot_le_lt.
    intros Hle. apply Qle_bool_iff in Hle. congruence.
Qed.

Lemma Qmax'_ge (a b : Q) : (a <= Qmax' a b)%Q /\ (b <= Qmax' a b)%Q.
Proof.
  unfold Qmax'. destruct (Qle_bool a b) eqn:Hab.
  - apply Qle_bool_iff in Hab. split; [exact Hab | apply Qle_refl].
  - split; [apply Qle_refl |]. apply Qlt_le_weak, Qnot_le_lt.
    intros Hle. apply Qle_bool_iff in Hle. congruence.
Qed.

Lemma fold_Qmin_spec (xs : list Q) (x : Q) :
  In (fold_left Qmin' xs x) (x :: xs)
  /\ Forall (fun d => (fold_left Qmin' xs x <= d)%Q) (x :: xs).
Proof.
  revert x. induction xs as [| y xs IH]; intros x; cbn [fold_left].
  - split; [now left | repeat constructor; apply Qle_refl].
  - destruct (IH (Qmin' x y)) as [Hin Hall].
    destruct (Qmin'_le x y) as [Hx Hy]. split.
    + destruct Hin as [Heq | Hin]; [| now right; right].
      rewrite <- Heq. unfold Qmin'. destruct (Qle_bool x y); [now left | right; now left].
    + inversion Hall as [| ? ? Hhd Htl]; subst.
      constructor; [eapply Qle_trans; eauto |].
      constructor; [eapply Qle_trans; eauto | exact Htl].
Qed.

Lemma fold_Qmax_spec (xs : list Q) (x : Q) :
  In (fold_left Qmax' xs x) (x :: xs)
  /\ Forall (fun d => (d <= fold_left Qmax' xs x)%Q) (x :: xs).
Proof.
  revert x. induction xs as [| y xs IH]; intros x; cbn [fold_left].
  - split; [now left | repeat constructor; apply Qle_refl].
  - destruct (IH (Qmax' x y)) as [Hin Hall].
    destruct (Qmax'_ge x y) as [Hx Hy]. split.
    + destruct Hin as [Heq | Hin]; [| now right; right].
      rewrite <- Heq. unfold Qmax'. destruct (Qle_bool x y); [right; now left | now left].
    + inversion Hall as [| ? ? Hhd Htl]; subst.
      constructor; [eapply Qle_trans; eauto |].
      constructor; [eapply Qle_trans; eauto | exact Htl].
Qed.

(** The range of a non-empty series: attained, and containing it. *)
Lemma series_range_spec (xs : list Q) :
  xs <> [] ->
  exists lo hi,
    series_reduce Qmin' xs = Some lo /\ series_reduce Qmax' xs = Some hi
    /\ In lo xs /\ In hi xs /\ forall x, In x xs -> (lo <= x <= hi)%Q.
Proof.
  destruct xs as [| d ds]; [congruence |]. intros _.
  destruct (fold_Qmin_spec ds d) as [Hmin_in Hmin].
  destruct (fold_Qmax_spec ds d) as [Hmax_in Hmax].
  exists (fold_left Qmin' ds d), (fold_left Qmax' ds d).
  repeat split; try assumption; rewrite List.Forall_forall in *; auto.
Qed.

(** X10. The seasonal ranges are bounding boxes: every record lies inside
    the latitude and longitude range listed for its season, and each of the
    four bounds is the coordinate of a record of that season. *)
Theorem seasonal_ranges_bounding_box (df : DataFrame) (r : Row) :
  In r df ->
  exists rng lat_lo lat_hi lon_lo lon_hi,
    In (KStr (season r), rng) (_calculate_seasonal_ranges df)
    /\ latitude_range rng = (Some lat_lo, Some lat_hi)
    /\ longitude_range rng = (Some lon_lo, Some lon_hi)
    /\ (lat_lo <= latitude r <= lat_hi)%Q
    /\ (lon_lo <= longitude r <= lon_hi)%Q
    /\ (forall b, In b [lat_lo; lat_hi] ->
          exists r', In r' df /\ season r' = season r /\ latitude r' = b)
    /\ (forall b, In b [lon_lo; lon_hi] ->
          exists r', In r' df /\ season r' = season r /\ longitude r' = b).
Proof.
  intros Hr.
  set (g := List.filter (fun r0 => String.eqb (season r0) (season r)) df).
  assert (Hrg : In r g).
  { apply filter_In. split; [exact Hr | apply String.eqb_refl]. }
  assert (Hg : forall r', In r' g -> In r' df /\ season r' = season r).
  { intros r' Hr'. apply filter_In in Hr' as [Hin Heq].
    apply String.eqb_eq in Heq. tauto. }
  assert (Hlat : map latitude g <> []).
  { intros Hnil. apply map_eq_nil in Hnil. rewrite Hnil in Hrg. exact Hrg. }
  assert (Hlon : map longitude g <> []).
  { intros Hnil. apply map_eq_nil in Hnil. rewrite Hnil in Hrg. exact Hrg. }
  destruct (series_range_spec _ Hlat) as (la & ha & Hla & Hha & Hla_in & Hha_in & Hlat_all).
  destruct (series_range_spec _ Hlon) as (lo & ho & Hlo & Hho & Hlo_in & Hho_in & Hlon_all).
  eexists _, la, ha, lo, ho. split.
  - unfold _calculate_seasonal_ranges, groupby_col, tag_groups.
    rewrite map_map. apply in_map_iff.
    exists (season r, g). split; [reflexivity |].
    apply (groupby_row String.ltb String.eqb String.eqb_eq season df r Hr).
  - cbn [latitude_range longitude_range snd fst].
    rewrite Hla, Hha, Hlo, Hho.
    split; [reflexivity |]. split; [reflexivity |].
    split; [apply Hlat_all; now apply in_map |].
    split; [apply Hlon_all; now apply in_map |].
    split; intros b [<- | [<- | []]].
    + apply in_map_iff in Hla_in as (r' & Heq & Hr'). exists r'.
      destruct (Hg r' Hr'). auto.
    + apply in_map_iff in Hha_in as (r' & Heq & Hr'). exists r'.
      destruct (Hg r' Hr'). auto.
    + apply in_map_iff in Hlo_in as (r' & Heq & Hr'). exists r'.
      destruct (Hg r' Hr'). auto.
    + apply in_map_iff in Hho_in as (r' & Heq & Hr'). exists r'.
      destruct (Hg r' Hr'). auto.
Qed.

Lemma seasonal_ranges_bounding_box_witness :
  In (sighting 40 20 280 10 "Autumn") winter_then_autumn
  /\ exists rng lat_lo lat_hi lon_lo lon_hi,
       In (KStr "Autumn", rng) (_calculate_seasonal_ranges winter_then_autumn)
       /\ latitude_range rng = (Some lat_lo, Some lat_hi)
       /\ longitude_range rng = (Some lon_lo, Some lon_hi)
       /\ (lat_lo <= 40 <= lat_hi)%Q
       /\ (lon_lo <= 20 <= lon_hi)%Q.
Proof.
  assert (H : In (sighting 40 20 280 10 "Autumn") winter_then_autumn)
    by (right; now left).
  split; [exact H |].
  destruct (seasonal_ranges_bounding_box winter_then_autumn _ H)
    as (rng & a & b & c & d & H1 & H2 & H3 & H4 & H5 & _).
  exists rng, a, b, c, d. auto.
Defined.

End RangeFacts.

(** ** Habitat metrics *)

Section HabitatFacts.
Import Frame Analyzer Spec HabitatSpec.

Context {KDE : Type}.
Variable gaussian_kde : list (Q * Q) -> result KDE.
Variable DBSCAN : Q -> nat -> list (Q * Q) -> list Z.

(** X11. A [time_period] other than ['year'] and ['season'] (and not the
    empty string) is rejected with a [ValueError], whatever the frame and
    the species, also when no record would be selected. *)
Theorem invalid_time_period_raises
    (df : DataFrame) (species : option string) (time_period : string) :
  time_period <> ""%string -> time_period <> "year"%string ->
  time_period <> "season"%string ->
  analyze_habitat_preferences gaussian_kde DBSCAN df species (Some time_period)
  = Raise (ValueError "time_period must be 'year' or 'season'").
Proof.
  intros He Hy Hs. unfold analyze_habitat_preferences, truthy.
  destruct (String.eqb_spec time_period "") as [H | _]; [contradiction |].
  destruct (String.eqb_spec time_period "year") as [H | _]; [contradiction |].
  destruct (String.eqb_spec time_period "season") as [H | _]; [contradiction |].
  reflexivity.
Qed.

Lemma mask_select_sub {A : Type} (df : list A) (mask : list bool) :
  (length (mask_select df mask) <= length df)%nat
  /\ forall r, In r (mask_select df mask) -> In r df.
Proof.
  unfold mask_select. revert mask.
  induction df as [| x df IH]; intros [| b mask]; cbn [combine List.filter map length];
    try (split; [lia | intros r []]).
  destruct (IH mask) as [Hlen Hin].
  destruct b; cbn [snd map fst length]; split; try lia.
  - intros r [<- | Hr]; [now left | right; auto].
  - intros r Hr. right. auto.
Qed.

Lemma drop_duplicates_length (ps : list (Q * Q)) :
  (length (drop_duplicates ps) <= length ps)%nat
  /\ (ps <> [] -> 1 <= length (drop_duplicates ps))%nat.
Proof.
  induction ps as [| p ps [IH _]]; cbn [drop_duplicates length]; [split; [lia | congruence] |].
  pose proof (List.filter_length_le (fun q => negb (pair_eqb p q)) (drop_duplicates ps)).
  split; [lia | intros _; lia].
Qed.

(** X12. When the metrics of a group are computed, the group is not
    empty, [total_sightings] is its size, [unique_locations] lies
    between 1 and that size, and the hotspots are [hotspot_count] rows of
    the group, at most all of them. *)
Theorem habitat_metrics_invariants (df : DataFrame) (m : HabitatMetrics) :
  _calculate_habitat_metrics gaussian_kde DBSCAN df = Ok (Metrics m) ->
  df <> []
  /\ total_sightings m = length df
  /\ (1 <= unique_locations m <= total_sightings m)%nat
  /\ hotspot_count m = length (hotspots m)
  /\ (hotspot_count m <= total_sightings m)%nat
  /\ forall r, In r (hotspots m) -> In r df.
Proof.
  unfold _calculate_habitat_metrics. destruct df as [| r0 rest]; [discriminate |].
  set (df := r0 :: rest).
  destruct (gaussian_kde (map lonlat df)) as [kde | e]; cbn [bind]; [| discriminate].
  intros Heq. injection Heq as <-.
  cbn [total_sightings unique_locations hotspot_count hotspots].
  destruct (mask_select_sub df (map (fun l => negb (l =? -1)) (DBSCAN 1 5 (map lonlat df))))
    as [Hlen Hin].
  destruct (drop_duplicates_length (map latlon df)) as [Hle Hge].
  rewrite length_map in Hle.
  split; [discriminate |]. split; [reflexivity |].
  split; [split; [apply Hge; discriminate | exact Hle] |].
  split; [reflexivity |]. split; [exact Hlen | exact Hin].
Qed.

Lemma metrics_of_group (g : DataFrame) (b : Bundle) :
  g <> [] -> _calculate_habitat_metrics gaussian_kde DBSCAN g = Ok b ->
  exists m, b = Metrics m /\ total_sightings m = length g.
Proof.
  intros Hne Hb. destruct b as [| m].
  - destruct g as [| r0 rest]; [congruence |].
    unfold _calculate_habitat_metrics in Hb.
    destruct (gaussian_kde _); discriminate.
  - exists m. split; [reflexivity |]. now apply habitat_metrics_invariants in Hb.
Qed.

Lemma metrics_per_group_ok (gs : list (key * DataFrame)) (rs : list (key * Bundle)) :
  metrics_per_group gaussian_kde DBSCAN gs = Ok rs ->
  Forall2 (fun kg kb => fst kb = fst kg
                        /\ _calculate_habitat_metrics gaussian_kde DBSCAN (snd kg)
                           = Ok (snd kb)) gs rs.
Proof.
  revert rs. induction gs as [| [k g] gs IH]; intros rs; cbn [metrics_per_group].
  - intros Heq. injection Heq as <-. constructor.
  - destruct (_calculate_habitat_metrics gaussian_kde DBSCAN g) as [b | e] eqn:Hb;
      cbn [bind]; [| discriminate].
    destruct (metrics_per_group gaussian_kde DBSCAN gs) as [bs | e]; cbn [bind];
      [| discriminate].
    intros Heq. injection Heq as <-. constructor; [now split | now apply IH].
Qed.

Lemma metrics_per_group_fails (gs : list (key * DataFrame)) (k : key) (g : DataFrame)
    (e : exn) :
  In (k, g) gs ->
  _calculate_habitat_metrics gaussian_kde DBSCAN g = Raise e ->
  exists e', metrics_per_group gaussian_kde DBSCAN gs = Raise e'.
Proof.
  induction gs as [| [k0 g0] gs IH]; intros Hin Hfail; [destruct Hin |].
  cbn [metrics_per_group].
  destruct (_calculate_habitat_metrics gaussian_kde DBSCAN g0) as [b | e0] eqn:Hb;
    cbn [bind]; [| eauto].
  destruct Hin as [Heq | Hin]; [injection Heq as -> ->; congruence |].
  destruct (IH Hin Hfail) as [e' ->]. cbn [bind]. eauto.
Qed.

Lemma grouped_totals (gs : list (key * DataFrame)) (rs : list (key * Bundle)) :
  (forall k g, In (k, g) gs -> g <> []) ->
  metrics_per_group gaussian_kde DBSCAN gs = Ok rs ->
  map fst rs = map fst gs
  /\ Forall (fun kb => exists m, snd kb = Metrics m /\ (1 <= total_sightings m)%nat) rs
  /\ list_sum (map (fun kb => bundle_total (snd kb)) rs)
     = list_sum (map (fun kg => length (snd kg)) gs).
Proof.
  intros Hne Hok. apply metrics_per_group_ok in Hok.
  induction Hok as [| [k g] [k' b] gs rs [Hk Hb] _ IH]; [repeat split; constructor |].
  cbn [fst snd] in *. subst k'.
  assert (Hg : g <> []) by (apply (Hne k); now left).
  destruct (metrics_of_group g b Hg Hb) as (m & -> & Hm).
  destruct IH as (IH1 & IH2 & IH3); [intros k0 g0 Hin; apply (Hne k0); now right |].
  split; [| split].
  - cbn [map fst]. now rewrite IH1.
  - constructor; [| exact IH2]. exists m. split; [reflexivity |].
    rewrite Hm. destruct g; [congruence | simpl; lia].
  - change (list_sum (map (fun kb => bundle_total (snd kb)) ((k, Metrics m) :: rs)))
      with (total_sightings m + list_sum (map (fun kb => bundle_total (snd kb)) rs))%nat.
    change (list_sum (map (fun kg => length (snd kg)) ((k, g) :: gs)))
      with (length g + list_sum (map (fun kg => length (snd kg)) gs))%nat.
    now rewrite IH3, Hm.
Qed.

Lemma strongly_sorted_KInt (ks : list Z) :
  StronglySorted (fun a b => (a <? b) = true) ks ->
  StronglySorted key_lt (map KInt ks).
Proof.
  induction 1 as [| k rest Hrest IH Hall]; simpl; constructor; [exact IH |].
  rewrite List.Forall_forall in *. intros k' Hin.
  apply in_map_iff in Hin as [z [<- Hz]]. simpl. apply Z.ltb_lt. now apply Hall.
Qed.

(** The keys of a grouping: ascending, and exactly the values the column
    takes in the frame. *)
Lemma groupby_col_keys (col : column) (df : DataFrame) :
  StronglySorted key_lt (map fst (groupby_col col df))
  /\ forall k, In k (map fst (groupby_col col df))
               <-> exists r, In r df /\ column_value col r = k.
Proof.
  assert (HZ : forall (f : Row -> Z) (df0 : DataFrame),
            StronglySorted key_lt (map KInt (group_keys Z.ltb Z.eqb (map f df0)))
            /\ forall k, In k (map KInt (group_keys Z.ltb Z.eqb (map f df0)))
                         <-> exists r, In r df0 /\ KInt (f r) = k).
  { intros f df0. split.
    - apply strongly_sorted_KInt.
      apply (group_keys_strongly_sorted Z.ltb Z.eqb Z_ltb_total Z_ltb_trans).
    - intros k. rewrite in_map_iff. split.
      + intros (z & <- & Hz).
        apply (proj1 (in_group_keys Z.ltb Z.eqb Z.eqb_eq _ _)) in Hz.
        apply in_map_iff in Hz as (r & <- & Hr). eauto.
      + intros (r & Hr & <-). exists (f r). split; [reflexivity |].
        apply (in_group_keys Z.ltb Z.eqb Z.eqb_eq). now apply in_map. }
  destruct col; unfold groupby_col, tag_groups, groupby, column_value;
    rewrite !map_map; cbn [fst]; try apply HZ.
  split.
  - apply strongly_sorted_KStr.
    apply (group_keys_strongly_sorted String.ltb String.eqb string_ltb_total
             string_ltb_trans).
  - intros k. rewrite in_map_iff. split.
    + intros (z & <- & Hz).
      apply (proj1 (in_group_keys String.ltb String.eqb String.eqb_eq _ _)) in Hz.
      apply in_map_iff in Hz as (r & <- & Hr). eauto.
    + intros (r & Hr & <-). exists (season r). split; [reflexivity |].
      apply (in_group_keys String.ltb String.eqb String.eqb_eq). now apply in_map.
Qed.

(** X13. When the analysis by year or by season succeeds for a named
    species, the result has one entry per period present among the
    species' records, in ascending order of the period; no entry is empty,
    and the [total_sightings] of the entries add up to the number of the
    species' records. *)
Theorem grouped_habitat_result
    (df : DataFrame) (species time_period : string) (r : HabitatResult) :
  species <> ""%string ->
  (time_period = "year"%string \/ time_period = "season"%string) ->
  analyze_habitat_preferences gaussian_kde DBSCAN df (Some species) (Some time_period)
  = Ok r ->
  exists rs,
    r = ByPeriod rs
    /\ StronglySorted key_lt (map fst rs)
    /\ (forall k, In k (map fst rs)
                  <-> exists row, In row df /\ scientificname row = species
                        /\ k = if String.eqb time_period "year"
                               then KInt (year row) else KStr (season row))
    /\ Forall (fun kb => exists m, snd kb = Metrics m /\ (1 <= total_sightings m)%nat) rs
    /\ list_sum (map (fun kb => bundle_total (snd kb)) rs)
       = length (List.filter (fun row => String.eqb (scientificname row) species) df).
Proof.
  intros Hsp Htp. unfold analyze_habitat_preferences, truthy.
  destruct (String.eqb_spec species "") as [H | _]; [contradiction |]. cbn [negb].
  fold (filter_species species df).
  set (sel := filter_species species df).
  assert (Hsel : forall row, In row sel <-> In row df /\ scientificname row = species).
  { intros row. unfold sel, filter_species. rewrite filter_In, String.eqb_eq. tauto. }
  assert (Hgroups : forall col rs,
            metrics_per_group gaussian_kde DBSCAN (groupby_col col sel) = Ok rs ->
            StronglySorted key_lt (map fst rs)
            /\ (forall k, In k (map fst rs)
                   <-> exists row, In row df /\ scientificname row = species
                                   /\ k = column_value col row)
            /\ Forall (fun kb => exists m, snd kb = Metrics m
                                           /\ (1 <= total_sightings m)%nat) rs
            /\ list_sum (map (fun kb => bundle_total (snd kb)) rs) = length sel).
  { intros col rs Hrs.
    destruct (grouped_totals (groupby_col col sel) rs) as (Hkeys & Hall & Hsum);
      [| exact Hrs |].
    { intros k g Hin. now destruct (groupby_col_group _ _ _ _ Hin). }
    destruct (groupby_col_keys col sel) as [Hsorted Hmem].
    rewrite Hkeys. split; [exact Hsorted |]. split; [| split; [exact Hall |]].
    - intros k. rewrite Hmem. split.
      + intros (row & Hrow & <-). apply Hsel in Hrow as [Hin Hname]. eauto.
      + intros (row & Hin & Hname & ->). exists row. split; [| reflexivity].
        apply Hsel. auto.
    - rewrite Hsum. apply groupby_col_sizes. }
  destruct Htp as [-> | ->]; cbn [String.eqb Ascii.eqb Bool.eqb negb].
  - destruct (metrics_per_group gaussian_kde DBSCAN (groupby_col ColYear sel))
      as [rs | e] eqn:Hrs; cbn [bind]; [| discriminate].
    intros Heq. injection Heq as <-. exists rs. split; [reflexivity |].
    exact (Hgroups ColYear rs Hrs).
  - destruct (metrics_per_group gaussian_kde DBSCAN (groupby_col ColSeason sel))
      as [rs | e] eqn:Hrs; cbn [bind]; [| discriminate].
    intros Heq. injection Heq as <-. exists rs. split; [reflexivity |].
    exact (Hgroups ColSeason rs Hrs).
Qed.

(** X14. The analysis by season has no partial result: if the density
    estimator fails on the records of one season of the species, the whole
    call fails. *)
Theorem seasonal_habitat_fails_with_any_group
    (df : DataFrame) (species : string) (k : key) (g : DataFrame) (e : exn) :
  species <> ""%string ->
  In (k, g) (groupby_col ColSeason (filter_species species df)) ->
  gaussian_kde (map lonlat g) = Raise e ->
  exists e',
    analyze_habitat_preferences gaussian_kde DBSCAN df (Some species) (Some "season"%string)
    = Raise e'.
Proof.
  intros Hsp Hin Hkde. unfold analyze_habitat_preferences, truthy.
  destruct (String.eqb_spec species "") as [H | _]; [contradiction |].
  cbn [String.eqb Ascii.eqb Bool.eqb negb].
  assert (Hg : _calculate_habitat_metrics gaussian_kde DBSCAN g = Raise e).
  { destruct (groupby_col_group _ _ _ _ Hin) as [Hne _].
    destruct g as [| r0 rest]; [congruence |].
    unfold _calculate_habitat_metrics. now rewrite Hkde. }
  destruct (metrics_per_group_fails _ _ _ _ Hin Hg) as [e' ->]. cbn [bind]. eauto.
Qed.

End HabitatFacts.

Section HotspotsAndCorridors.
Import Frame Analyzer Spec.

Context {KDE : Type}.
Variable gaussian_kde : list (Q * Q) -> result KDE.
Variable DBSCAN : Q -> nat -> list (Q * Q) -> list Z.

Lemma mask_select_count {A : Type} (df : list A) (mask : list bool) :
  length mask = length df ->
  length (mask_select df mask) = length (List.filter (fun b => b) mask).
Proof.
  unfold mask_select. revert mask.
  induction df as [| x df IH]; intros [| b mask] Hlen; try discriminate; [reflexivity |].
  injection Hlen as Hlen. cbn [combine List.filter snd].
  destruct b; cbn [map length]; now rewrite IH.
Qed.

Lemma mask_count {A : Type} (f : A -> bool) (l : list A) :
  length (List.filter (fun b => b) (map f l)) = length (List.filter f l).
Proof.
  induction l as [| x l IH]; [reflexivity |].
  cbn [map List.filter]. destruct (f x); cbn [length]; now rewrite IH.
Qed.

Lemma corridor_counts_total (df : DataFrame) (labels : list Z) :
  length labels = length df ->
  list_sum (map corridor_count (corridors_from df labels))
  = length (List.filter (fun l => negb (l =? -1)) labels).
Proof.
  intros Hlen. unfold corridors_from.
  set (ls := List.filter (fun label => negb (label =? -1))
                         (elements (list_to_set labels : gset Z))).
  assert (Hnd : List.NoDup ls).
  { apply List.NoDup_filter. apply NoDup_ListNoDup, NoDup_elements. }
  assert (Hin : forall l, In l ls <-> In l labels /\ l <> -1).
  { intros l. unfold ls. rewrite filter_In, <- list_elem_of_In.
    rewrite elem_of_elements, elem_of_list_to_set, list_elem_of_In.
    rewrite negb_true_iff, Z.eqb_neq. tauto. }
  rewrite map_map.
  rewrite (map_ext _ (fun l => length (List.filter (fun x => x =? l) labels))).
  - rewrite (label_counts_sum _ _ Hnd). f_equal.
    apply filter_ext_in. intros x Hx.
    destruct (existsb (Z.eqb x) ls) eqn:Hex.
    + apply existsb_exists in Hex as [y [Hy Heq]].
      apply Z.eqb_eq in Heq. subst y. apply Hin in Hy as [_ Hy].
      symmetry. now rewrite negb_true_iff, Z.eqb_neq.
    + symmetry. rewrite negb_false_iff, Z.eqb_eq.
      destruct (Z.eq_dec x (-1)) as [Heq | Hne]; [exact Heq |].
      assert (Hxl : In x ls) by (apply Hin; tauto).
      assert (Hex' : existsb (Z.eqb x) ls = true).
      { apply existsb_exists. exists x. split; [exact Hxl | apply Z.eqb_refl]. }
      congruence.
  - intros l. unfold corridor_of. cbn [corridor_count].
    rewrite mask_select_label. now apply cluster_rows_count.
Qed.

(** X15. The two analyses agree on the clustered records: given one label
    per row, the [hotspot_count] of the metrics of a frame is the sum of
    the sighting counts of the migration corridors of the same frame. *)
Theorem hotspots_match_corridors (df : DataFrame) (m : HabitatMetrics) :
  length (DBSCAN 1 5 (map lonlat df)) = length df ->
  _calculate_habitat_metrics gaussian_kde DBSCAN df = Ok (Metrics m) ->
  hotspot_count m
  = list_sum (map corridor_count (_identify_migration_corridors DBSCAN df)).
Proof.
  intros Hlen. unfold _calculate_habitat_metrics, _identify_migration_corridors.
  destruct df as [| r0 rest]; [discriminate |].
  set (df := r0 :: rest) in *.
  destruct (gaussian_kde (map lonlat df)) as [kde | e]; cbn [bind]; [| discriminate].
  intros Heq. injection Heq as <-. cbn [hotspot_count].
  rewrite (corridor_counts_total _ _ Hlen).
  rewrite mask_select_count by now rewrite length_map.
  apply mask_count.
Qed.

End HotspotsAndCorridors.

(** ** The dashboard *)

Section DashboardFacts.
Import Frame Analyzer Spec Dashboard.

Context {KDE : Type}.
Variable gaussian_kde : list (Q * Q) -> result KDE.
Variable DBSCAN : Q -> nat -> list (Q * Q) -> list Z.

Lemma find_no_period (name : string) (rs : list (key * @Bundle KDE)) :
  (forall k, In k (map fst rs) -> key_is k name = false) ->
  List.find (fun kb => key_is (fst kb) name) rs = None.
Proof.
  induction rs as [| [k b] rs IH]; intros Hkeys; [reflexivity |].
  cbn [List.find fst]. rewrite (Hkeys k) by now left.
  apply IH. intros k' Hk'. apply Hkeys. now right.
Qed.

(** X16. The habitat summary of the dashboard reads ['total_sightings'],
    ['unique_locations'] and ['hotspot_count'] from the result of the
    analysis by season, which is keyed by season: for records with the four
    season names all three figures are the default 0, whatever the data. *)
Theorem dashboard_habitat_figures_default
    (df : DataFrame) (species : string) (r : HabitatResult) :
  (forall row, In row df -> In (season row) season_cycle) ->
  analyze_habitat_preferences gaussian_kde DBSCAN df (Some species) (Some "season"%string)
  = Ok r ->
  habitat_figures r = [VInt 0; VInt 0; VInt 0].
Proof.
  intros Hseasons. unfold analyze_habitat_preferences.
  cbn [truthy String.eqb Ascii.eqb Bool.eqb negb].
  set (sel := match truthy (Some species) with
              | true => filter_species species df
              | false => df
              end).
  change (if negb (String.eqb species "") then filter_species species df else df)
    with sel.
  assert (Hsel : forall row, In row sel -> In row df).
  { intros row. unfold sel. destruct (truthy (Some species)); [| tauto].
    unfold filter_species. rewrite filter_In. tauto. }
  destruct (metrics_per_group gaussian_kde DBSCAN (groupby_col ColSeason sel))
    as [rs | e] eqn:Hrs; cbn [bind]; [| discriminate].
  intros Heq. injection Heq as <-.
  apply metrics_per_group_ok in Hrs.
  assert (Hkeys : forall k, In k (map fst rs) ->
                  exists s, k = KStr s /\ In s season_cycle).
  { assert (Hmap : map fst rs = map fst (groupby_col ColSeason sel)).
    { clear -Hrs. induction Hrs as [| kg kb gs rs' [Hk _] _ IH]; [reflexivity |].
      cbn [map]. now rewrite Hk, IH. }
    rewrite Hmap. unfold groupby_col, tag_groups, groupby. rewrite !map_map. cbn [fst].
    intros k Hk. apply in_map_iff in Hk as (s & <- & Hs). exists s. split; [reflexivity |].
    apply (proj1 (in_group_keys String.ltb String.eqb String.eqb_eq _ _)) in Hs.
    apply in_map_iff in Hs as (row & <- & Hrow). auto. }
  assert (Hnone : forall name,
            ~ In name season_cycle ->
            List.find (fun kb => key_is (fst kb) name) rs = None).
  { intros name Hname. apply find_no_period. intros k Hk.
    destruct (Hkeys k Hk) as (s & -> & Hs). cbn [key_is].
    apply String.eqb_neq. intros ->. contradiction. }
  unfold habitat_figures, dict_get.
  rewrite !Hnone; [reflexivity | | |]; unfold season_cycle; simpl;
    intuition discriminate.
Qed.

End DashboardFacts.

Section HabitatExamples.
Import Frame Analyzer Spec HabitatSpec Dashboard Examples MoreExamples.

Lemma invalid_time_period_raises_witness :
  "month"%string <> ""%string /\ "month"%string <> "year"%string
  /\ "month"%string <> "season"%string
  /\ analyze_habitat_preferences Library.gaussian_kde Library.DBSCAN
       winter_then_autumn None (Some "month"%string)
     = Raise (ValueError "time_period must be 'year' or 'season'").
Proof.
  assert (H1 : "month"%string <> ""%string) by discriminate.
  assert (H2 : "month"%string <> "year"%string) by discriminate.
  assert (H3 : "month"%string <> "season"%string) by discriminate.
  split; [exact H1 |]. split; [exact H2 |]. split; [exact H3 |].
  exact (invalid_time_period_raises Library.gaussian_kde Library.DBSCAN
           winter_then_autumn None "month" H1 H2 H3).
Defined.

Lemma habitat_metrics_invariants_witness :
  exists m,
    _calculate_habitat_metrics Library.gaussian_kde Library.DBSCAN winter_then_autumn
    = Ok (Metrics m)
    /\ total_sightings m = 2%nat
    /\ (1 <= unique_locations m <= total_sightings m)%nat.
Proof.
  destruct (_calculate_habitat_metrics Library.gaussian_kde Library.DBSCAN
              winter_then_autumn) as [[| m] | e] eqn:H;
    [vm_compute in H; discriminate | | vm_compute in H; discriminate].
  exists m. split; [reflexivity |].
  destruct (habitat_metrics_invariants Library.gaussian_kde Library.DBSCAN
              winter_then_autumn m H) as (_ & Htot & Huniq & _).
  split; [exact Htot | exact Huniq].
Defined.

Lemma grouped_habitat_result_witness :
  "Megaptera novaeangliae"%string <> ""%string
  /\ exists r rs,
       analyze_habitat_preferences Library.gaussian_kde Library.DBSCAN january_only
         (Some "Megaptera novaeangliae"%string) (Some "season"%string) = Ok r
       /\ r = ByPeriod rs
       /\ list_sum (map (fun kb => bundle_total (snd kb)) rs) = 5%nat.
Proof.
  assert (Hsp : "Megaptera novaeangliae"%string <> ""%string) by discriminate.
  split; [exact Hsp |].
  destruct (analyze_habitat_preferences Library.gaussian_kde Library.DBSCAN january_only
              (Some "Megaptera novaeangliae"%string) (Some "season"%string))
    as [r | e] eqn:H; [| vm_compute in H; discriminate].
  destruct (grouped_habitat_result Library.gaussian_kde Library.DBSCAN january_only
              "Megaptera novaeangliae" "season" r Hsp (or_intror eq_refl) H)
    as (rs & Hr & _ & _ & _ & Hsum).
  exists r, rs. split; [reflexivity |]. split; [exact Hr | exact Hsum].
Defined.

Lemma seasonal_habitat_fails_with_any_group_witness :
  "Megaptera novaeangliae"%string <> ""%string
  /\ In (KStr "Winter", [sighting 10 20 5 1 "Winter"])
        (groupby_col ColSeason
           (filter_species "Megaptera novaeangliae" winter_then_autumn))
  /\ Library.gaussian_kde (map lonlat [sighting 10 20 5 1 "Winter"])
     = Raise InsufficientDataError
  /\ exists e',
       analyze_habitat_preferences Library.gaussian_kde Library.DBSCAN winter_then_autumn
         (Some "Megaptera novaeangliae"%string) (Some "season"%string) = Raise e'.
Proof.
  assert (Hsp : "Megaptera novaeangliae"%string <> ""%string) by discriminate.
  assert (Hin : In (KStr "Winter", [sighting 10 20 5 1 "Winter"])
                   (groupby_col ColSeason
                      (filter_species "Megaptera novaeangliae" winter_then_autumn)))
    by (right; left; reflexivity).
  assert (Hkde : Library.gaussian_kde (map lonlat [sighting 10 20 5 1 "Winter"])
                 = Raise InsufficientDataError) by reflexivity.
  split; [exact Hsp |]. split; [exact Hin |]. split; [exact Hkde |].
  exact (seasonal_habitat_fails_with_any_group Library.gaussian_kde Library.DBSCAN
           winter_then_autumn _ _ _ _ Hsp Hin Hkde).
Defined.

Lemma hotspots_match_corridors_witness :
  length (Library.DBSCAN 1 5 (map lonlat one_corridor)) = length one_corridor
  /\ exists m,
       _calculate_habitat_metrics Library.gaussian_kde Library.DBSCAN one_corridor
       = Ok (Metrics m)
       /\ hotspot_count m
          = list_sum (map corridor_count
                        (_identify_migration_corridors Library.DBSCAN one_corridor)).
Proof.
  assert (Hlen : length (Library.DBSCAN 1 5 (map lonlat one_corridor))
                 = length one_corridor) by (vm_compute; reflexivity).
  split; [exact Hlen |].
  destruct (_calculate_habitat_metrics Library.gaussian_kde Library.DBSCAN one_corridor)
    as [[| m] | e] eqn:H;
    [vm_compute in H; discriminate | | vm_compute in H; discriminate].
  exists m. split; [reflexivity |].
  exact (hotspots_match_corridors Library.gaussian_kde Library.DBSCAN one_corridor m Hlen H).
Defined.

Lemma dashboard_habitat_figures_default_witness :
  (forall row, In row january_only -> In (season row) season_cycle)
  /\ exists r,
       analyze_habitat_preferences Library.gaussian_kde Library.DBSCAN january_only
         (Some "Megaptera novaeangliae"%string) (Some "season"%string) = Ok r
       /\ habitat_figures r = [VInt 0; VInt 0; VInt 0].
Proof.
  assert (Hs : forall row, In row january_only -> In (season row) season_cycle).
  { intros row Hrow. vm_compute in Hrow.
    repeat (destruct Hrow as [<- | Hrow]; [now left |]). destruct Hrow. }
  split; [exact Hs |].
  destruct (analyze_habitat_preferences Library.gaussian_kde Library.DBSCAN january_only
              (Some "Megaptera novaeangliae"%string) (Some "season"%string))
    as [r | e] eqn:H; [| vm_compute in H; discriminate].
  exists r. split; [reflexivity |].
  exact (dashboard_habitat_figures_default Library.gaussian_kde Library.DBSCAN
           january_only "Megaptera novaeangliae" r Hs H).
Defined.

End HabitatExamples.

(** ** Cleaning *)

Section DedupFacts.
Import Cleaning.

Context {A : Type} (eqb : A -> A -> bool).

Lemma filter_sublist (f : A -> bool) (l : list A) : sublist (List.filter f l) l.
Proof.
  induction l as [| x l IH]; cbn [List.filter]; [constructor |].
  destruct (f x); now constructor.
Qed.

Lemma filter_twice (f : A -> bool) (l : list A) :
  List.filter f (List.filter f l) = List.filter f l.
Proof.
  induction l as [| x l IH]; [reflexivity |]. cbn [List.filter].
  destruct (f x) eqn:Hx; cbn [List.filter]; rewrite ?Hx, IH; reflexivity.
Qed.

Lemma drop_duplicates_by_sublist (l : list A) : sublist (drop_duplicates_by eqb l) l.
Proof.
  induction l as [| x l IH]; cbn [drop_duplicates_by]; constructor.
  etransitivity; [apply filter_sublist | exact IH].
Qed.

Lemma distinct_by_filter (f : A -> bool) (l : list A) :
  distinct_by eqb l -> distinct_by eqb (List.filter f l).
Proof.
  unfold distinct_by. induction 1 as [| x l Hx _ IH]; cbn [List.filter]; [constructor |].
  destruct (f x); [| exact IH]. constructor; [| exact IH].
  rewrite List.Forall_forall in *. intros y Hy. apply filter_In in Hy. now apply Hx.
Qed.

Lemma drop_duplicates_by_distinct (l : list A) :
  distinct_by eqb (drop_duplicates_by eqb l).
Proof.
  induction l as [| x l IH]; cbn [drop_duplicates_by]; constructor.
  - apply List.Forall_forall. intros y Hy. apply filter_In in Hy as [_ Hy].
    now apply negb_true_iff in Hy.
  - now apply distinct_by_filter.
Qed.

Lemma drop_duplicates_by_fixed (l : list A) :
  distinct_by eqb l -> drop_duplicates_by eqb l = l.
Proof.
  unfold distinct_by. induction 1 as [| x l Hx _ IH]; cbn [drop_duplicates_by]; [reflexivity |].
  rewrite IH. f_equal. rewrite <- (List.filter_true l) at 2. apply filter_ext_in.
  intros y Hy. rewrite List.Forall_forall in Hx. now rewrite (Hx y Hy).
Qed.

Hypothesis eqb_refl : forall x, eqb x x = true.
Hypothesis eqb_trans : forall x y z, eqb x y = true -> eqb y z = true -> eqb x z = true.

(** Every element keeps a representative, at or before it. *)
Lemma drop_duplicates_by_represents (l : list A) (x : A) :
  In x l -> exists y, In y (drop_duplicates_by eqb l) /\ eqb y x = true.
Proof using eqb_refl eqb_trans.
  induction l as [| a l IH]; [intros [] |]. cbn [drop_duplicates_by].
  intros [-> | Hx]; [exists x; split; [now left | apply eqb_refl] |].
  destruct (IH Hx) as (y & Hy & Hyx).
  destruct (eqb a y) eqn:Hay.
  - exists a. split; [now left | eauto].
  - exists y. split; [| exact Hyx]. right. apply filter_In. now rewrite Hay.
Qed.

End DedupFacts.

Section CleaningFacts.
Import Cleaner Cleaning.

Variables dt_year dt_month : Z -> Z.

Lemma same_sighting_spec (a b : Sighting) :
  same_sighting a b = true <->
  scientificname a = scientificname b
  /\ (latitude a == latitude b)%Q /\ (longitude a == longitude b)%Q
  /\ eventdate a = eventdate b.
Proof.
  unfold same_sighting. rewrite !andb_true_iff, !Qeq_bool_iff, Z.eqb_eq.
  assert (Hname : name_eqb (scientificname a) (scientificname b) = true
                  <-> scientificname a = scientificname b).
  { unfold name_eqb. destruct (scientificname a), (scientificname b);
      try (split; [discriminate | discriminate]); [| tauto].
    rewrite String.eqb_eq. split; congruence. }
  rewrite Hname. tauto.
Qed.

Lemma same_sighting_refl (a : Sighting) : same_sighting a a = true.
Proof. apply same_sighting_spec. repeat split; reflexivity. Qed.

Lemma same_sighting_trans (a b c : Sighting) :
  same_sighting a b = true -> same_sighting b c = true -> same_sighting a c = true.
Proof.
  rewrite !same_sighting_spec. intros (H1 & H2 & H3 & H4) (H5 & H6 & H7 & H8).
  repeat split; try congruence; etransitivity; eauto.
Qed.

Lemma between_spec (lo hi x : Q) : between lo hi x = true <-> (lo <= x <= hi)%Q.
Proof. unfold between. now rewrite andb_true_iff, !Qle_bool_iff. Qed.

Lemma in_clean_coordinates (s : Sighting) (df : list Sighting) :
  In s (_clean_coordinates df) <->
  In s df /\ (-90 <= latitude s <= 90)%Q /\ (-180 <= longitude s <= 180)%Q.
Proof.
  unfold _clean_coordinates. now rewrite filter_In, andb_true_iff, !between_spec.
Qed.

Lemma clean_data_unfold (df : list RawRow) :
  clean_data dt_year dt_month df
  = _add_derived_features dt_year dt_month
      (_clean_coordinates (_remove_duplicates (_handle_missing_values df))).
Proof. destruct df; reflexivity. Qed.

Lemma base_of_derived (l : list Sighting) :
  map base (_add_derived_features dt_year dt_month l) = l.
Proof.
  unfold _add_derived_features. rewrite map_map. cbn [base]. apply map_id.
Qed.

(** X17. Every cleaned record has its latitude in [-90, 90] and its
    longitude in [-180, 180]. *)
Theorem cleaned_coordinates_valid (df : list RawRow) (c : CleanRow) :
  In c (clean_data dt_year dt_month df) ->
  (-90 <= latitude (base c) <= 90)%Q /\ (-180 <= longitude (base c) <= 180)%Q.
Proof.
  rewrite clean_data_unfold. intros Hc.
  apply (in_map base) in Hc. rewrite base_of_derived in Hc.
  now apply in_clean_coordinates in Hc.
Qed.

Lemma handle_missing_values_sublist (df : list RawRow) (s : Sighting) :
  In s (_handle_missing_values df) <-> exists r, In r df /\ present r = Some s.
Proof.
  induction df as [| r df IH]; cbn [_handle_missing_values].
  - split; [intros [] | intros (r & [] & _)].
  - destruct (present r) as [s0 |] eqn:Hr; cbn [In]; rewrite IH; split.
    + intros [<- | (r' & Hr' & Hs)]; eauto.
    + intros (r' & [<- | Hr'] & Hs); [left; congruence | eauto].
    + intros (r' & Hr' & Hs). eauto.
    + intros (r' & [<- | Hr'] & Hs); [congruence | eauto].
Qed.

(** X19. Cleaning only removes records and keeps their order: the cleaned
    records are, in order, among the input records that have latitude,
    longitude and date, and a missing individual count has become 1. *)
Theorem cleaning_only_removes (df : list RawRow) :
  sublist (map base (clean_data dt_year dt_month df)) (_handle_missing_values df)
  /\ (length (clean_data dt_year dt_month df) <= length df)%nat
  /\ forall c, In c (clean_data dt_year dt_month df) ->
       exists r, In r df
         /\ raw_scientificname r = scientificname (base c)
         /\ raw_latitude r = Some (latitude (base c))
         /\ raw_longitude r = Some (longitude (base c))
         /\ raw_eventdate r = Some (eventdate (base c))
         /\ (raw_individualcount r = Some (individualcount (base c))
             \/ (raw_individualcount r = None /\ individualcount (base c) = 1)).
Proof.
  assert (Hsub : sublist (map base (clean_data dt_year dt_month df))
                         (_handle_missing_values df)).
  { rewrite clean_data_unfold, base_of_derived.
    etransitivity; [apply filter_sublist | apply drop_duplicates_by_sublist]. }
  split; [exact Hsub |]. split.
  - apply sublist_length in Hsub. rewrite length_map in Hsub.
    etransitivity; [exact Hsub |]. clear.
    induction df as [| r df IH]; cbn [_handle_missing_values length]; [lia |].
    destruct (present r); cbn [length]; lia.
  - intros c Hc. apply (in_map base) in Hc.
    assert (Hin : In (base c) (_handle_missing_values df)).
    { apply list_elem_of_In. eapply elem_of_sublist; [| exact Hsub].
      now apply list_elem_of_In. }
    apply handle_missing_values_sublist in Hin as (r & Hr & Hp).
    exists r. split; [exact Hr |]. unfold present in Hp.
    destruct (raw_latitude r), (raw_longitude r), (raw_eventdate r); try discriminate.
    injection Hp as <-. cbn. repeat split.
    destruct (raw_individualcount r); [now left | now right].
Qed.

(** X20. Cleaning loses no valid record: an input record with latitude,
    longitude and date present and in range is represented in the output
    by a record with the same name, coordinates and date. *)
Theorem cleaning_keeps_valid_records (df : list RawRow) (r : RawRow) (s : Sighting) :
  In r df -> present r = Some s ->
  (-90 <= latitude s <= 90)%Q -> (-180 <= longitude s <= 180)%Q ->
  exists c, In c (clean_data dt_year dt_month df)
            /\ same_sighting (base c) s = true.
Proof.
  intros Hr Hp Hlat Hlon.
  assert (Hs : In s (_handle_missing_values df))
    by (apply handle_missing_values_sublist; eauto).
  destruct (drop_duplicates_by_represents same_sighting same_sighting_refl
              same_sighting_trans _ _ Hs) as (y & Hy & Hys).
  pose proof Hys as Hspec. apply same_sighting_spec in Hspec as (_ & Ela & Elo & _).
  assert (Hyc : In y (_clean_coordinates (_remove_duplicates (_handle_missing_values df)))).
  { apply in_clean_coordinates. split; [exact Hy |]. rewrite Ela, Elo. tauto. }
  rewrite clean_data_unfold. unfold _add_derived_features.
  eexists. split; [apply in_map; exact Hyc | exact Hys].
Qed.

Lemma present_to_raw (c : CleanRow) : present (to_raw c) = Some (base c).
Proof. unfold present, to_raw. cbn. now destruct (base c). Qed.

Lemma handle_missing_values_to_raw (cs : list CleanRow) :
  _handle_missing_values (map to_raw cs) = map base cs.
Proof.
  induction cs as [| c cs IH]; [reflexivity |].
  cbn [map _handle_missing_values]. now rewrite present_to_raw, IH.
Qed.

Hypothesis month_range : forall t, 1 <= dt_month t <= 12.

(** X22. On a calendar with months 1 to 12 the derived columns of a
    cleaned record are consistent: the season is Winter for months 12, 1, 2,
    Spring for 3 to 5, Summer for 6 to 8 and Autumn exactly for 9 to 11,
    and the hemisphere is Northern exactly for latitudes from 0 up. *)
Theorem cleaned_derived_columns (df : list RawRow) (c : CleanRow) :
  In c (clean_data dt_year dt_month df) ->
  year c = dt_year (eventdate (base c))
  /\ month c = dt_month (eventdate (base c))
  /\ (season c = "Winter"%string <-> month c = 12 \/ month c <= 2)
  /\ (season c = "Spring"%string <-> 3 <= month c <= 5)
  /\ (season c = "Summer"%string <-> 6 <= month c <= 8)
  /\ (season c = "Autumn"%string <-> 9 <= month c <= 11)
  /\ (hemisphere c = "Northern"%string <-> (0 <= latitude (base c))%Q)
  /\ (hemisphere c = "Southern"%string <-> ~ (0 <= latitude (base c))%Q).
Proof using month_range.
  rewrite clean_data_unfold. unfold _add_derived_features.
  intros Hc. apply in_map_iff in Hc as (s & <- & _).
  cbn [year month season hemisphere base].
  split; [reflexivity |]. split; [reflexivity |].
  pose proof (month_range (eventdate s)) as Hm.
  generalize dependent (dt_month (eventdate s)). intros m Hm.
  assert (Hseason :
    (_get_season m = "Winter"%string <-> m = 12 \/ m <= 2)
    /\ (_get_season m = "Spring"%string <-> 3 <= m <= 5)
    /\ (_get_season m = "Summer"%string <-> 6 <= m <= 8)
    /\ (_get_season m = "Autumn"%string <-> 9 <= m <= 11)).
  { assert (Hcases : m = 1 \/ m = 2 \/ m = 3 \/ m = 4 \/ m = 5 \/ m = 6 \/ m = 7
                     \/ m = 8 \/ m = 9 \/ m = 10 \/ m = 11 \/ m = 12) by lia.
    repeat (destruct Hcases as [-> | Hcases];
            [cbn; (split; [| split; [| split]]); (split; intros H;
               first [reflexivity | discriminate H | lia | (exfalso; lia)]) |]).
    subst m. cbn. (split; [| split; [| split]]); (split; intros H;
      first [reflexivity | discriminate H | lia | (exfalso; lia)]). }
  destruct Hseason as (Hw & Hsp & Hsu & Ha).
  split; [exact Hw |]. split; [exact Hsp |]. split; [exact Hsu |]. split; [exact Ha |].
  destruct (Qle_bool 0 (latitude s)) eqn:Hle.
  - apply Qle_bool_iff in Hle. split; split; intros H;
      first [reflexivity | exact Hle | discriminate H | contradiction].
  - assert (Hnle : ~ (0 <= latitude s)%Q).
    { intros H. apply Qle_bool_iff in H. congruence. }
    split; split; intros H;
      first [reflexivity | exact Hnle | discriminate H | contradiction].
Qed.

End CleaningFacts.

Section CleaningExamples.
Import Cleaning MoreExamples.

Lemma months_month_range (t : Z) : 1 <= months_month t <= 12.
Proof. unfold months_month. pose proof (Z.mod_pos_bound t 12). lia. Qed.

Lemma cleaned_coordinates_valid_witness :
  In (mkCleanRow (mkSighting (Some "Orcinus orca"%string) 10 20 24121 1)
                 2010 2 "Winter" "Northern")
     (clean_data months_year months_month raw_four)
  /\ (-90 <= 10 <= 90)%Q /\ (-180 <= 20 <= 180)%Q.
Proof.
  assert (H : In (mkCleanRow (mkSighting (Some "Orcinus orca"%string) 10 20 24121 1)
                             2010 2 "Winter" "Northern")
                 (clean_data months_year months_month raw_four))
    by (left; reflexivity).
  split; [exact H |].
  exact (cleaned_coordinates_valid months_year months_month raw_four _ H).
Defined.

Lemma cleaning_keeps_valid_records_witness :
  In (mkRawRow (Some "Orcinus orca"%string) (Some 10%Q) (Some 20%Q) (Some 24121) (Some 3))
     raw_four
  /\ exists c, In c (clean_data months_year months_month raw_four)
               /\ same_sighting (base c)
                    (mkSighting (Some "Orcinus orca"%string) 10 20 24121 3) = true.
Proof.
  assert (H1 : In (mkRawRow (Some "Orcinus orca"%string) (Some 10%Q) (Some 20%Q)
                            (Some 24121) (Some 3)) raw_four)
    by (right; left; reflexivity).
  split; [exact H1 |].
  apply (cleaning_keeps_valid_records months_year months_month raw_four _ _ H1).
  - reflexivity.
  - split; unfold Qle; simpl; lia.
  - split; unfold Qle; simpl; lia.
Defined.

Lemma cleaned_derived_columns_witness :
  (forall t, 1 <= months_month t <= 12)
  /\ In (mkCleanRow (mkSighting (Some "Orcinus orca"%string) 10 20 24121 1)
                    2010 2 "Winter" "Northern")
        (clean_data months_year months_month raw_four)
  /\ ("Winter"%string = "Winter"%string <-> 2 = 12 \/ 2 <= 2).
Proof.
  assert (H : In (mkCleanRow (mkSighting (Some "Orcinus orca"%string) 10 20 24121 1)
                             2010 2 "Winter" "Northern")
                 (clean_data months_year months_month raw_four))
    by (left; reflexivity).
  split; [exact months_month_range |]. split; [exact H |].
  exact (proj1 (proj2 (proj2 (cleaned_derived_columns months_year months_month
                                months_month_range raw_four _ H)))).
Defined.

End CleaningExamples.

(** ** Cleaning, coordinates read as numbers or text *)

Section ObjectColumnFacts.
Import Cleaner Cleaning ObjectColumns.

Variable to_numeric : string -> option Q.
Variables dt_year dt_month : Z -> Z.

Lemma filter_map_commute {A B : Type} (f : A -> B) (p : A -> bool) (p' : B -> bool)
    (l : list A) :
  (forall x, p' (f x) = p x) ->
  List.filter p' (map f l) = map f (List.filter p l).
Proof.
  intros Hp. induction l as [| x l IH]; [reflexivity |].
  cbn [map List.filter]. rewrite Hp. destruct (p x); cbn [map]; now rewrite IH.
Qed.

Lemma drop_duplicates_by_map {A B : Type} (f : A -> B)
    (eqb : A -> A -> bool) (eqb' : B -> B -> bool) (l : list A) :
  (forall x y, eqb' (f x) (f y) = eqb x y) ->
  drop_duplicates_by eqb' (map f l) = map f (drop_duplicates_by eqb l).
Proof.
  intros He. induction l as [| x l IH]; [reflexivity |].
  cbn [map drop_duplicates_by]. rewrite IH. f_equal.
  apply filter_map_commute. intros y. now rewrite He.
Qed.

Lemma present_of_raw (r : RawRow) :
  ObjectColumns.present (of_raw r) = option_map of_sighting (Cleaning.present r).
Proof.
  unfold ObjectColumns.present, Cleaning.present, of_raw.
  cbn [obj_latitude obj_longitude obj_eventdate obj_scientificname obj_individualcount].
  destruct (raw_latitude r), (raw_longitude r), (raw_eventdate r); reflexivity.
Qed.

Lemma handle_missing_values_of_raw (df : list RawRow) :
  ObjectColumns._handle_missing_values (map of_raw df)
  = map of_sighting (Cleaning._handle_missing_values df).
Proof.
  induction df as [| r df IH]; [reflexivity |].
  cbn [map ObjectColumns._handle_missing_values Cleaning._handle_missing_values].
  rewrite present_of_raw.
  destruct (Cleaning.present r); cbn [option_map map]; now rewrite IH.
Qed.

Lemma clean_coordinates_of_sighting (l : list Sighting) :
  ObjectColumns._clean_coordinates to_numeric (map of_sighting l)
  = Cleaning._clean_coordinates l.
Proof.
  unfold Cleaning._clean_coordinates.
  induction l as [| s l IH]; [reflexivity |].
  cbn [map ObjectColumns._clean_coordinates List.filter of_sighting coerce
       cell_latitude cell_longitude cell_scientificname cell_eventdate
       cell_individualcount].
  rewrite IH.
  destruct (between (-90) 90 (latitude s) && between (-180) 180 (longitude s));
    [| reflexivity].
  f_equal. now destruct s.
Qed.

(** On numeric coordinate columns the conversion changes nothing: the
    pipeline is the one of [Module Cleaning]. *)
Lemma clean_data_of_raw (df : list RawRow) :
  ObjectColumns.clean_data to_numeric dt_year dt_month (map of_raw df)
  = Cleaning.clean_data dt_year dt_month df.
Proof.
  destruct df as [| r df]; [reflexivity |].
  unfold ObjectColumns.clean_data, Cleaning.clean_data.
  cbn [map]. change (of_raw r :: map of_raw df) with (map of_raw (r :: df)).
  rewrite handle_missing_values_of_raw.
  unfold ObjectColumns._remove_duplicates, Cleaning._remove_duplicates.
  rewrite (drop_duplicates_by_map of_sighting same_sighting same_record)
    by reflexivity.
  now rewrite clean_coordinates_of_sighting.
Qed.

Lemma numeric_coordinates_of_raw (df : list ObjRow) :
  numeric_coordinates df -> df = map of_raw (map to_numeric_row df).
Proof.
  induction 1 as [| r df [Hlat Hlon] _ IH]; [reflexivity |].
  cbn [map]. rewrite <- IH. f_equal.
  destruct r as [name lat lon date count]. unfold of_raw, to_numeric_row.
  cbn in *. f_equal.
  - destruct lat as [[q | s] |]; [reflexivity | contradiction | reflexivity].
  - destruct lon as [[q | s] |]; [reflexivity | contradiction | reflexivity].
Qed.

(** X18. When the coordinate columns hold numbers, no two cleaned
    records agree on species name, latitude, longitude and event date.
    (The duplicates are removed before the coordinates are converted, so
    the hypothesis matters: two texts that read as one number are
    different cells.) *)
Theorem cleaned_no_duplicates (df : list ObjRow) :
  numeric_coordinates df ->
  distinct_by same_sighting
    (map base (ObjectColumns.clean_data to_numeric dt_year dt_month df)).
Proof.
  intros Hnum. rewrite (numeric_coordinates_of_raw df Hnum), clean_data_of_raw.
  rewrite clean_data_unfold, base_of_derived.
  apply distinct_by_filter, drop_duplicates_by_distinct.
Qed.

(** X21. When the coordinate columns hold numbers, cleaning is
    idempotent: cleaning the cleaned records again gives the same
    records. *)
Theorem cleaning_idempotent (df : list ObjRow) :
  numeric_coordinates df ->
  ObjectColumns.clean_data to_numeric dt_year dt_month
    (map to_obj (ObjectColumns.clean_data to_numeric dt_year dt_month df))
  = ObjectColumns.clean_data to_numeric dt_year dt_month df.
Proof.
  intros Hnum. rewrite (numeric_coordinates_of_raw df Hnum), clean_data_of_raw.
  set (df' := map to_numeric_row df).
  unfold to_obj. rewrite <- (map_map to_raw of_raw), clean_data_of_raw.
  rewrite (clean_data_unfold _ _ (map to_raw _)), handle_missing_values_to_raw.
  rewrite (clean_data_unfold _ _ df'), base_of_derived.
  set (kept := Cleaning._remove_duplicates (Cleaning._handle_missing_values df')).
  assert (Hd : Cleaning._remove_duplicates (Cleaning._clean_coordinates kept)
               = Cleaning._clean_coordinates kept).
  { apply drop_duplicates_by_fixed, distinct_by_filter, drop_duplicates_by_distinct. }
  rewrite Hd. unfold Cleaning._clean_coordinates. now rewrite filter_twice.
Qed.

End ObjectColumnFacts.

Section ObjectColumnExamples.
Import Cleaning ObjectColumns.

Lemma obj_four_numeric : numeric_coordinates obj_four.
Proof. repeat constructor. Qed.

Lemma cleaned_no_duplicates_witness :
  numeric_coordinates obj_four
  /\ distinct_by same_sighting
       (map base (ObjectColumns.clean_data (fun _ => None) months_year months_month
                    obj_four)).
Proof.
  split; [exact obj_four_numeric |].
  exact (cleaned_no_duplicates (fun _ => None) months_year months_month obj_four
           obj_four_numeric).
Defined.

Lemma cleaning_idempotent_witness :
  numeric_coordinates obj_four
  /\ ObjectColumns.clean_data (fun _ => None) months_year months_month
       (map to_obj (ObjectColumns.clean_data (fun _ => None) months_year months_month
                      obj_four))
     = ObjectColumns.clean_data (fun _ => None) months_year months_month obj_four.
Proof.
  split; [exact obj_four_numeric |].
  exact (cleaning_idempotent (fun _ => None) months_year months_month obj_four
           obj_four_numeric).
Defined.

(** Text coordinates are compared as text: the two spellings of ten are
    kept apart by [_remove_duplicates] and become the same number
    afterwards, so both records stay. *)
Lemma text_spellings_stay_apart :
  map base (ObjectColumns.clean_data reads_ten months_year months_month ten_twice)
  = [ mkSighting (Some "Orcinus orca"%string) 10 20 24121 1;
      mkSighting (Some "Orcinus orca"%string) 10 20 24121 1 ].
Proof. reflexivity. Qed.

End ObjectColumnExamples.

(** ** Few records *)

Section FewRecords.
Import Frame Analyzer Library ClusterSpec.

Lemma DBSCAN_all_noise (eps : Q) (min_samples : nat) (X : list (Q * Q)) :
  (length X < min_samples)%nat ->
  forall l, In l (DBSCAN eps min_samples X) -> l = -1.
Proof.
  intros Hfew l Hl.
  apply list_elem_of_In, list_elem_of_lookup in Hl as [i Hi].
  assert (Hin : (i < length X)%nat).
  { rewrite <- (DBSCAN_length eps min_samples X). now apply lookup_lt_Some in Hi. }
  assert (Hnoise : DBSCAN eps min_samples X !! i = Some (-1)).
  { apply (dbscan_inner_noise (length X)
             (fun i => (min_samples <=? length (neighborhood eps X i))%nat)
             (neighborhood eps X)
             (neighborhood_bound eps min_samples X) (neighborhood_refl eps min_samples X)
             (neighborhood_sym eps min_samples X) (neighborhood_length eps X) i Hin).
    assert (Hnone : forall c,
              (min_samples <=? length (neighborhood eps X c))%nat = false).
    { intros c. apply Nat.leb_gt. pose proof (neighborhood_length eps X c). lia. }
    split; [apply Hnone |]. intros c Hc. rewrite Hnone in Hc. discriminate. }
  congruence.
Qed.

Lemma filter_none {A : Type} (f : A -> bool) (l : list A) :
  (forall x, In x l -> f x = false) -> List.filter f l = [].
Proof.
  induction l as [| x l IH]; intros Hall; [reflexivity |]. cbn [List.filter].
  rewrite (Hall x) by now left. apply IH. intros y Hy. apply Hall. now right.
Qed.

Lemma mask_select_none {A : Type} (df : list A) (mask : list bool) :
  (forall b, In b mask -> b = false) -> mask_select df mask = [].
Proof.
  intros Hall. unfold mask_select. rewrite filter_none; [reflexivity |].
  intros [x b] Hin. apply in_combine_r in Hin. now apply Hall.
Qed.

(** X23. With the cluster detector of design section 4.3 and the
    parameters the analyzer passes ([eps = 1.0], [min_samples = 5]), a
    frame of fewer than 5 records has no migration corridor, and its
    habitat metrics, when computed, report no hotspot. *)
Theorem few_records_no_clusters (df : DataFrame) :
  (length df < 5)%nat ->
  _identify_migration_corridors DBSCAN df = []
  /\ forall (KDE : Type) (kde : list (Q * Q) -> result KDE) (m : HabitatMetrics),
       _calculate_habitat_metrics kde DBSCAN df = Ok (Metrics m) ->
       hotspot_count m = 0%nat /\ hotspots m = [].
Proof.
  intros Hfew.
  assert (Hnoise : forall l, In l (DBSCAN 1 5 (map lonlat df)) -> l = -1).
  { apply DBSCAN_all_noise. now rewrite length_map. }
  split.
  - unfold _identify_migration_corridors, corridors_from.
    rewrite filter_none; [reflexivity |]. intros l Hl.
    apply list_elem_of_In, elem_of_elements, elem_of_list_to_set, list_elem_of_In in Hl.
    rewrite (Hnoise l Hl). reflexivity.
  - intros KDE kde m. unfold _calculate_habitat_metrics.
    destruct df as [| r0 rest]; [discriminate |].
    destruct (kde _) as [k | e]; cbn [bind]; [| discriminate].
    intros Heq. injection Heq as <-. cbn [hotspot_count hotspots].
    rewrite mask_select_none; [split; reflexivity |].
    intros b Hb. apply in_map_iff in Hb as (l & <- & Hl).
    rewrite (Hnoise l Hl). reflexivity.
Qed.

End FewRecords.

Section FewRecordsExample.
Import Frame Analyzer Examples.

Lemma few_records_no_clusters_witness :
  (length winter_then_autumn < 5)%nat
  /\ _identify_migration_corridors Library.DBSCAN winter_then_autumn = [].
Proof.
  assert (H : (length winter_then_autumn < 5)%nat) by (simpl; lia).
  split; [exact H |].
  exact (proj1 (few_records_no_clusters winter_then_autumn H)).
Defined.

End FewRecordsExample.

(** ** Unique locations *)

Section UniqueLocations.
Import Frame Analyzer Spec HabitatSpec.

Context {KDE : Type}.
Variable gaussian_kde : list (Q * Q) -> result KDE.
Variable DBSCAN : Q -> nat -> list (Q * Q) -> list Z.

Lemma drop_duplicates_as_by (ps : list (Q * Q)) :
  drop_duplicates ps = Cleaning.drop_duplicates_by pair_eqb ps.
Proof.
  induction ps as [| p ps IH]; [reflexivity |].
  cbn [drop_duplicates Cleaning.drop_duplicates_by]. now rewrite IH.
Qed.

Lemma pair_eqb_spec (p q : Q * Q) :
  pair_eqb p q = true <-> (fst p == fst q)%Q /\ (snd p == snd q)%Q.
Proof. unfold pair_eqb. now rewrite andb_true_iff, !Qeq_bool_iff. Qed.

Lemma pair_eqb_refl (p : Q * Q) : pair_eqb p p = true.
Proof. apply pair_eqb_spec. split; reflexivity. Qed.

Lemma pair_eqb_trans (p q r : Q * Q) :
  pair_eqb p q = true -> pair_eqb q r = true -> pair_eqb p r = true.
Proof.
  rewrite !pair_eqb_spec. intros [H1 H2] [H3 H4]. split; etransitivity; eauto.
Qed.

Lemma pair_eqb_swap (a b : Row) :
  pair_eqb (lonlat a) (lonlat b) = pair_eqb (latlon a) (latlon b).
Proof. unfold pair_eqb, lonlat, latlon. cbn [fst snd]. apply andb_comm. Qed.

(** X24. Given a density estimator that fails on fewer than 2 points and
    on coinciding points, metrics that are computed always report at least
    2 sightings at no fewer than 2 different locations. *)
Theorem computed_metrics_have_two_locations (df : DataFrame) (m : HabitatMetrics) :
  kde_contract gaussian_kde ->
  _calculate_habitat_metrics gaussian_kde DBSCAN df = Ok (Metrics m) ->
  (2 <= unique_locations m <= total_sightings m)%nat.
Proof.
  intros Hkde Hok.
  destruct (habitat_metrics_invariants gaussian_kde DBSCAN df m Hok)
    as (Hne & Htot & [_ Hle] & _).
  split; [| exact Hle].
  unfold _calculate_habitat_metrics in Hok.
  destruct df as [| r0 rest]; [congruence |]. set (df := r0 :: rest) in *.
  destruct (Library.all_coincide (map lonlat df)) eqn:Hsame.
  { rewrite (Hkde (map lonlat df)) in Hok by now right. discriminate. }
  destruct (gaussian_kde (map lonlat df)) as [kde | e]; cbn [bind] in Hok; [| discriminate].
  injection Hok as <-. cbn [unique_locations].
  clear Hne Htot Hle Hkde kde.
  unfold df in *. cbn [map Library.all_coincide] in Hsame.
  assert (Hother : exists r, In r rest /\ pair_eqb (latlon r0) (latlon r) = false).
  { clear -Hsame. induction rest as [| r rest IH]; [discriminate |].
    cbn [map forallb] in Hsame. apply andb_false_iff in Hsame as [Hr | Hrest].
    - exists r. split; [now left | now rewrite <- pair_eqb_swap].
    - destruct (IH Hrest) as (r' & Hin & Hne). exists r'. split; [now right | exact Hne]. }
  destruct Hother as (r & Hr & Hdiff).
  cbn [map drop_duplicates]. rewrite drop_duplicates_as_by.
  destruct (drop_duplicates_by_represents pair_eqb pair_eqb_refl pair_eqb_trans
              (map latlon rest) (latlon r) (in_map latlon _ _ Hr)) as (y & Hy & Hyr).
  assert (Hkeep : In y (List.filter (fun q => negb (pair_eqb (latlon r0) q))
                          (Cleaning.drop_duplicates_by pair_eqb (map latlon rest)))).
  { apply filter_In. split; [exact Hy |]. apply negb_true_iff.
    destruct (pair_eqb (latlon r0) y) eqn:H0y; [| reflexivity].
    rewrite (pair_eqb_trans _ _ _ H0y Hyr) in Hdiff. discriminate. }
  destruct (List.filter _ _) as [| z zs]; [destruct Hkeep | cbn [length]; lia].
Qed.

(** X25. Without a time period the analysis returns one bundle.  A
    missing or empty species selects every record, so its
    [total_sightings] is the size of the frame; a named species selects
    its own records. *)
Theorem ungrouped_habitat_result
    (df : DataFrame) (species time_period : option string) (r : HabitatResult) :
  time_period = None \/ time_period = Some ""%string ->
  analyze_habitat_preferences gaussian_kde DBSCAN df species time_period = Ok r ->
  exists b,
    r = Single b
    /\ bundle_total b
       = match species with
         | Some s => if String.eqb s "" then length df else length (filter_species s df)
         | None => length df
         end.
Proof.
  intros Htp. unfold analyze_habitat_preferences.
  set (sel := match species with
              | Some s => if truthy species then filter_species s df else df
              | None => df
              end).
  assert (Hsel : length sel = match species with
                              | Some s => if String.eqb s "" then length df
                                          else length (filter_species s df)
                              | None => length df
                              end).
  { unfold sel, truthy. destruct species as [s |]; [| reflexivity].
    destruct (String.eqb s ""); reflexivity. }
  rewrite <- Hsel.
  assert (Hsingle : forall r0,
            (try! b := _calculate_habitat_metrics gaussian_kde DBSCAN sel in Ok (Single b))
            = Ok r0 ->
            exists b, r0 = Single b /\ bundle_total b = length sel).
  { intros r0.
    destruct (_calculate_habitat_metrics gaussian_kde DBSCAN sel) as [b | e] eqn:Hb;
      cbn [bind]; [| discriminate].
    intros Heq. injection Heq as <-. exists b. split; [reflexivity |].
    destruct b as [| m].
    - destruct sel as [| r0 rest]; [reflexivity |].
      unfold _calculate_habitat_metrics in Hb. destruct (gaussian_kde _); discriminate.
    - now apply habitat_metrics_invariants in Hb. }
  destruct Htp as [-> | ->]; cbn [truthy String.eqb negb]; apply Hsingle.
Qed.

End UniqueLocations.

Section UniqueLocationsExamples.
Import Frame Analyzer Spec HabitatSpec Examples.

Lemma computed_metrics_have_two_locations_witness :
  kde_contract Library.gaussian_kde
  /\ exists m,
       _calculate_habitat_metrics Library.gaussian_kde Library.DBSCAN winter_then_autumn
       = Ok (Metrics m)
       /\ (2 <= unique_locations m <= total_sightings m)%nat.
Proof.
  split; [exact library_kde_contract |].
  destruct (_calculate_habitat_metrics Library.gaussian_kde Library.DBSCAN
              winter_then_autumn) as [[| m] | e] eqn:H;
    [vm_compute in H; discriminate | | vm_compute in H; discriminate].
  exists m. split; [reflexivity |].
  exact (computed_metrics_have_two_locations Library.gaussian_kde Library.DBSCAN
           winter_then_autumn m library_kde_contract H).
Defined.

Lemma ungrouped_habitat_result_witness :
  (@None string = None \/ @None string = Some ""%string)
  /\ exists r b,
       analyze_habitat_preferences Library.gaussian_kde Library.DBSCAN winter_then_autumn
         None None = Ok r
       /\ r = Single b /\ bundle_total b = 2%nat.
Proof.
  assert (Htp : @None string = None \/ @None string = Some ""%string) by now left.
  split; [exact Htp |].
  destruct (analyze_habitat_preferences Library.gaussian_kde Library.DBSCAN
              winter_then_autumn None None) as [r | e] eqn:H;
    [| vm_compute in H; discriminate].
  destruct (ungrouped_habitat_result Library.gaussian_kde Library.DBSCAN
              winter_then_autumn None None r Htp H) as (b & Hr & Hb).
  exists r, b. split; [reflexivity |]. split; [exact Hr | exact Hb].
Defined.

End UniqueLocationsExamples.
